(** * imgproc-dh: Sauvola binarization, mask morphology and fast inpainting

    A shallow embedding of the numeric core of the tools
    [binarize-sauvola], [mask-op] and [isolate-bg], and the properties
    of it that the specification states.

    Conventions of the embedding:
    - [int] loop counters and image sizes are [nat]; sample values and
      accumulators are [Z], with the wrap-around of [uint_least64_t] and
      of [unsigned char] written out;
    - [double] is the kernel's binary64 type [float] (IEEE 754, round to
      nearest even, each operation rounded on its own, as on x86-64);
      a conversion from [double] to an integer type that C++ leaves
      undefined (NaN, infinity, out of range) is [None];
    - a [float] sample of OpenCV is the [double] of the same value;
    - a [cv::Mat] is a record of its size and its row-major samples;
    - OpenCV's [copyMakeBorder] is written out after its documentation;
      [distanceTransform], [filter2D], [floodFill], [GaussianBlur] and
      [cvtColor] are section variables. *)

From Stdlib Require Import ZArith List Lia Bool Ascii Floats.
From Stdlib Require String FloatLemmas Uint63.
From stdpp Require Import base list.

Set Default Proof Using "Type".
Set Warnings "-inexact-float".

(** ** C++ control flow *)

(** [for (int i = 0; i < n; i++) s = body i s;] *)
Fixpoint for_loop {St : Type} (n : nat) (body : nat -> St -> St) (s : St) : St :=
  match n with
  | O => s
  | S n' => body n' (for_loop n' body s)
  end.

(** [for (int y = 0; y < h; y++) for (int x = 0; x < w; x++) s = body y x s;] *)
Definition for_pixels {St : Type} (h w : nat) (body : nat -> nat -> St -> St) (s : St) : St :=
  for_loop h (fun y s => for_loop w (fun x s => body y x s) s) s.

(** ** Matrices *)

Record Mat (T : Type) : Type := mkMat { rows : nat; cols : nat; data : list T }.
Arguments mkMat {T} _ _ _.
Arguments rows {T} _.
Arguments cols {T} _.
Arguments data {T} _.

Definition Vec3b : Type := Z * Z * Z.

(** An image as [imread] returns it: one channel or three (B, G, R). *)
Inductive Image : Type :=
| Gray (m : Mat Z)
| Color (m : Mat Vec3b).

Definition channels (img : Image) : nat :=
  match img with Gray _ => 1 | Color _ => 3 end.

Section MatOps.
Context {T : Type} `{!Inhabited T}.

(** [m.at<T>(y, x)] as an rvalue. *)
Definition mat_at (m : Mat T) (y x : nat) : T :=
  data m !!! (y * cols m + x).

(** [m.at<T>(y, x) = v]. *)
Definition mat_set (m : Mat T) (y x : nat) (v : T) : Mat T :=
  mkMat (rows m) (cols m) (<[y * cols m + x := v]> (data m)).

(** [Mat(h, w, type)]: a fresh matrix; its samples are written before
    they are read. *)
Definition mat_new (h w : nat) (v : T) : Mat T :=
  mkMat h w (replicate (h * w) v).

Definition mat_tabulate (h w : nat) (f : nat -> nat -> T) : Mat T :=
  mkMat h w (flat_map (fun y => map (f y) (seq 0 w)) (seq 0 h)).

Definition mat_wf (m : Mat T) : Prop :=
  length (data m) = rows m * cols m.

(** [copyMakeBorder(src, dst, top, bottom, left, right, BORDER_REPLICATE)]:
    [aaaaaa|abcdefgh|hhhhhhh]. *)
Definition copyMakeBorder (src : Mat T) (top bottom left right : nat) : Mat T :=
  mat_tabulate (rows src + top + bottom) (cols src + left + right)
    (fun y x => mat_at src (Nat.min (y - top) (rows src - 1))
                           (Nat.min (x - left) (cols src - 1))).
End MatOps.

(** ** C++ arithmetic *)

Definition INT_MAX : Z := 2147483647.
Definition INT_MIN : Z := -2147483648.

(** Arithmetic of [uint_least64_t]. *)
Definition wrap64 (z : Z) : Z := z mod 2 ^ 64.

(** Conversion of an [int] to [unsigned char]. *)
Definition uchar_of_int (z : Z) : Z := z mod 256.

(** Conversion of an integer to [double]. *)
Definition double_of_Z (z : Z) : float :=
  SF2Prim (binary_normalize prec emax z 0 false).

(** The integral part of a [double], rounded toward zero. *)
Definition double_trunc (f : float) : option Z :=
  match Prim2SF f with
  | S754_zero _ => Some 0%Z
  | S754_finite s m e =>
      let a := if (0 <=? e)%Z then (Z.pos m * 2 ^ e)%Z
               else (Z.pos m / 2 ^ (- e))%Z in
      Some (if s then (- a)%Z else a)
  | S754_infinity _ => None
  | S754_nan => None
  end.

(** Conversion of a [double] to [int]: undefined unless the truncated
    value is an [int]. *)
Definition int_of_double (f : float) : option Z :=
  match double_trunc f with
  | Some z => if ((INT_MIN <=? z) && (z <=? INT_MAX))%Z then Some z else None
  | None => None
  end.

(** Conversion of a [double] to [unsigned char]. *)
Definition uchar_of_double (f : float) : option Z :=
  match double_trunc f with
  | Some z => if ((0 <=? z) && (z <=? 255))%Z then Some z else None
  | None => None
  end.

(** [std::min] and [std::max] on [double]. *)
Definition std_min (a b : float) : float := if (b <? a)%float then b else a.
Definition std_max (a b : float) : float := if (a <? b)%float then b else a.

#[global] Instance float_inhabited : Inhabited float := populate 0%float.

(** ** binarize-sauvola: Sauvola's algorithm on integral images *)

(** [16843009^2 * 255^2 < 2^64] *)
Definition windowSizeLimit : Z := 16843009.

Inductive ProgramMode : Type :=
| OUT_BINARY
| OUT_THRESHOLD
| OUT_PIXELINFO
| OUT_VARIABLE
| OUT_VARIABLE_MULTIW.

Definition ProgramMode_eqb (a b : ProgramMode) : bool :=
  match a, b with
  | OUT_BINARY, OUT_BINARY | OUT_THRESHOLD, OUT_THRESHOLD
  | OUT_PIXELINFO, OUT_PIXELINFO | OUT_VARIABLE, OUT_VARIABLE
  | OUT_VARIABLE_MULTIW, OUT_VARIABLE_MULTIW => true
  | _, _ => false
  end.

(** The configuration variables of the program, as the option loop of
    [argparse] leaves them. *)
Record Config : Type := mkConfig {
  programMode : ProgramMode;
  windowSize : nat;
  kParam : float;
  rScale : float;
  tScale : float;
  tBias : float;
  multiWindowSize : list nat
}.

Definition oVariable (cfg : Config) : bool :=
  ProgramMode_eqb (programMode cfg) OUT_VARIABLE
  || ProgramMode_eqb (programMode cfg) OUT_VARIABLE_MULTIW.

(** The range checks of the option loop of [argparse] ([-w], [-X], [-k],
    [-r], [-t]). *)
Definition window_size_ok (wsize : nat) : bool :=
  (1 <=? wsize) && (Z.of_nat wsize <=? windowSizeLimit)%Z.

Definition valid_config (cfg : Config) : bool :=
  window_size_ok (windowSize cfg)
  && forallb window_size_ok (multiWindowSize cfg)
  && (length (multiWindowSize cfg) <=? 3)
  && negb (kParam cfg <? 0)%float
  && negb (rScale cfg <=? 0)%float
  && negb (tScale cfg <=? 0)%float.

(** The end of [argparse], after the option loop: the variable output
    modes need [rScale >= 1]; the list of window sizes is completed. *)
Definition argparse_finish (cfg : Config) : option Config :=
  if oVariable cfg && (rScale cfg <? 1)%float then None
  else if ProgramMode_eqb (programMode cfg) OUT_VARIABLE_MULTIW then
    match multiWindowSize cfg with
    | [] => None
    | _ =>
        let ws := multiWindowSize cfg
                  ++ replicate (3 - length (multiWindowSize cfg))
                       (List.last (multiWindowSize cfg) 0) in
        Some (mkConfig (programMode cfg) (fold_right Nat.max 0 ws)
                (kParam cfg) (rScale cfg) (tScale cfg) (tBias cfg) ws)
    end
  else
    Some (mkConfig (programMode cfg) (windowSize cfg)
            (kParam cfg) (rScale cfg) (tScale cfg) (tBias cfg)
            [windowSize cfg]).

(** The padded-size check of [main]. *)
Definition pad_size_ok (w h wsize : nat) : bool :=
  negb ((INT_MAX - Z.of_nat wsize <? Z.of_nat w)%Z
        || (INT_MAX - Z.of_nat wsize <? Z.of_nat h)%Z
        || (INT_MAX / Z.of_nat (w + wsize) <? Z.of_nat (h + wsize))%Z).

Definition win_n (wsize : nat) : nat :=
  if negb (wsize mod 2 =? 0) then S (wsize / 2) else wsize / 2.
Definition win_p (wsize : nat) : nat := wsize / 2.

(** The two integral images, [buffer1] of the samples and [buffer2] of
    their squares, filled row by row. *)
Definition integral_row0 (padimg : Mat Z) (pw : nat)
    (buffers : list Z * list Z) : list Z * list Z :=
  let '(_, _, buffer1, buffer2) :=
    for_loop pw (fun x '(accum1, accum2, buffer1, buffer2) =>
      let value := mat_at padimg 0 x in
      let accum1 := wrap64 (accum1 + value) in
      let accum2 := wrap64 (accum2 + wrap64 (value * value)) in
      (accum1, accum2, <[x := accum1]> buffer1, <[x := accum2]> buffer2))
      (0%Z, 0%Z, buffers.1, buffers.2) in
  (buffer1, buffer2).

Definition integral_row (padimg : Mat Z) (pw y : nat)
    (buffers : list Z * list Z) : list Z * list Z :=
  let '(_, _, buffer1, buffer2) :=
    for_loop pw (fun x '(accum1, accum2, buffer1, buffer2) =>
      let value := mat_at padimg y x in
      let accum1 := wrap64 (accum1 + value) in
      let accum2 := wrap64 (accum2 + wrap64 (value * value)) in
      (accum1, accum2,
       <[pw * y + x := wrap64 (accum1 + buffer1 !!! (pw * (y - 1) + x))]> buffer1,
       <[pw * y + x := wrap64 (accum2 + buffer2 !!! (pw * (y - 1) + x))]> buffer2))
      (0%Z, 0%Z, buffers.1, buffers.2) in
  (buffer1, buffer2).

Definition integral_images (padimg : Mat Z) (pw ph : nat) : list Z * list Z :=
  let buffers := (replicate (pw * ph) 0%Z, replicate (pw * ph) 0%Z) in
  let buffers := integral_row0 padimg pw buffers in
  for_loop (ph - 1) (fun i buffers => integral_row padimg pw (S i) buffers) buffers.

(** The four-corner query of one integral image. *)
Definition window_total (buffer : list Z) (pw wsize y x : nat) : Z :=
  let Y0 := pw * y in
  let Y1 := pw * (y + wsize) in
  wrap64 (wrap64 (wrap64 (buffer !!! (Y1 + (x + wsize)) - buffer !!! (Y1 + x))
                  + buffer !!! (Y0 + x))
          - buffer !!! (Y0 + (x + wsize))).

Definition invsqWindow (wsize : nat) : float :=
  (1 / double_of_Z (Z.of_nat wsize) / double_of_Z (Z.of_nat wsize))%float.

Definition window_mean (total1 : Z) (wsize : nat) : float :=
  (double_of_Z total1 * invsqWindow wsize)%float.

(** The argument of [sqrt] in [stddev]. *)
Definition window_variance (total1 total2 : Z) (wsize : nat) : float :=
  let mean := window_mean total1 wsize in
  (double_of_Z total2 * invsqWindow wsize - mean * mean)%float.

Definition window_stddev (total1 total2 : Z) (wsize : nat) : float :=
  sqrt (window_variance total1 total2 wsize).

Definition rParam (cfg : Config) : float := (rScale cfg * (255 * 0.5))%float.
Definition tRealBias (cfg : Config) : float := (255 * tBias cfg)%float.

(** [tScale * mean * (1 + kParam * (stddev / rParam - 1)) + tRealBias],
    before its conversion to [int]. *)
Definition threshold_double (cfg : Config) (mean stddev : float) : float :=
  (tScale cfg * mean * (1 + kParam cfg * (stddev / rParam cfg - 1))
   + tRealBias cfg)%float.

Definition variable_th1 (cfg : Config) (mean : float) : float :=
  (tScale cfg * mean + tRealBias cfg)%float.
Definition variable_th0 (cfg : Config) (mean stddev : float) : float :=
  (tScale cfg * mean * (1 + (stddev / rParam cfg - 1)) + tRealBias cfg)%float.

(** The sample written to [dst] for one pixel, from its window totals
    and its own intensity [center]. *)
Definition dst_sample (cfg : Config) (wsize : nat) (total1 total2 center : Z)
    : option Z :=
  let mean := window_mean total1 wsize in
  let stddev := window_stddev total1 total2 wsize in
  if oVariable cfg then
    let th1 := variable_th1 cfg mean in
    let th0 := variable_th0 cfg mean stddev in
    let v := double_of_Z center in
    let v := std_max (std_min v th1) th0 in
    uchar_of_double (255 * (v - th0) / (th1 - th0))%float
  else
    match int_of_double (threshold_double cfg mean stddev) with
    | Some threshold =>
        if ProgramMode_eqb (programMode cfg) OUT_THRESHOLD
        then Some (uchar_of_int threshold)
        else Some (if (threshold <? center)%Z then 255%Z else 0%Z)
    | None => None
    end.

(** The sample written to [realdst] in the pixel information mode. *)
Definition pixelinfo_sample (wsize : nat) (total1 total2 center : Z)
    : option Vec3b :=
  let chI := (255 - center)%Z in
  let chD := (window_stddev total1 total2 wsize * 2)%float in
  let chM := window_mean total1 wsize in
  match uchar_of_double chM, uchar_of_double chD with
  | Some m, Some d => Some (m, d, uchar_of_int chI)
  | _, _ => None
  end.

(** The body of the loop over window sizes, up to the finalization: the
    single-channel image [dst] of one window size and the updated
    [realdst]. *)
Definition window_pass (cfg : Config) (img : Mat Z) (realdst : Mat Vec3b)
    (wsize : nat) : option (Mat Z * Mat Vec3b) :=
  let w := cols img in
  let h := rows img in
  let pw := w + wsize in
  let ph := h + wsize in
  let padimg := copyMakeBorder img (win_n wsize) (win_p wsize)
                               (win_n wsize) (win_p wsize) in
  let '(buffer1, buffer2) := integral_images padimg pw ph in
  for_pixels h w (fun y x st =>
    match st with
    | None => None
    | Some (dst, realdst) =>
        let total1 := window_total buffer1 pw wsize y x in
        let total2 := window_total buffer2 pw wsize y x in
        let center := mat_at padimg (y + win_n wsize) (x + win_n wsize) in
        let realdst' :=
          if ProgramMode_eqb (programMode cfg) OUT_PIXELINFO
          then match pixelinfo_sample wsize total1 total2 center with
               | Some c => Some (mat_set realdst y x c)
               | None => None
               end
          else Some realdst in
        match realdst', dst_sample cfg wsize total1 total2 center with
        | Some realdst', Some v => Some (mat_set dst y x v, realdst')
        | _, _ => None
        end
    end) (Some (mat_new h w 0%Z, realdst)).

(** [realdst.at<Vec3b>(y, x)[realch] = v] *)
Definition set_channel (c : Vec3b) (realch : nat) (v : Z) : Vec3b :=
  match realch with
  | 0 => (v, c.1.2, c.2)
  | 1 => (c.1.1, v, c.2)
  | _ => (c.1.1, c.1.2, v)
  end.

(** The finalization of the turn [c] of the loop over the window sizes:
    the new [realdst]. *)
Definition finalize_window (cfg : Config) (h w c : nat) (dst : Mat Z)
    (realdst : Mat Vec3b) : Image :=
  if ProgramMode_eqb (programMode cfg) OUT_VARIABLE_MULTIW then
    let d := if S c =? length (multiWindowSize cfg) then 3 else S c in
    Color
      (for_loop (d - c) (fun i realdst =>
         let k := c + i in
         let realch := 2 - k in
         for_pixels h w (fun y x realdst =>
           mat_set realdst y x
             (set_channel (mat_at realdst y x) realch (mat_at dst y x)))
           realdst) realdst)
  else if negb (ProgramMode_eqb (programMode cfg) OUT_PIXELINFO) then Gray dst
  else Color realdst.

(** How a run of [main] ends once the image is loaded: with status 0
    after the output is handed to [imwrite], or with status 1 after a
    message. *)
Inductive Exit (A : Type) : Type :=
| Exit0 (written : A)
| Exit1.
Arguments Exit0 {A} _.
Arguments Exit1 {A}.

(** [main] of binarize-sauvola from the loaded image on, with the
    default prescale of 1: the size checks and the loop over the window
    sizes.  [None]: a conversion is undefined. *)
Definition binarize_sauvola (cfg : Config) (img : Mat Z) : option (Exit Image) :=
  let w := cols img in
  let h := rows img in
  if (w =? 0) || (h =? 0) then Some Exit1
  else if negb (pad_size_ok w h (windowSize cfg)) then Some Exit1
  else
    let realdst :=
      if ProgramMode_eqb (programMode cfg) OUT_PIXELINFO
         || ProgramMode_eqb (programMode cfg) OUT_VARIABLE_MULTIW
      then Color (mat_new h w (0, 0, 0)%Z)
      else Gray (mkMat 0 0 []) in
    match
      for_loop (length (multiWindowSize cfg)) (fun c st =>
        match st with
        | None => None
        | Some realdst =>
            let wsize := multiWindowSize cfg !!! c in
            let realdst3 :=
              match realdst with Color m => m | Gray _ => mkMat 0 0 [] end in
            match window_pass cfg img realdst3 wsize with
            | Some (dst, realdst3) => Some (finalize_window cfg h w c dst realdst3)
            | None => None
            end
        end) (Some realdst)
    with
    | Some realdst => Some (Exit0 realdst)
    | None => None
    end.

(** ** mask-op: mask manipulation commands *)

Inductive ProgramOp : Type :=
| MASK_CMD_NEG
| MASK_CMD_FILL_BORDER
| MASK_CMD_INSET_L2
| MASK_CMD_INSET_L1.

Record ProgramCommand : Type := mkCommand { op : ProgramOp; dist : float }.

(** [{ MASK_CMD_NEG }]: the distance is value-initialized. *)
Definition command_of (o : ProgramOp) : ProgramCommand := mkCommand o 0%float.

(** The cases ['i'], ['I'], ['o'], ['O'] of the option loop of [argparse]:
    the commands pushed for option character [opt] with the parsed
    argument [width]. *)
Definition distance_commands (opt : ascii) (width : float) : list ProgramCommand :=
  let realopt :=
    if (width <? 0)%float then
      if Ascii.eqb opt "i" then "o"%char
      else if Ascii.eqb opt "I" then "O"%char
      else if Ascii.eqb opt "o" then "i"%char
      else if Ascii.eqb opt "O" then "I"%char
      else opt
    else opt in
  let width := if (width <? 0)%float then (- width)%float else width in
  if Ascii.eqb realopt "i" then [mkCommand MASK_CMD_INSET_L2 width]
  else if Ascii.eqb realopt "I" then [mkCommand MASK_CMD_INSET_L1 width]
  else if Ascii.eqb realopt "o" then
    [command_of MASK_CMD_NEG; mkCommand MASK_CMD_INSET_L2 width; command_of MASK_CMD_NEG]
  else if Ascii.eqb realopt "O" then
    [command_of MASK_CMD_NEG; mkCommand MASK_CMD_INSET_L1 width; command_of MASK_CMD_NEG]
  else [].

(** One turn of the option loop, on the option character that
    [getopt_long] returns and the value that [argparse_double] reads from
    its argument.  [None]: the program exits (help, version, error). *)
Definition argparse_option (commands : list ProgramCommand) (opt : ascii)
    (width : float) : option (list ProgramCommand) :=
  if Ascii.eqb opt "n" then Some (commands ++ [command_of MASK_CMD_NEG])
  else if Ascii.eqb opt "B" then Some (commands ++ [command_of MASK_CMD_FILL_BORDER])
  else if Ascii.eqb opt "i" || Ascii.eqb opt "I"
          || Ascii.eqb opt "o" || Ascii.eqb opt "O"
  then Some (commands ++ distance_commands opt width)
  else None.

(** The option loop, from [commands.clear()]. *)
Definition argparse_commands (opts : list (ascii * float))
    : option (list ProgramCommand) :=
  foldl (fun acc o =>
           match acc with
           | Some commands => argparse_option commands o.1 o.2
           | None => None
           end) (Some []) opts.

Inductive DistanceType : Type := CV_DIST_L1 | CV_DIST_L2.

(** [255 - img.at<unsigned char>(y, x)] stored in every sample. *)
Definition mask_negate (img : Mat Z) : Mat Z :=
  for_pixels (rows img) (cols img)
    (fun y x img => mat_set img y x (uchar_of_int (255 - mat_at img y x))) img.

(** [(tmp.at<float>(y, x) <= width) ? 0 : 255] stored in every sample. *)
Definition mask_threshold_distance (img : Mat Z) (tmp : Mat float) (width : float)
    : Mat Z :=
  for_pixels (rows img) (cols img)
    (fun y x img =>
       mat_set img y x (if (mat_at tmp y x <=? width)%float then 0%Z else 255%Z))
    img.

Section MaskOpMain.
(** OpenCV: [distanceTransform(img, tmp, type, CV_DIST_MASK_PRECISE)] and
    [floodFill(img, Point(x, y), Scalar(v))]. *)
Variable distanceTransform : Mat Z -> DistanceType -> Mat float.
Variable floodFill : Mat Z -> nat -> nat -> Z -> Mat Z.

Definition mask_fill_border (img : Mat Z) : Mat Z :=
  let w := cols img in
  let h := rows img in
  let img :=
    for_loop w (fun x img =>
      let img := if negb (mat_at img 0 x =? 0)%Z
                 then floodFill img x 0 0%Z else img in
      if negb (mat_at img (h - 1) x =? 0)%Z
      then floodFill img x (h - 1) 0%Z else img) img in
  for_loop h (fun y img =>
    let img := if negb (mat_at img y 0 =? 0)%Z
               then floodFill img 0 y 0%Z else img in
    if negb (mat_at img y (w - 1) =? 0)%Z
    then floodFill img (w - 1) y 0%Z else img) img.

(** The body of the loop of [main] over the commands. *)
Definition run_command (img : Mat Z) (cmd : ProgramCommand) : Mat Z :=
  match op cmd with
  | MASK_CMD_NEG => mask_negate img
  | MASK_CMD_FILL_BORDER => mask_fill_border img
  | MASK_CMD_INSET_L2 =>
      mask_threshold_distance img (distanceTransform img CV_DIST_L2) (dist cmd)
  | MASK_CMD_INSET_L1 =>
      mask_threshold_distance img (distanceTransform img CV_DIST_L1) (dist cmd)
  end.

Definition run_commands (commands : list ProgramCommand) (img : Mat Z) : Mat Z :=
  foldl run_command img commands.

(** [main] of mask-op on the options and the mask loaded after them;
    [None]: [argparse] exits. *)
Definition mask_op (opts : list (ascii * float)) (img : Mat Z) : option (Mat Z) :=
  match argparse_commands opts with
  | Some commands => Some (run_commands commands img)
  | None => None
  end.
End MaskOpMain.

(** ** isolate-bg: background isolation *)

Definition Vec3f : Type := float * float * float.

Definition mat_map {A B : Type} (f : A -> B) (m : Mat A) : Mat B :=
  mkMat (rows m) (cols m) (map f (data m)).

(** [saturate_cast<uchar>] of a [float] sample, as [convertTo] applies it:
    round to the nearest integer, ties to even, then clamp into
    [0, 255].  OpenCV does not specify the result on NaN and
    infinities; they are sent to 0 here. *)
Definition saturate_uchar (f : float) : Z :=
  match Prim2SF f with
  | S754_finite s m e =>
      let r :=
        if (0 <=? e)%Z then (Z.pos m * 2 ^ e)%Z
        else
          let q := (Z.pos m / 2 ^ (- e))%Z in
          let rem := (Z.pos m mod 2 ^ (- e))%Z in
          let half := (2 ^ (- e - 1))%Z in
          if (half <? rem)%Z || ((rem =? half)%Z && Z.odd q) then (q + 1)%Z else q in
      let r := if s then (- r)%Z else r in
      Z.max 0 (Z.min 255 r)
  | _ => 0%Z
  end.

Definition Vec3b_to_Vec3f (c : Vec3b) : Vec3f :=
  (double_of_Z c.1.1, double_of_Z c.1.2, double_of_Z c.2).
Definition Vec3f_to_Vec3b (c : Vec3f) : Vec3b :=
  (saturate_uchar c.1.1, saturate_uchar c.1.2, saturate_uchar c.2).

Definition image_rows (img : Image) : nat :=
  match img with Gray m => rows m | Color m => rows m end.
Definition image_cols (img : Image) : nat :=
  match img with Gray m => cols m | Color m => cols m end.

(** [mask.at<unsigned char>(y, x)] as a condition. *)
Definition masked (mask : Mat Z) (y x : nat) : bool :=
  negb (mat_at mask y x =? 0)%Z.

Module IsolateBg.

Definition integralWindowSizeLimit : Z := 16843009.

Inductive ProgramMode : Type := OUT_NORMALIZED_IMAGE | OUT_BACKGROUND.

Inductive InpaintInitMode : Type :=
| ISOBG_INPAINT_INIT_MEAN
| ISOBG_INPAINT_INIT_NEIGHBOR_L1.

Record Config : Type := mkConfig {
  programMode : ProgramMode;
  inputAsGrayscale : bool;
  adjustBrightness : bool;
  integralWindowSize : nat;
  kParam : float;
  rScale : float;
  inpaintInitMode : InpaintInitMode;
  inpaintIterations : nat;
  maskDenoiseDistance1 : float;
  maskDenoiseDistance2 : float;
  backgroundBlur : nat;
  backgroundAlpha : float
}.

Definition maskInvert (img : Mat Z) : Mat Z := mask_negate img.

(** [int threshold = mean * (1 + kParam * (stddev / rParam - 1))],
    before its conversion to [int]. *)
Definition threshold_double (kParam rParam mean stddev : float) : float :=
  (mean * (1 + kParam * (stddev / rParam - 1)))%float.

Definition dst_sample (wsize : nat) (kParam rParam : float)
    (total1 total2 center : Z) : option Z :=
  let mean := window_mean total1 wsize in
  let stddev := window_stddev total1 total2 wsize in
  match int_of_double (threshold_double kParam rParam mean stddev) with
  | Some threshold => Some (if (threshold <? center)%Z then 255%Z else 0%Z)
  | None => None
  end.

(** [binarizeUsingSauvola]: the returned flag and the new [dst]; [None]
    when a conversion is undefined. *)
Definition binarizeUsingSauvola (dst src : Mat Z) (integralWindowSize : nat)
    (kParam rScale : float) : option (bool * Mat Z) :=
  let w := cols src in
  let h := rows src in
  let rParam := (rScale * (255 * 0.5))%float in
  if (w =? 0) || (h =? 0) || negb (pad_size_ok w h integralWindowSize)
  then Some (false, dst)
  else
    let pw := w + integralWindowSize in
    let ph := h + integralWindowSize in
    let padimg := copyMakeBorder src (win_n integralWindowSize)
                    (win_p integralWindowSize) (win_n integralWindowSize)
                    (win_p integralWindowSize) in
    let '(buffer1, buffer2) := integral_images padimg pw ph in
    match
      for_pixels h w (fun y x st =>
        match st with
        | None => None
        | Some dst =>
            let total1 := window_total buffer1 pw integralWindowSize y x in
            let total2 := window_total buffer2 pw integralWindowSize y x in
            let center := mat_at padimg (y + win_n integralWindowSize)
                                        (x + win_n integralWindowSize) in
            match dst_sample integralWindowSize kParam rParam
                             total1 total2 center with
            | Some v => Some (mat_set dst y x v)
            | None => None
            end
        end) (Some (mat_new h w 0%Z))
    with
    | Some dst => Some (true, dst)
    | None => None
    end.

Section Generic.
Context {T : Type} `{!Inhabited T}.

(** [if (mask.at<unsigned char>(y, x)) dst.at<T>(y, x) = c;] over the
    image. *)
Definition fill_masked (mask : Mat Z) (h w : nat) (c : T) (dst : Mat T) : Mat T :=
  for_pixels h w
    (fun y x dst => if masked mask y x then mat_set dst y x c else dst) dst.

(** The four pixels [(X, Y)] that one turn [k] of the ring [d] tests,
    in the order of the source. *)
Definition neighbor_candidates (x y d k : nat) : list (Z * Z) :=
  let x := Z.of_nat x in
  let y := Z.of_nat y in
  let d := Z.of_nat d in
  let k := Z.of_nat k in
  [ (x + k, y - d + k); (x + d - k, y + k);
    (x - k, y + d - k); (x - d + k, y - k) ]%Z.

(** [X >= 0 && X < w && Y >= 0 && Y < h && !mask.at<unsigned char>(Y, X)] *)
Definition neighbor_ok (mask : Mat Z) (h w : nat) (XY : Z * Z) : bool :=
  (0 <=? XY.1)%Z && (XY.1 <? Z.of_nat w)%Z
  && (0 <=? XY.2)%Z && (XY.2 <? Z.of_nat h)%Z
  && negb (masked mask (Z.to_nat XY.2) (Z.to_nat XY.1)).

(** One turn of [for (int k = 0; k < d && !ok; k++)]. *)
Definition ring_step (mask : Mat Z) (h w y x d k : nat) (st : Mat T * bool)
    : Mat T * bool :=
  if st.2 then st
  else
    match List.find (neighbor_ok mask h w) (neighbor_candidates x y d k) with
    | Some XY =>
        (mat_set st.1 y x (mat_at st.1 (Z.to_nat XY.2) (Z.to_nat XY.1)), true)
    | None => st
    end.

(** [for (int d = 1; !ok; d++)], from ring [d] on.  No ring beyond
    [h + w] holds a pixel of the image, so a search that did not end
    by then never ends: [None]. *)
Fixpoint ring_search (mask : Mat Z) (h w y x : nat) (fuel d : nat) (dst : Mat T)
    : option (Mat T) :=
  match fuel with
  | O => None
  | S fuel' =>
      let st := for_loop d (ring_step mask h w y x d) (dst, false) in
      if st.2 then Some st.1
      else ring_search mask h w y x fuel' (S d) st.1
  end.

(** [SUBCODE(T)] *)
Definition neighbor_fill (mask : Mat Z) (h w : nat) (dst : Mat T)
    : option (Mat T) :=
  for_pixels h w
    (fun y x st =>
       match st with
       | None => None
       | Some dst =>
           if masked mask y x then ring_search mask h w y x (h + w) 1 dst
           else Some dst
       end) (Some dst).

(** One turn of the diffusion loop, on the result [tmp] of [filter2D]. *)
Definition overwrite_masked (mask : Mat Z) (h w : nat) (tmp dst : Mat T) : Mat T :=
  for_pixels h w
    (fun y x dst => if masked mask y x then mat_set dst y x (mat_at tmp y x) else dst)
    dst.
End Generic.

Definition pixelExists (mask : Mat Z) (h w : nat) : bool :=
  for_pixels h w
    (fun y x (pixelExists : bool) =>
       if pixelExists then true else negb (masked mask y x)) false.

(** The totals [(totalR, totalG, totalB, pixels)] of the unmasked pixels. *)
Definition mean_totals (src : Image) (mask : Mat Z) (h w : nat) : Z * Z * Z * Z :=
  match src with
  | Color s =>
      for_pixels h w
        (fun y x '(totalR, totalG, totalB, pixels) =>
           if negb (masked mask y x) then
             let value := mat_at s y x in
             (wrap64 (totalR + value.2), wrap64 (totalG + value.1.2),
              wrap64 (totalB + value.1.1), wrap64 (pixels + 1))
           else (totalR, totalG, totalB, pixels))
        (0, 0, 0, 0)%Z
  | Gray s =>
      for_pixels h w
        (fun y x '(totalR, totalG, totalB, pixels) =>
           if negb (masked mask y x) then
             (wrap64 (totalR + mat_at s y x), totalG, totalB, wrap64 (pixels + 1))
           else (totalR, totalG, totalB, pixels))
        (0, 0, 0, 0)%Z
  end.

(** The case [ISOBG_INPAINT_INIT_MEAN]; [None] is [return false]. *)
Definition mean_init (src : Image) (mask : Mat Z) (h w : nat) : option Image :=
  let '(totalR, totalG, totalB, pixels) := mean_totals src mask h w in
  if (pixels =? 0)%Z then None
  else
    let meanR := uchar_of_int (totalR / pixels) in
    let meanG := uchar_of_int (totalG / pixels) in
    let meanB := uchar_of_int (totalB / pixels) in
    match src with
    | Color dst => Some (Color (fill_masked mask h w (meanB, meanG, meanR) dst))
    | Gray dst => Some (Gray (fill_masked mask h w meanR dst))
    end.

(** The case [ISOBG_INPAINT_INIT_NEIGHBOR_L1]; the inner [None] is
    [return false], the outer one a search that does not end. *)
Definition neighbor_init (src : Image) (mask : Mat Z) (h w : nat)
    : option (option Image) :=
  if negb (pixelExists mask h w) then Some None
  else
    match src with
    | Color dst =>
        match neighbor_fill mask h w dst with
        | Some dst => Some (Some (Color dst))
        | None => None
        end
    | Gray dst =>
        match neighbor_fill mask h w dst with
        | Some dst => Some (Some (Gray dst))
        | None => None
        end
    end.

Section Main.
(** OpenCV: [filter2D(dst, tmp, -1, kernel, Point(1, 1), 0,
    BORDER_REPLICATE)] on one and on three channels,
    [distanceTransform(img, tmp, CV_DIST_L2, CV_DIST_MASK_PRECISE)],
    [GaussianBlur(bg, bg, Size(n, n), 0.0, 0.0, BORDER_REPLICATE)] and
    [cvtColor(img, tmp, CV_BGR2GRAY)]. *)
Variable filter2D : Mat float -> Mat float.
Variable filter2D_C3 : Mat Vec3f -> Mat Vec3f.
Variable distanceTransform : Mat Z -> DistanceType -> Mat float.
Variable GaussianBlur : Image -> nat -> Image.
Variable cvtColor : Mat Vec3b -> Mat Z.

Definition maskInset (img : Mat Z) (width : float) : Mat Z :=
  mask_threshold_distance img (distanceTransform img CV_DIST_L2) width.

(** From [dst.convertTo(dst, CV_32F...)] to [dst.convertTo(dst, CV_8U...)]. *)
Definition diffuse (dst : Image) (mask : Mat Z) (h w iterations : nat) : Image :=
  match dst with
  | Color d =>
      let d := mat_map Vec3b_to_Vec3f d in
      let d := for_loop iterations
                 (fun _ d => overwrite_masked mask h w (filter2D_C3 d) d) d in
      Color (mat_map Vec3f_to_Vec3b d)
  | Gray d =>
      let d := mat_map double_of_Z d in
      let d := for_loop iterations
                 (fun _ d => overwrite_masked mask h w (filter2D d) d) d in
      Gray (mat_map saturate_uchar d)
  end.

(** [fastInpaint]: the returned flag and [dst]; [None] when the
    search for a neighbor does not end. *)
Definition fastInpaint (src : Image) (mask : Mat Z) (initMode : InpaintInitMode)
    (iterations : nat) : option (bool * Image) :=
  let dst := src in
  let w := image_cols src in
  let h := image_rows src in
  let init :=
    match initMode with
    | ISOBG_INPAINT_INIT_MEAN => Some (mean_init dst mask h w)
    | ISOBG_INPAINT_INIT_NEIGHBOR_L1 => neighbor_init dst mask h w
    end in
  match init with
  | None => None
  | Some None => Some (false, dst)
  | Some (Some dst) => Some (true, diffuse dst mask h w iterations)
  end.

(** [min(max(backgroundAlpha * vI / vB, 0.0), 1.0) * 255.0] as an
    [unsigned char]. *)
Definition normalize_sample (alpha : float) (vI vB : Z) : option Z :=
  uchar_of_double
    (std_min (std_max (alpha * double_of_Z vI / double_of_Z vB) 0) 1 * 255)%float.

Definition normalize_image (alpha : float) (img bg : Image) (h w : nat)
    : option Image :=
  match img, bg with
  | Color i, Color b =>
      option_map Color
        (for_pixels h w (fun y x st =>
           match st with
           | None => None
           | Some i =>
               let cI := mat_at i y x in
               let cB := mat_at b y x in
               match normalize_sample alpha cI.1.1 cB.1.1,
                     normalize_sample alpha cI.1.2 cB.1.2,
                     normalize_sample alpha cI.2 cB.2 with
               | Some c0, Some c1, Some c2 => Some (mat_set i y x (c0, c1, c2))
               | _, _, _ => None
               end
           end) (Some i))
  | Gray i, Gray b =>
      option_map Gray
        (for_pixels h w (fun y x st =>
           match st with
           | None => None
           | Some i =>
               match normalize_sample alpha (mat_at i y x) (mat_at b y x) with
               | Some vR => Some (mat_set i y x vR)
               | None => None
               end
           end) (Some i))
  | _, _ => None
  end.

(** [min(max((c - Emin) * Escale, 0.0), 255.0)] as an [unsigned char]. *)
Definition stretch_sample (Emin Escale : float) (c : Z) : option Z :=
  uchar_of_double
    (std_min (std_max ((double_of_Z c - Emin) * Escale) 0) 255)%float.

Definition adjust_brightness (img : Image) (h w : nat) : option Image :=
  let tmp := match img with Color i => cvtColor i | Gray i => i end in
  match data tmp with
  | [] => None
  | p :: l =>
      let Emin := double_of_Z (fold_left Z.min l p) in
      let Emax := double_of_Z (fold_left Z.max l p) in
      if (Emin <? Emax)%float then
        let Escale := (255 / (Emax - Emin))%float in
        match img with
        | Color i =>
            option_map Color
              (for_pixels h w (fun y x st =>
                 match st with
                 | None => None
                 | Some i =>
                     let cI := mat_at i y x in
                     match stretch_sample Emin Escale cI.1.1,
                           stretch_sample Emin Escale cI.1.2,
                           stretch_sample Emin Escale cI.2 with
                     | Some c0, Some c1, Some c2 =>
                         Some (mat_set i y x (c0, c1, c2))
                     | _, _, _ => None
                     end
                 end) (Some i))
        | Gray i =>
            option_map Gray
              (for_pixels h w (fun y x st =>
                 match st with
                 | None => None
                 | Some i =>
                     match uchar_of_double
                             ((double_of_Z (mat_at i y x) - Emin) * Escale)%float with
                     | Some vR => Some (mat_set i y x vR)
                     | None => None
                     end
                 end) (Some i))
        end
      else Some img
  end.

(** [main], from the loaded image [img] on: the exit status and the
    image handed to [imwrite].  [None]: the run has no defined result
    (an OpenCV exception or undefined behaviour). *)
Definition main (cfg : Config) (img : Image) : option (Z * Image) :=
  match
    (if inputAsGrayscale cfg then
       match img with
       | Color i => Some (Gray (cvtColor i))
       | Gray _ => None
       end
     else Some img)
  with
  | None => None
  | Some img =>
      let w := image_cols img in
      let h := image_rows img in
      let tmp2 := match img with Color i => cvtColor i | Gray i => i end in
      match binarizeUsingSauvola (mkMat 0 0 []) tmp2 (integralWindowSize cfg)
              (kParam cfg) (rScale cfg) with
      | None => None
      | Some (false, _) =>
          (* the flag is not tested: [tmp] stays empty and is then
             read out of its range *)
          None
      | Some (true, tmp) =>
          let tmp := maskInvert tmp in
          let tmp := maskInset tmp (maskDenoiseDistance1 cfg) in
          let tmp := maskInvert tmp in
          let tmp := maskInset tmp (maskDenoiseDistance2 cfg) in
          let tmp := maskInvert tmp in
          match fastInpaint img tmp (inpaintInitMode cfg) (inpaintIterations cfg) with
          | None => None
          | Some (_, bg) =>
              let bg := if negb (backgroundBlur cfg =? 1)
                        then GaussianBlur bg (backgroundBlur cfg) else bg in
              match
                (match programMode cfg with
                 | OUT_NORMALIZED_IMAGE =>
                     normalize_image (backgroundAlpha cfg) img bg h w
                 | OUT_BACKGROUND => Some bg
                 end)
              with
              | None => None
              | Some img =>
                  match
                    (if adjustBrightness cfg then adjust_brightness img h w
                     else Some img)
                  with
                  | None => None
                  | Some img => Some (0%Z, img)
                  end
              end
          end
      end
  end.
End Main.
End IsolateBg.

(** ** Reference quantities of the statements *)

(** [f 0 + ... + f (n - 1)] *)
Fixpoint sum_upto (n : nat) (f : nat -> Z) : Z :=
  match n with
  | O => 0%Z
  | S n' => (sum_upto n' f + f n')%Z
  end.

(** The sum of [P] over the [n] by [n] block whose first sample is
    [(y0, x0)]. *)
Definition window_sum (P : nat -> nat -> Z) (y0 x0 n : nat) : Z :=
  sum_upto n (fun j => sum_upto n (fun i => P (y0 + j) (x0 + i))).

(** The sum of [P] over the rows [0..y] and the columns [0..x]. *)
Definition prefix_sum (P : nat -> nat -> Z) (y x : nat) : Z :=
  sum_upto (S y) (fun j => sum_upto (S x) (P j)).

(** The padded image of one window size. *)
Definition padded (img : Mat Z) (wsize : nat) : Mat Z :=
  copyMakeBorder img (win_n wsize) (win_p wsize) (win_n wsize) (win_p wsize).

(** The sums of the samples, and of their squares, over the window of
    pixel [(y, x)], added up one by one. *)
Definition direct_total1 (img : Mat Z) (wsize y x : nat) : Z :=
  window_sum (mat_at (padded img wsize)) (y + 1) (x + 1) wsize.
Definition direct_total2 (img : Mat Z) (wsize y x : nat) : Z :=
  window_sum (fun j i => (mat_at (padded img wsize) j i * mat_at (padded img wsize) j i)%Z)
             (y + 1) (x + 1) wsize.

(** The mean and the standard deviation of the window of a pixel, from
    the sums added up one by one. *)
Definition windowed_mean (img : Mat Z) (wsize y x : nat) : float :=
  window_mean (direct_total1 img wsize y x) wsize.
Definition windowed_stddev (img : Mat Z) (wsize y x : nat) : float :=
  window_stddev (direct_total1 img wsize y x) (direct_total2 img wsize y x) wsize.

(** The sample of [dst] at a pixel, from the sums added up one by one
    and the intensity of the pixel. *)
Definition pixel_sample (cfg : Config) (img : Mat Z) (wsize y x : nat) : option Z :=
  dst_sample cfg wsize (direct_total1 img wsize y x) (direct_total2 img wsize y x)
             (mat_at img y x).

(** The same for [binarizeUsingSauvola] of isolate-bg. *)
Definition isolate_pixel_sample (kParam rScale : float) (img : Mat Z)
    (wsize y x : nat) : option Z :=
  IsolateBg.dst_sample wsize kParam (rScale * (255 * 0.5))%float
    (direct_total1 img wsize y x) (direct_total2 img wsize y x) (mat_at img y x).

(** A run writes, at each pixel, the sample that [sample] makes of the
    threshold [thr] of the pixel and of its intensity: it returns such
    an image when every threshold is defined, and is undefined when one
    is not. *)
Definition output_of (sample : Z -> Z -> Z) (thr : nat -> nat -> option Z)
    (img : Mat Z) (returns : Mat Z -> Prop) (undefined : Prop) : Prop :=
  ((forall y x, y < rows img -> x < cols img -> is_Some (thr y x)) ->
   exists dst, returns dst
     /\ rows dst = rows img /\ cols dst = cols img
     /\ forall y x, y < rows img -> x < cols img ->
          exists t, thr y x = Some t /\ mat_at dst y x = sample t (mat_at img y x))
  /\ (forall y x, y < rows img -> x < cols img -> thr y x = None -> undefined).

(** The threshold of a pixel as an [int], in binarize-sauvola and in
    isolate-bg. *)
Definition pixel_threshold (cfg : Config) (img : Mat Z) (y x : nat) : option Z :=
  int_of_double
    (threshold_double cfg (windowed_mean img (windowSize cfg) y x)
                          (windowed_stddev img (windowSize cfg) y x)).

Definition isolate_pixel_threshold (kParam rScale : float) (img : Mat Z)
    (wsize y x : nat) : option Z :=
  int_of_double
    (IsolateBg.threshold_double kParam (rScale * (255 * 0.5))%float
       (windowed_mean img wsize y x) (windowed_stddev img wsize y x)).

(** [center > threshold ? 255 : 0] *)
Definition binary_sample (threshold center : Z) : Z :=
  if (threshold <? center)%Z then 255%Z else 0%Z.

(** The Binary policy as the specification words it: the threshold is
    compared as it is computed, without a conversion to [int]. *)
Definition claimed_binary_sample (cfg : Config) (img : Mat Z) (y x : nat) : Z :=
  if (threshold_double cfg (windowed_mean img (windowSize cfg) y x)
                           (windowed_stddev img (windowSize cfg) y x)
      <? double_of_Z (mat_at img y x))%float
  then 255%Z else 0%Z.


(** An image of [unsigned char] samples. *)
Definition is_8bit (img : Mat Z) : Prop :=
  Forall (fun v => (0 <= v <= 255)%Z) (data img).

(** Images of [unsigned char] samples, well-formed images, and pixels
    that hold the same value in two images. *)
Definition is_8bit_C3 (m : Mat Vec3b) : Prop :=
  Forall (fun c : Vec3b =>
            (0 <= c.1.1 <= 255)%Z /\ (0 <= c.1.2 <= 255)%Z /\ (0 <= c.2 <= 255)%Z)
         (data m).

Definition image_wf (img : Image) : Prop :=
  match img with Gray m => mat_wf m | Color m => mat_wf m end.

Definition image_8bit (img : Image) : Prop :=
  match img with Gray m => is_8bit m | Color m => is_8bit_C3 m end.

Definition pixel_8bit (img : Image) (y x : nat) : Prop :=
  match img with
  | Gray m => (0 <= mat_at m y x <= 255)%Z
  | Color m =>
      let c := mat_at m y x in
      (0 <= c.1.1 <= 255)%Z /\ (0 <= c.1.2 <= 255)%Z /\ (0 <= c.2 <= 255)%Z
  end.

Definition same_pixel (a b : Image) (y x : nat) : Prop :=
  match a, b with
  | Gray m, Gray n => mat_at m y x = mat_at n y x
  | Color m, Color n => mat_at m y x = mat_at n y x
  | _, _ => False
  end.

(** The cells of a buffer before [(y, x)], in the order in which they
    are written, hold [F]. *)
Definition filled (pw : nat) (F : nat -> nat -> Z) (y x : nat) (b : list Z) : Prop :=
  forall j i, i < pw -> j < y \/ (j = y /\ i < x) -> b !! (pw * j + i) = Some (F j i).

(** What a loop keeps that writes only masked pixels. *)
Definition kept {T : Type} `{!Inhabited T} (mask : Mat Z) (m0 m : Mat T) : Prop :=
  rows m = rows m0 /\ cols m = cols m0 /\ (mat_wf m0 -> mat_wf m)
  /\ forall y x, x < cols m0 -> masked mask y x = false ->
       mat_at m y x = mat_at m0 y x.

(** The image-level form of [kept]. *)
Definition image_kept (mask : Mat Z) (src dst : Image) : Prop :=
  match src, dst with
  | Gray s, Gray d => kept mask s d
  | Color s, Color d => kept mask s d
  | _, _ => False
  end.

(** ** Stand-ins for OpenCV in the examples *)

(** The distance of every pixel to the nearest zero pixel, by
    exhaustive search; infinite when the image has no zero pixel. *)
Definition ref_distanceTransform (img : Mat Z) (type : DistanceType) : Mat float :=
  mat_tabulate (rows img) (cols img) (fun y x =>
    for_pixels (rows img) (cols img)
      (fun y' x' (best : float) =>
         if (mat_at img y' x' =? 0)%Z then
           let dy := (Z.of_nat y - Z.of_nat y')%Z in
           let dx := (Z.of_nat x - Z.of_nat x')%Z in
           std_min best
             match type with
             | CV_DIST_L1 => double_of_Z (Z.abs dx + Z.abs dy)
             | CV_DIST_L2 => sqrt (double_of_Z (dx * dx + dy * dy))
             end
         else best)
      infinity).

(** The 3 by 3 kernel of [fastInpaint] applied with a replicated border. *)
Definition ref_filter2D (m : Mat float) : Mat float :=
  let a := 0.073235%float in
  let b := 0.176765%float in
  let px (y x : Z) : float :=
    mat_at m (Z.to_nat (Z.max 0 (Z.min (Z.of_nat (rows m) - 1) y)))
             (Z.to_nat (Z.max 0 (Z.min (Z.of_nat (cols m) - 1) x))) in
  mat_tabulate (rows m) (cols m) (fun y x =>
    let y := Z.of_nat y in
    let x := Z.of_nat x in
    (a * px (y - 1)%Z (x - 1)%Z + b * px (y - 1)%Z x + a * px (y - 1)%Z (x + 1)%Z
     + b * px y (x - 1)%Z + b * px y (x + 1)%Z
     + a * px (y + 1)%Z (x - 1)%Z + b * px (y + 1)%Z x
     + a * px (y + 1)%Z (x + 1)%Z)%float).

Definition ref_filter2D_C3 (m : Mat Vec3f) : Mat Vec3f :=
  let c0 := ref_filter2D (mat_map (fun c : Vec3f => c.1.1) m) in
  let c1 := ref_filter2D (mat_map (fun c : Vec3f => c.1.2) m) in
  let c2 := ref_filter2D (mat_map (fun c : Vec3f => c.2) m) in
  mat_tabulate (rows m) (cols m)
    (fun y x => (mat_at c0 y x, mat_at c1 y x, mat_at c2 y x)).

(** ** Inputs of the scenarios *)

Definition uniform (h w : nat) (v : Z) : Mat Z := mat_new h w v.

(** The options of binarize-sauvola: the given mode, window size, K,
    R-scale, threshold scale and bias, as the option loop leaves them. *)
Definition options_of (mode : ProgramMode) (wsize : nat) (k r t b : float) : Config :=
  mkConfig mode wsize k r t b [].

(** The same after the end of [argparse], for the modes of one window
    size. *)
Definition config_of (mode : ProgramMode) (wsize : nat) (k r t b : float) : Config :=
  mkConfig mode wsize k r t b [wsize].

Definition image_C1 : Mat Z := mkMat 2 2 [10; 20; 30; 40]%Z.

(** A pixel of intensity 0 whose threshold lies between -1 and 0: the
    image [0 1] with a window of 2 and [K = 2]. *)
Definition image_C1x : Mat Z := mkMat 1 2 [0; 1]%Z.

Definition mask_C10 : Mat Z := mkMat 2 3 [0; 7; 200; 255; 1; 128]%Z.

Definition image_C9 : Image := Gray (mkMat 2 2 [10; 20; 30; 40]%Z).
Definition mask_C9 : Mat Z := mkMat 2 2 [0; 255; 7; 0]%Z.

(** The options of isolate-bg by default, with the given output mode,
    window size, initialization mode and blur size. *)
Definition isolate_config (mode : IsolateBg.ProgramMode) (wsize : nat)
    (initMode : IsolateBg.InpaintInitMode) (blur : nat) : IsolateBg.Config :=
  IsolateBg.mkConfig mode false false wsize 0.4 1 initMode 16 1 5 blur 0.9.

(** The mask that [main] hands to [fastInpaint], for a window of 1 and
    the default parameters. *)
Definition refined_mask (img : Mat Z) : option (Mat Z) :=
  match IsolateBg.binarizeUsingSauvola (mkMat 0 0 []) img 1 0.4 1 with
  | Some (true, tmp) =>
      let tmp := IsolateBg.maskInvert tmp in
      let tmp := IsolateBg.maskInset ref_distanceTransform tmp 1 in
      let tmp := IsolateBg.maskInvert tmp in
      let tmp := IsolateBg.maskInset ref_distanceTransform tmp 5 in
      Some (IsolateBg.maskInvert tmp)
  | _ => None
  end.

(** ** binarize-sauvola: the option [-X] *)

(** [arg.find_first_of(c, p0)]; [None] is [npos]. *)
Fixpoint find_first_of (arg : String.string) (c : ascii) (p0 : nat) : option nat :=
  match arg with
  | String.EmptyString => None
  | String.String a rest =>
      match p0 with
      | 0 => if Ascii.eqb a c then Some 0 else option_map S (find_first_of rest c 0)
      | S p => option_map S (find_first_of rest c p)
      end
  end.

Section OptionX.
(** [argparse_int("-X", token)]: the [int] that [std::stoi] reads from
    the whole token; [None] when it throws [argparse_error]. *)
Variable argparse_int : String.string -> option Z.

(** The [do ... while (p1 < arg.size())] loop of the case ['X'] of
    [argparse], from the position [p0] on.  The inner [None] is an
    [argparse_error]; the outer one is a loop that has not ended after
    [fuel] turns. *)
Fixpoint option_X_loop (fuel : nat) (arg : String.string) (p0 : nat)
    (multiWindowSize : list nat) : option (option (list nat)) :=
  match fuel with
  | O => None
  | S fuel' =>
      if 3 <=? length multiWindowSize then Some None
      else
        let p1 :=
          match find_first_of arg "," p0 with
          | Some p => Nat.min p (String.length arg)
          | None => String.length arg
          end in
        let token := String.substring p0 (p1 - p0) arg in
        match argparse_int token with
        | None => Some None
        | Some wsize =>
            if (wsize <? 1)%Z then Some None
            else if (windowSizeLimit <? wsize)%Z then Some None
            else
              let multiWindowSize := multiWindowSize ++ [Z.to_nat wsize] in
              let p0 := p1 + 1 in
              if p1 <? String.length arg
              then option_X_loop fuel' arg p0 multiWindowSize
              else Some (Some multiWindowSize)
        end
  end.

(** The list of window sizes that the case ['X'], which also sets
    [programMode], leaves: [multiWindowSize.clear()], then the loop from
    the start of the argument. *)
Definition option_X (fuel : nat) (arg : String.string) : option (option (list nat)) :=
  option_X_loop fuel arg 0 [].
End OptionX.

(** ** isolate-bg: the mask of [main] *)

(** The chain of mask commands of [main] of isolate-bg, on the result
    of [binarizeUsingSauvola]. *)
Definition refine_mask (distanceTransform : Mat Z -> DistanceType -> Mat float)
    (tmp : Mat Z) (d1 d2 : float) : Mat Z :=
  let tmp := IsolateBg.maskInvert tmp in
  let tmp := IsolateBg.maskInset distanceTransform tmp d1 in
  let tmp := IsolateBg.maskInvert tmp in
  let tmp := IsolateBg.maskInset distanceTransform tmp d2 in
  IsolateBg.maskInvert tmp.

(** ** Reference quantities of the further statements *)

(** The pixel [(y', x')] is visited before the pixel [(y, x)] by the
    loops over the rows and, in a row, over the columns. *)
Definition before (y x y' x' : nat) : Prop := y' < y \/ (y' = y /\ x' < x).

(** A mask whose samples are 0 or 255. *)
Definition binary_mask (m : Mat Z) : Prop :=
  forall y x, y < rows m -> x < cols m -> mat_at m y x = 0%Z \/ mat_at m y x = 255%Z.

(** [c[ch]] for a [Vec3b]. *)
Definition nth_channel (c : Vec3b) (ch : nat) : Z :=
  match ch with
  | 0 => c.1.1
  | 1 => c.1.2
  | _ => c.2
  end.

(** The pixel of the pixel information output: the windowed mean, twice
    the windowed standard deviation and the negated intensity, when the
    two conversions to [unsigned char] and the conversion of the
    threshold to [int], which the loop also performs, are defined. *)
Definition pixelinfo_pixel (cfg : Config) (img : Mat Z) (y x : nat) : option Vec3b :=
  match uchar_of_double (windowed_mean img (windowSize cfg) y x),
        uchar_of_double (windowed_stddev img (windowSize cfg) y x * 2)%float,
        pixel_threshold cfg img y x with
  | Some m, Some d, Some _ => Some (m, d, (255 - mat_at img y x)%Z)
  | _, _, _ => None
  end.

(** The tokens of a list separated by commas. *)
Fixpoint comma_tokens (s : String.string) : list String.string :=
  match s with
  | String.EmptyString => [String.EmptyString]
  | String.String a rest =>
      if Ascii.eqb a "," then String.EmptyString :: comma_tokens rest
      else match comma_tokens rest with
           | t :: ts => String.String a t :: ts
           | [] => [String.String a String.EmptyString]
           end
  end.

Section WindowSizes.
Variable argparse_int : String.string -> option Z.

(** The window size that a token denotes: the integer that
    [argparse_int] reads from it, when it lies between 1 and
    [windowSizeLimit]. *)
Definition window_size_of (token : String.string) : option nat :=
  match argparse_int token with
  | Some wsize =>
      if (wsize <? 1)%Z then None
      else if (windowSizeLimit <? wsize)%Z then None
      else Some (Z.to_nat wsize)
  | None => None
  end.

(** The window sizes that the tokens denote, when each of them denotes
    one. *)
Fixpoint window_sizes_of (tokens : list String.string) : option (list nat) :=
  match tokens with
  | [] => Some []
  | token :: tokens =>
      match window_size_of token, window_sizes_of tokens with
      | Some wsize, Some l => Some (wsize :: l)
      | _, _ => None
      end
  end.
End WindowSizes.

(** The sum of [f] over the pixels of the [h] by [w] image at which the
    mask is zero, and the number of these pixels. *)
Definition unmasked_total (f : nat -> nat -> Z) (mask : Mat Z) (h w : nat) : Z :=
  sum_upto h (fun y =>
    sum_upto w (fun x => if masked mask y x then 0%Z else f y x)).

Definition unmasked_count (mask : Mat Z) (h w : nat) : Z :=
  unmasked_total (fun _ _ => 1%Z) mask h w.

(** The mean of [f] over the unmasked pixels, rounded down. *)
Definition unmasked_mean (f : nat -> nat -> Z) (mask : Mat Z) (h w : nat) : Z :=
  (unmasked_total f mask h w / unmasked_count mask h w)%Z.

(** The pixel [(y, x)] of [dst] holds the mean of the unmasked pixels of
    [src], channel by channel. *)
Definition holds_mean (src dst : Image) (mask : Mat Z) (y x : nat) : Prop :=
  match src, dst with
  | Gray s, Gray d =>
      mat_at d y x = unmasked_mean (mat_at s) mask (rows s) (cols s)
  | Color s, Color d =>
      mat_at d y x
      = (unmasked_mean (fun y x => (mat_at s y x).1.1) mask (rows s) (cols s),
         unmasked_mean (fun y x => (mat_at s y x).1.2) mask (rows s) (cols s),
         unmasked_mean (fun y x => (mat_at s y x).2) mask (rows s) (cols s))
  | _, _ => False
  end.

(** The L1 distance between the pixels [(y, x)] and [(Y, X)]. *)
Definition l1_distance (y x Y X : nat) : Z :=
  (Z.abs (Z.of_nat X - Z.of_nat x) + Z.abs (Z.of_nat Y - Z.of_nat y))%Z.

(** [(Y, X)] is a pixel of the image at which the mask is zero, and no
    such pixel is nearer to [(y, x)] in the L1 distance. *)
Definition nearest_unmasked (mask : Mat Z) (h w y x Y X : nat) : Prop :=
  Y < h /\ X < w /\ masked mask Y X = false
  /\ forall Y' X', Y' < h -> X' < w -> masked mask Y' X' = false ->
       (l1_distance y x Y X <= l1_distance y x Y' X')%Z.

(** A sample is 0 in the image and in the background at the pixel
    [(y, x)]. *)
Definition black_on_black (img bg : Image) (y x : nat) : Prop :=
  match img, bg with
  | Gray i, Gray b => mat_at i y x = 0%Z /\ mat_at b y x = 0%Z
  | Color i, Color b =>
      let cI := mat_at i y x in
      let cB := mat_at b y x in
      (cI.1.1 = 0%Z /\ cB.1.1 = 0%Z) \/ (cI.1.2 = 0%Z /\ cB.1.2 = 0%Z)
      \/ (cI.2 = 0%Z /\ cB.2 = 0%Z)
  | _, _ => False
  end.

(** ** Further stand-ins and inputs *)

(** [cvtColor(img, tmp, CV_BGR2GRAY)] on [unsigned char] samples, with
    the weights of OpenCV in fixed point. *)
Definition ref_cvtColor (m : Mat Vec3b) : Mat Z :=
  mat_map (fun c : Vec3b =>
             Z.shiftr (c.2 * 4899 + c.1.2 * 9617 + c.1.1 * 1868 + 8192) 14) m.

(** A mask with a nonzero sample in its interior only. *)
Definition mask_island : Mat Z := mkMat 3 3 [0; 0; 0; 0; 255; 0; 0; 0; 0]%Z.

(** The options [-X 3,5] of binarize-sauvola, as the option loop leaves
    them with the other options at their defaults. *)
Definition options_X_3_5 : Config := mkConfig OUT_VARIABLE_MULTIW 60 0.4 1 1 0 [3; 5].

(** The options [-X 1,2,3] after the end of [argparse]. *)
Definition config_X_1_2_3 : Config := mkConfig OUT_VARIABLE_MULTIW 3 0.4 1 1 0 [1; 2; 3].

(** A color image and a mask of two masked pixels. *)
Definition image_color : Image :=
  Color (mkMat 2 2 [(10, 20, 30); (40, 50, 60); (70, 80, 90); (100, 110, 121)]%Z).
Definition mask_two : Mat Z := mkMat 2 2 [0; 255; 1; 0]%Z.

(** ** The padding as the specification words it *)

(** [ceil (w / 2)] replicated rows and columns on the leading edge,
    [floor (w / 2)] on the trailing edge. *)
Definition claimed_leading (wsize : nat) : nat := (wsize + 1) / 2.
Definition claimed_trailing (wsize : nat) : nat := wsize / 2.

(** The image extended by the replication of its edge samples. *)
Definition claimed_padded (img : Mat Z) (wsize : nat) : Mat Z :=
  mat_tabulate (claimed_leading wsize + rows img + claimed_trailing wsize)
               (claimed_leading wsize + cols img + claimed_trailing wsize)
    (fun Y X => mat_at img (Nat.min (Y - claimed_leading wsize) (rows img - 1))
                           (Nat.min (X - claimed_leading wsize) (cols img - 1))).

(** The totals of a pixel: the sums, in [uint_least64_t], of the samples
    and of their squares over [wsize] rows and [wsize] columns of the
    extended image, the rows from [y + 1] and the columns from [x + 1]
    on. *)
Definition claimed_total1 (img : Mat Z) (wsize y x : nat) : Z :=
  wrap64 (window_sum (mat_at (claimed_padded img wsize)) (y + 1) (x + 1) wsize).
Definition claimed_total2 (img : Mat Z) (wsize y x : nat) : Z :=
  wrap64 (window_sum (fun j i => (mat_at (claimed_padded img wsize) j i
                                  * mat_at (claimed_padded img wsize) j i)%Z)
                     (y + 1) (x + 1) wsize).

(** The pass of one window size over these totals and the intensity of
    the pixel. *)
Definition claimed_window_pass (cfg : Config) (img : Mat Z) (realdst : Mat Vec3b)
    (wsize : nat) : option (Mat Z * Mat Vec3b) :=
  for_pixels (rows img) (cols img) (fun y x st =>
    match st with
    | None => None
    | Some (dst, realdst) =>
        let total1 := claimed_total1 img wsize y x in
        let total2 := claimed_total2 img wsize y x in
        let center := mat_at img y x in
        let realdst' :=
          if ProgramMode_eqb (programMode cfg) OUT_PIXELINFO
          then match pixelinfo_sample wsize total1 total2 center with
               | Some c => Some (mat_set realdst y x c)
               | None => None
               end
          else Some realdst in
        match realdst', dst_sample cfg wsize total1 total2 center with
        | Some realdst', Some v => Some (mat_set dst y x v, realdst')
        | _, _ => None
        end
    end) (Some (mat_new (rows img) (cols img) 0%Z, realdst)).

(** The same for [binarizeUsingSauvola] of isolate-bg. *)
Definition claimed_binarizeUsingSauvola (dst src : Mat Z) (wsize : nat)
    (kParam rScale : float) : option (bool * Mat Z) :=
  if (cols src =? 0) || (rows src =? 0)
     || negb (pad_size_ok (cols src) (rows src) wsize)
  then Some (false, dst)
  else
    match
      for_pixels (rows src) (cols src) (fun y x st =>
        match st with
        | None => None
        | Some dst =>
            match IsolateBg.dst_sample wsize kParam (rScale * (255 * 0.5))%float
                    (claimed_total1 src wsize y x) (claimed_total2 src wsize y x)
                    (mat_at src y x) with
            | Some v => Some (mat_set dst y x v)
            | None => None
            end
        end) (Some (mat_new (rows src) (cols src) 0%Z))
    with
    | Some dst => Some (true, dst)
    | None => None
    end.

(** ** binarize-sauvola: the prescale of [main] *)

(** The case ['S'] of the option loop of [argparse], on the value that
    [argparse_double] reads.  [None]: an [argparse_error]. *)
Definition option_S (value : float) : option float :=
  if (value <=? 0)%float then None else Some value.

Section Prescale.

(** The samples of [resize(img, img, Size(nw, nh), 0, 0, INTER_LANCZOS4)],
    a matrix of [nh] rows and [nw] columns: [resize img nw nh y x]. *)
Variable resize : Mat Z -> nat -> nat -> nat -> nat -> Z.

(** The block [if (preScale != 1.0)] of [main]: the image that goes on,
    or the exit with status 1.  [None]: a conversion to [int] is
    undefined, or [resize] is asked for a size that is not positive
    (which it never is for a prescale that [option_S] accepts). *)
Definition prescale (preScale : float) (img : Mat Z) : option (Exit (Mat Z)) :=
  let w := Z.of_nat (cols img) in
  let h := Z.of_nat (rows img) in
  if (preScale =? 1)%float then Some (Exit0 img)
  else if (double_of_Z INT_MAX <=? preScale * double_of_Z h + 1)%float
          || (double_of_Z INT_MAX <=? preScale * double_of_Z w + 1)%float
  then Some Exit1
  else
    match int_of_double (preScale * double_of_Z w),
          int_of_double (preScale * double_of_Z h) with
    | Some nw, Some nh =>
        if ((nw =? 0) || (nh =? 0))%Z then Some Exit1
        else if (Z.quot INT_MAX nw <? nh)%Z then Some Exit1
        else if negb (w =? nw)%Z || negb (h =? nh)%Z then
          if ((0 <? nw) && (0 <? nh))%Z
          then Some (Exit0 (mat_tabulate (Z.to_nat nh) (Z.to_nat nw)
                              (resize img (Z.to_nat nw) (Z.to_nat nh))))
          else None
        else Some (Exit0 img)
    | _, _ => None
    end.

(** [main] of binarize-sauvola from the loaded image on, with the
    prescale of the option [-S]. *)
Definition binarize_sauvola_prescaled (preScale : float) (cfg : Config)
    (img : Mat Z) : option (Exit Image) :=
  if (cols img =? 0) || (rows img =? 0) then Some Exit1
  else
    match prescale preScale img with
    | Some (Exit0 img) => binarize_sauvola cfg img
    | Some Exit1 => Some Exit1
    | None => None
    end.

End Prescale.

(** A stand-in for the samples of [resize]: the nearest sample. *)
Definition ref_resize (img : Mat Z) (nw nh y x : nat) : Z :=
  mat_at img (y * rows img / nh) (x * cols img / nw).

(** A float that is not negative: a zero, a positive number, the
    positive infinity, or NaN. *)
Definition SF_nonneg (x : spec_float) : Prop :=
  match x with
  | S754_finite true _ _ | S754_infinity true => False
  | _ => True
  end.

(** * Properties *)

(** ** Loops *)

Lemma for_loop_ind {St : Type} (P : nat -> St -> Prop) (n : nat)
    (body : nat -> St -> St) (s : St) :
  P 0 s ->
  (forall i s, i < n -> P i s -> P (S i) (body i s)) ->
  P n (for_loop n body s).
Proof.
  intros H0 Hstep. induction n as [|n IH]; simpl; [exact H0|].
  apply Hstep; [lia|]. apply IH. intros i s' Hi. apply Hstep. lia.
Qed.

(** A loop over the pixels that establishes [Q y x] at its turn [(y, x)]
    and does not disturb it afterwards establishes it everywhere. *)
Lemma for_pixels_rule {St : Type} (h w : nat) (body : nat -> nat -> St -> St)
    (P : St -> Prop) (Q : nat -> nat -> St -> Prop) (s : St) :
  P s ->
  (forall y x s, y < h -> x < w -> P s ->
     P (body y x s) /\ Q y x (body y x s)) ->
  (forall y x y' x' s, y < h -> x < w -> y' < h -> x' < w ->
     (y', x') <> (y, x) -> P s -> Q y' x' s -> Q y' x' (body y x s)) ->
  P (for_pixels h w body s)
  /\ forall y x, y < h -> x < w -> Q y x (for_pixels h w body s).
Proof.
  intros Hs Hstep Hstable. unfold for_pixels.
  apply (for_loop_ind
           (fun k s => P s /\ forall y x, y < k -> x < w -> Q y x s)).
  - split; [exact Hs|]. intros; lia.
  - intros y s0 Hy [HP HQ].
    pose (Pin := fun (j : nat) (s1 : St) =>
                   P s1
                   /\ (forall y' x', y' < y -> x' < w -> Q y' x' s1)
                   /\ (forall x', x' < j -> Q y x' s1)).
    assert (Hin : Pin w (for_loop w (fun x s1 => body y x s1) s0)).
    { apply (for_loop_ind Pin).
      - repeat split; [exact HP|exact HQ|intros; lia].
      - intros x s1 Hx (HP1 & HQ1 & HQ2).
        destruct (Hstep y x s1 Hy Hx HP1) as [HP' HQ'].
        repeat split; [exact HP'| |].
        + intros y' x' Hy' Hx'. apply Hstable; try lia; auto.
          intros [= -> ->]. lia.
        + intros x' Hx'. destruct (decide (x' = x)) as [->|Hne]; [exact HQ'|].
          apply Hstable; try lia; auto.
          * intros [= ->]. congruence.
          * apply HQ2. lia. }
    destruct Hin as (HP1 & HQ1 & HQ2). split; [exact HP1|].
    intros y' x' Hy' Hx'. destruct (decide (y' = y)) as [->|Hne].
    + apply HQ2, Hx'.
    + apply HQ1; [lia|exact Hx'].
Qed.

(** A loop over the pixels preserves an invariant of its body. *)
Lemma for_pixels_inv {St : Type} (h w : nat) (body : nat -> nat -> St -> St)
    (P : St -> Prop) (s : St) :
  P s ->
  (forall y x s, y < h -> x < w -> P s -> P (body y x s)) ->
  P (for_pixels h w body s).
Proof.
  intros Hs Hstep.
  apply (for_pixels_rule h w body P (fun _ _ _ => True) s); auto.
Qed.

(** A failure at one pixel is the result of the whole loop. *)
Lemma for_pixels_None {A : Type} (h w : nat)
    (body : nat -> nat -> option A -> option A) (y0 x0 : nat) (s : option A) :
  (forall y x, body y x None = None) ->
  (forall s, body y0 x0 s = None) ->
  y0 < h -> x0 < w ->
  for_pixels h w body s = None.
Proof.
  intros Habs Hfail Hy Hx.
  destruct (for_pixels_rule h w body (fun _ => True)
              (fun y x s => (y, x) = (y0, x0) -> s = None) s I) as [_ H].
  - intros y x s0 _ _ _. split; [exact I|]. intros [= -> ->]. apply Hfail.
  - intros y x y' x' s0 _ _ _ _ _ _ HQ Heq. rewrite (HQ Heq). apply Habs.
  - apply (H y0 x0 Hy Hx). reflexivity.
Qed.

(** ** Matrices *)

Lemma flat_index_inj (c y x y' x' : nat) :
  x < c -> x' < c -> y * c + x = y' * c + x' -> y = y' /\ x = x'.
Proof.
  intros Hx Hx' Heq.
  assert (y = y') as ->; [|lia].
  destruct (Nat.lt_trichotomy y y') as [Hlt | [Heq' | Hgt]]; [|exact Heq'|]; nia.
Qed.

Lemma flat_index_lt (r c y x : nat) : y < r -> x < c -> y * c + x < r * c.
Proof. intros Hy Hx. nia. Qed.

Section MatLemmas.
Context {T : Type} `{!Inhabited T}.
Implicit Types m : Mat T.

Lemma mat_set_wf m y x v : mat_wf m -> mat_wf (mat_set m y x v).
Proof. unfold mat_wf, mat_set. simpl. rewrite length_insert. auto. Qed.

Lemma mat_at_set_eq m y x v :
  mat_wf m -> y < rows m -> x < cols m -> mat_at (mat_set m y x v) y x = v.
Proof.
  unfold mat_wf, mat_at, mat_set. simpl. intros Hwf Hy Hx.
  apply list_lookup_total_insert_eq. rewrite Hwf. apply flat_index_lt; auto.
Qed.

Lemma mat_at_set_ne m y x v y' x' :
  x < cols m -> x' < cols m -> (y', x') <> (y, x) ->
  mat_at (mat_set m y x v) y' x' = mat_at m y' x'.
Proof.
  unfold mat_at, mat_set. simpl. intros Hx Hx' Hne.
  apply list_lookup_total_insert_ne. intros Heq.
  destruct (flat_index_inj _ _ _ _ _ Hx Hx' Heq) as [-> ->]. congruence.
Qed.

Lemma mat_new_wf h w (v : T) : mat_wf (mat_new h w v).
Proof. unfold mat_wf, mat_new. simpl. apply length_replicate. Qed.

Lemma tabulate_lookup (f : nat -> nat -> T) w h s y x :
  y < h -> x < w ->
  flat_map (fun y => map (f y) (seq 0 w)) (seq s h) !! (y * w + x)
  = Some (f (s + y) x).
Proof.
  revert s y. induction h as [|h IH]; intros s y Hy Hx; [lia|].
  simpl. destruct y as [|y].
  - rewrite lookup_app_l by (rewrite length_map, length_seq; lia).
    rewrite list_lookup_fmap, lookup_seq_lt by lia. simpl.
    do 2 f_equal; lia.
  - rewrite lookup_app_r by (rewrite length_map, length_seq; lia).
    rewrite length_map, length_seq.
    replace (S y * w + x - w) with (y * w + x) by lia.
    rewrite IH by lia. do 2 f_equal; lia.
Qed.

Lemma tabulate_length (f : nat -> nat -> T) w h s :
  length (flat_map (fun y => map (f y) (seq 0 w)) (seq s h)) = h * w.
Proof.
  revert s. induction h as [|h IH]; intros s; simpl; [reflexivity|].
  rewrite length_app, length_map, length_seq, IH. reflexivity.
Qed.

Lemma mat_at_tabulate h w (f : nat -> nat -> T) y x :
  y < h -> x < w -> mat_at (mat_tabulate h w f) y x = f y x.
Proof.
  intros Hy Hx. unfold mat_at, mat_tabulate. simpl.
  apply list_lookup_total_correct. rewrite tabulate_lookup by auto. reflexivity.
Qed.

Lemma mat_at_copyMakeBorder (src : Mat T) top bottom left right y x :
  y < rows src + top + bottom -> x < cols src + left + right ->
  mat_at (copyMakeBorder src top bottom left right) y x
  = mat_at src (Nat.min (y - top) (rows src - 1))
               (Nat.min (x - left) (cols src - 1)).
Proof.
  intros Hy Hx. unfold copyMakeBorder.
  rewrite mat_at_tabulate by assumption. reflexivity.
Qed.

Lemma mat_at_elem m y x :
  mat_wf m -> y < rows m -> x < cols m -> mat_at m y x ∈ data m.
Proof.
  unfold mat_wf, mat_at. intros Hwf Hy Hx.
  apply list_elem_of_lookup_total_2. rewrite Hwf. apply flat_index_lt; auto.
Qed.
End MatLemmas.

(** ** Sums *)

Lemma sum_upto_ext n f g :
  (forall i, i < n -> f i = g i) -> sum_upto n f = sum_upto n g.
Proof.
  induction n as [|n IH]; simpl; intros H; [reflexivity|].
  rewrite IH by (intros; apply H; lia). rewrite H by lia. reflexivity.
Qed.

Lemma sum_upto_app a n f :
  sum_upto (a + n) f = (sum_upto a f + sum_upto n (fun i => f (a + i)%nat))%Z.
Proof.
  induction n as [|n IH]; simpl.
  - rewrite Nat.add_0_r. lia.
  - rewrite Nat.add_succ_r. simpl. rewrite IH. lia.
Qed.

Lemma sum_upto_sub n f g :
  (sum_upto n f - sum_upto n g)%Z = sum_upto n (fun i => (f i - g i)%Z).
Proof. induction n as [|n IH]; simpl; lia. Qed.

Lemma sum_upto_bounds n f c :
  (forall i, i < n -> (0 <= f i <= c)%Z) ->
  (0 <= sum_upto n f <= Z.of_nat n * c)%Z.
Proof.
  induction n as [|n IH]; simpl sum_upto; intros H; [lia|].
  specialize (IH (fun i Hi => H i (Nat.lt_lt_succ_r _ _ Hi))).
  specialize (H n (Nat.lt_succ_diag_r n)). nia.
Qed.

Lemma prefix_sum_S P y x :
  prefix_sum P (S y) x = (prefix_sum P y x + sum_upto (S x) (P (S y)))%Z.
Proof. reflexivity. Qed.

(** The four corners of the inclusive prefix sums enclose the block of
    the rows [y + 1 .. y + n] and the columns [x + 1 .. x + n]. *)
Lemma four_corners P y x n :
  (prefix_sum P (y + n) (x + n) - prefix_sum P (y + n) x
   + prefix_sum P y x - prefix_sum P y (x + n))%Z
  = window_sum P (y + 1) (x + 1) n.
Proof.
  unfold prefix_sum, window_sum.
  replace (S (y + n)) with (S y + n) by lia.
  rewrite !sum_upto_app.
  set (A := sum_upto (S y) (fun j => sum_upto (S (x + n)) (P j))).
  set (B := sum_upto (S y) (fun j => sum_upto (S x) (P j))).
  transitivity
    (Z.sub (sum_upto n (fun j => sum_upto (S (x + n)) (P (S y + j))))
           (sum_upto n (fun j => sum_upto (S x) (P (S y + j)))));
    [lia|].
  rewrite sum_upto_sub. apply sum_upto_ext. intros j _.
  replace (S (x + n)) with (S x + n) by lia.
  rewrite sum_upto_app.
  replace (y + 1 + j) with (S y + j) by lia.
  transitivity (sum_upto n (fun i => P (S y + j) (S x + i))); [lia|].
  apply sum_upto_ext. intros i _. f_equal. lia.
Qed.

(** ** Arithmetic of [uint_least64_t] *)

(** Equations between sums taken modulo [2^64]. *)
Ltac wrap64_lia :=
  unfold wrap64 in *;
  change (2 ^ 64)%Z with 18446744073709551616%Z in *;
  Z.div_mod_to_equations; lia.

Lemma wrap64_small a : (0 <= a < 2 ^ 64)%Z -> wrap64 a = a.
Proof. unfold wrap64. apply Z.mod_small. Qed.

(** ** The integral images *)

Lemma filled_insert pw F y x b v :
  x < pw -> pw * y + x < length b ->
  filled pw F y x b -> v = F y x ->
  filled pw F y (S x) (<[pw * y + x := v]> b).
Proof.
  intros Hx Hlen Hf -> j i Hi Hji.
  destruct (decide (j = y /\ i = x)) as [[-> ->]|Hne].
  - apply list_lookup_insert_eq, Hlen.
  - rewrite list_lookup_insert_ne.
    + apply Hf; [exact Hi|]. lia.
    + intros Heq. apply Hne.
      rewrite !(Nat.mul_comm pw) in Heq.
      destruct (flat_index_inj _ _ _ _ _ Hx Hi Heq); auto.
Qed.

Lemma filled_insert_row0 pw F x b v :
  x < pw -> x < length b ->
  filled pw F 0 x b -> v = F 0 x ->
  filled pw F 0 (S x) (<[x := v]> b).
Proof.
  intros Hx Hlen Hf Hv.
  pose proof (filled_insert pw F 0 x b v Hx) as H.
  rewrite Nat.mul_0_r in H. simpl in H. auto.
Qed.

Lemma filled_row_end pw F y b : filled pw F y pw b -> filled pw F (S y) 0 b.
Proof. intros Hf j i Hi Hji. apply Hf; [exact Hi|]. lia. Qed.

Lemma filled_total pw F y x b j i :
  filled pw F y x b -> i < pw -> j < y -> b !!! (pw * j + i) = F j i.
Proof.
  intros Hf Hi Hj. apply list_lookup_total_correct, Hf; [exact Hi|]. lia.
Qed.

Section IntegralImages.
Variable padimg : Mat Z.
Variable pw : nat.

Let P1 : nat -> nat -> Z := mat_at padimg.
Let P2 : nat -> nat -> Z := fun j i => (mat_at padimg j i * mat_at padimg j i)%Z.
Let G1 : nat -> nat -> Z := fun y x => wrap64 (prefix_sum P1 y x).
Let G2 : nat -> nat -> Z := fun y x => wrap64 (prefix_sum P2 y x).

Lemma integral_row0_filled b1 b2 len :
  length b1 = len -> length b2 = len -> pw <= len ->
  let b := integral_row0 padimg pw (b1, b2) in
  length b.1 = len /\ length b.2 = len
  /\ filled pw G1 1 0 b.1 /\ filled pw G2 1 0 b.2.
Proof using Type.
  intros Hl1 Hl2 Hpw. unfold integral_row0. simpl fst; simpl snd.
  pose (Pin := fun (n : nat) (st : Z * Z * list Z * list Z) =>
    st.1.1.1 = wrap64 (sum_upto n (P1 0))
    /\ st.1.1.2 = wrap64 (sum_upto n (P2 0))
    /\ length st.1.2 = len /\ length st.2 = len
    /\ filled pw G1 0 n st.1.2 /\ filled pw G2 0 n st.2).
  match goal with |- context [for_loop pw ?body ?s0] =>
    assert (Hin : Pin pw (for_loop pw body s0)) end.
  { apply (for_loop_ind Pin).
    - unfold Pin. simpl. split_and!; auto; intros j i Hi Hji; lia.
    - intros x [[[a1 a2] c1] c2] Hx (Ha1 & Ha2 & Hc1 & Hc2 & Hf1 & Hf2).
      simpl in *. subst a1 a2. unfold Pin. simpl.
      rewrite !length_insert.
      split_and!; auto.
      + unfold P1. wrap64_lia.
      + unfold P2. wrap64_lia.
      + apply filled_insert_row0; [exact Hx|lia|exact Hf1|].
        unfold G1, prefix_sum. simpl. unfold P1. wrap64_lia.
      + apply filled_insert_row0; [exact Hx|lia|exact Hf2|].
        unfold G2, prefix_sum. simpl. unfold P2. wrap64_lia. }
  destruct (for_loop pw _ _) as [[[a1 a2] c1] c2].
  destruct Hin as (_ & _ & Hc1 & Hc2 & Hf1 & Hf2). simpl in *.
  split_and!; auto using filled_row_end.
Qed.

Lemma integral_row_filled y b1 b2 len :
  1 <= y -> length b1 = len -> length b2 = len -> pw * S y <= len ->
  filled pw G1 y 0 b1 -> filled pw G2 y 0 b2 ->
  let b := integral_row padimg pw y (b1, b2) in
  length b.1 = len /\ length b.2 = len
  /\ filled pw G1 (S y) 0 b.1 /\ filled pw G2 (S y) 0 b.2.
Proof using Type.
  intros Hy Hl1 Hl2 Hpw Hb1 Hb2. unfold integral_row. simpl fst; simpl snd.
  pose (Pin := fun (n : nat) (st : Z * Z * list Z * list Z) =>
    st.1.1.1 = wrap64 (sum_upto n (P1 y))
    /\ st.1.1.2 = wrap64 (sum_upto n (P2 y))
    /\ length st.1.2 = len /\ length st.2 = len
    /\ filled pw G1 y n st.1.2 /\ filled pw G2 y n st.2).
  match goal with |- context [for_loop pw ?body ?s0] =>
    assert (Hin : Pin pw (for_loop pw body s0)) end.
  { apply (for_loop_ind Pin).
    - unfold Pin. simpl. split_and!; auto.
    - intros x [[[a1 a2] c1] c2] Hx (Ha1 & Ha2 & Hc1 & Hc2 & Hf1 & Hf2).
      simpl in *. subst a1 a2. unfold Pin. simpl.
      rewrite !length_insert.
      destruct y as [|y']; [lia|]. simpl Nat.sub. rewrite Nat.sub_0_r.
      rewrite (filled_total _ _ _ _ _ y' x Hf1) by lia.
      rewrite (filled_total _ _ _ _ _ y' x Hf2) by lia.
      split_and!; auto.
      + unfold P1. wrap64_lia.
      + unfold P2. wrap64_lia.
      + apply filled_insert; [exact Hx|nia|exact Hf1|].
        unfold G1. rewrite prefix_sum_S. simpl sum_upto. unfold P1. wrap64_lia.
      + apply filled_insert; [exact Hx|nia|exact Hf2|].
        unfold G2. rewrite prefix_sum_S. simpl sum_upto. unfold P2. wrap64_lia. }
  destruct (for_loop pw _ _) as [[[a1 a2] c1] c2].
  destruct Hin as (_ & _ & Hc1 & Hc2 & Hf1 & Hf2). simpl in *.
  split_and!; auto using filled_row_end.
Qed.

(** Every cell of the two buffers holds the inclusive prefix sum of
    the padded image, respectively of its squares, as a
    [uint_least64_t]. *)
Lemma integral_images_filled ph :
  1 <= ph ->
  let b := integral_images padimg pw ph in
  filled pw G1 ph 0 b.1 /\ filled pw G2 ph 0 b.2.
Proof using Type.
  intros Hph. unfold integral_images.
  pose (len := pw * ph).
  pose (Pin := fun (n : nat) (b : list Z * list Z) =>
    length b.1 = len /\ length b.2 = len
    /\ filled pw G1 (S n) 0 b.1 /\ filled pw G2 (S n) 0 b.2).
  match goal with |- context [for_loop (ph - 1) ?body ?s0] =>
    assert (Hin : Pin (ph - 1) (for_loop (ph - 1) body s0)) end.
  { apply (for_loop_ind Pin).
    - apply integral_row0_filled; try apply length_replicate. unfold len. nia.
    - intros i [c1 c2] Hi (Hc1 & Hc2 & Hf1 & Hf2). simpl in *.
      apply integral_row_filled; auto; [lia|]. unfold len. nia. }
  destruct Hin as (_ & _ & Hf1 & Hf2).
  replace (S (ph - 1)) with ph in * by lia. split; assumption.
Qed.

End IntegralImages.

(** The query of a filled buffer is the sum over the window, as a
    [uint_least64_t]. *)
Lemma window_total_filled pw P b ph wsize y x :
  filled pw (fun y x => wrap64 (prefix_sum P y x)) ph 0 b ->
  x + wsize < pw -> y + wsize < ph ->
  window_total b pw wsize y x = wrap64 (window_sum P (y + 1) (x + 1) wsize).
Proof.
  intros Hf Hx Hy. unfold window_total.
  rewrite !(filled_total _ _ _ _ _ _ _ Hf) by lia.
  rewrite <- four_corners. wrap64_lia.
Qed.

(** ** Padding and windows *)

Lemma win_n_ceil wsize : wsize <= 2 * win_n wsize <= wsize + 1.
Proof.
  unfold win_n. pose proof (Nat.div_mod_eq wsize 2) as E.
  pose proof (Nat.mod_upper_bound wsize 2) as B.
  destruct (wsize mod 2 =? 0) eqn:H; cbn [negb].
  - apply Nat.eqb_eq in H. lia.
  - apply Nat.eqb_neq in H. lia.
Qed.

Lemma win_p_floor wsize : 2 * win_p wsize <= wsize <= 2 * win_p wsize + 1.
Proof.
  unfold win_p. pose proof (Nat.div_mod_eq wsize 2) as E.
  pose proof (Nat.mod_upper_bound wsize 2) as B. lia.
Qed.

Lemma win_n_win_p wsize : win_n wsize + win_p wsize = wsize.
Proof.
  unfold win_n, win_p. pose proof (Nat.div_mod_eq wsize 2) as E.
  pose proof (Nat.mod_upper_bound wsize 2) as B.
  destruct (wsize mod 2 =? 0) eqn:H; cbn [negb].
  - apply Nat.eqb_eq in H. lia.
  - apply Nat.eqb_neq in H. lia.
Qed.

Lemma padded_rows img wsize : rows (padded img wsize) = rows img + wsize.
Proof. unfold padded. simpl. pose proof (win_n_win_p wsize). lia. Qed.

Lemma padded_cols img wsize : cols (padded img wsize) = cols img + wsize.
Proof. unfold padded. simpl. pose proof (win_n_win_p wsize). lia. Qed.

(** The padded image replicates the border samples of the image. *)
Lemma padded_at img wsize Y X :
  Y < rows img + wsize -> X < cols img + wsize ->
  mat_at (padded img wsize) Y X
  = mat_at img (Nat.min (Y - win_n wsize) (rows img - 1))
               (Nat.min (X - win_n wsize) (cols img - 1)).
Proof.
  intros HY HX. unfold padded. pose proof (win_n_win_p wsize).
  apply mat_at_copyMakeBorder; lia.
Qed.

(** The pixel [(y, x)] of the image is the sample [(y + win_n, x + win_n)]
    of the padded image. *)
Lemma padded_center img wsize y x :
  y < rows img -> x < cols img ->
  mat_at (padded img wsize) (y + win_n wsize) (x + win_n wsize) = mat_at img y x.
Proof.
  intros Hy Hx. pose proof (win_n_win_p wsize).
  rewrite padded_at by lia. f_equal; lia.
Qed.

Lemma padded_8bit img wsize Y X :
  mat_wf img -> is_8bit img -> 1 <= rows img -> 1 <= cols img ->
  Y < rows img + wsize -> X < cols img + wsize ->
  (0 <= mat_at (padded img wsize) Y X <= 255)%Z.
Proof.
  intros Hwf H8 Hh Hw HY HX. rewrite padded_at by assumption.
  unfold is_8bit in H8. rewrite Forall_forall in H8. apply H8.
  apply mat_at_elem; auto; lia.
Qed.

Lemma window_sum_bounds (P : nat -> nat -> Z) (y0 x0 n : nat) (c : Z) :
  (forall j i, j < n -> i < n -> (0 <= P (y0 + j)%nat (x0 + i)%nat <= c)%Z) ->
  (0 <= window_sum P y0 x0 n <= Z.of_nat n * (Z.of_nat n * c))%Z.
Proof.
  intros H. unfold window_sum. apply sum_upto_bounds. intros j Hj.
  apply sum_upto_bounds. intros i Hi. apply H; assumption.
Qed.

Lemma direct_total1_bounds img wsize y x :
  mat_wf img -> is_8bit img -> y < rows img -> x < cols img ->
  (0 <= direct_total1 img wsize y x <= Z.of_nat wsize * (Z.of_nat wsize * 255))%Z.
Proof.
  intros Hwf H8 Hy Hx. unfold direct_total1. apply window_sum_bounds.
  intros j i Hj Hi. apply padded_8bit; auto; lia.
Qed.

Lemma direct_total2_bounds img wsize y x :
  mat_wf img -> is_8bit img -> y < rows img -> x < cols img ->
  (0 <= direct_total2 img wsize y x <= Z.of_nat wsize * (Z.of_nat wsize * 65025))%Z.
Proof.
  intros Hwf H8 Hy Hx. unfold direct_total2. apply window_sum_bounds.
  intros j i Hj Hi.
  assert (0 <= mat_at (padded img wsize) (y + 1 + j)%nat (x + 1 + i)%nat <= 255)%Z
    by (apply padded_8bit; auto; lia).
  nia.
Qed.

(** Within the window size limit the totals do not wrap around:
    [16843009^2 * 255^2 < 2^64]. *)
Lemma window_limit_no_wrap wsize t :
  (Z.of_nat wsize <= windowSizeLimit)%Z ->
  (0 <= t <= Z.of_nat wsize * (Z.of_nat wsize * 65025))%Z ->
  wrap64 t = t.
Proof.
  unfold windowSizeLimit. intros Hw Ht. apply wrap64_small.
  change (2 ^ 64)%Z with 18446744073709551616%Z. nia.
Qed.

(** The queries of the two integral images are the sums over the window
    of the pixel: its [wsize] by [wsize] samples from
    [(y + 1, x + 1)] on in the padded image. *)
Lemma integral_totals img wsize y x :
  1 <= wsize -> y < rows img -> x < cols img ->
  let b := integral_images (padded img wsize) (cols img + wsize) (rows img + wsize) in
  window_total b.1 (cols img + wsize) wsize y x = wrap64 (direct_total1 img wsize y x)
  /\ window_total b.2 (cols img + wsize) wsize y x = wrap64 (direct_total2 img wsize y x).
Proof.
  intros Hw Hy Hx.
  destruct (integral_images_filled (padded img wsize) (cols img + wsize)
              (rows img + wsize)) as [H1 H2]; [lia|].
  split.
  - apply (window_total_filled _ _ _ (rows img + wsize)); [exact H1|lia|lia].
  - apply (window_total_filled _ _ _ (rows img + wsize)); [exact H2|lia|lia].
Qed.

Lemma integral_totals_exact img wsize y x :
  mat_wf img -> is_8bit img ->
  1 <= wsize -> (Z.of_nat wsize <= windowSizeLimit)%Z ->
  y < rows img -> x < cols img ->
  let b := integral_images (padded img wsize) (cols img + wsize) (rows img + wsize) in
  window_total b.1 (cols img + wsize) wsize y x = direct_total1 img wsize y x
  /\ window_total b.2 (cols img + wsize) wsize y x = direct_total2 img wsize y x.
Proof.
  intros Hwf H8 Hw Hlim Hy Hx.
  destruct (integral_totals img wsize y x Hw Hy Hx) as [H1 H2].
  pose proof (direct_total1_bounds img wsize y x Hwf H8 Hy Hx) as B1.
  pose proof (direct_total2_bounds img wsize y x Hwf H8 Hy Hx) as B2.
  simpl. rewrite H1, H2. split; apply (window_limit_no_wrap wsize); auto. nia.
Qed.

(** ** Loops that write one sample per pixel *)

Lemma for_pixels_write {St T : Type} `{!Inhabited T} (get : St -> Mat T) (h w : nat)
    (body : nat -> nat -> option St -> option St) (f : nat -> nat -> option T)
    (s0 : St) :
  (forall y x, body y x None = None) ->
  (forall y x s, y < h -> x < w ->
     match f y x with
     | Some v => exists s', body y x (Some s) = Some s'
                            /\ get s' = mat_set (get s) y x v
     | None => body y x (Some s) = None
     end) ->
  mat_wf (get s0) -> rows (get s0) = h -> cols (get s0) = w ->
  ((forall y x, y < h -> x < w -> is_Some (f y x)) ->
   exists s, for_pixels h w body (Some s0) = Some s
     /\ mat_wf (get s) /\ rows (get s) = h /\ cols (get s) = w
     /\ forall y x, y < h -> x < w -> f y x = Some (mat_at (get s) y x))
  /\ (forall y x, y < h -> x < w -> f y x = None ->
      for_pixels h w body (Some s0) = None).
Proof.
  intros Habs Hbody Hwf Hr Hc. split.
  - intros Hsome.
    pose (P := fun st : option St =>
      exists s, st = Some s /\ mat_wf (get s) /\ rows (get s) = h /\ cols (get s) = w).
    pose (Q := fun (y x : nat) (st : option St) =>
      exists s, st = Some s /\ f y x = Some (mat_at (get s) y x)).
    destruct (for_pixels_rule h w body P Q (Some s0)) as [HP HQ].
    + exists s0. auto.
    + intros y x st Hy Hx (s & -> & Hwf' & Hr' & Hc').
      specialize (Hbody y x s Hy Hx).
      destruct (Hsome y x Hy Hx) as [v Hv]. rewrite Hv in Hbody.
      destruct Hbody as (s' & Hs' & Hget). split.
      * exists s'. rewrite Hget. split_and!; auto using mat_set_wf.
      * exists s'. split; [exact Hs'|]. rewrite Hget, Hv. f_equal.
        symmetry. apply mat_at_set_eq; auto; lia.
    + intros y x y' x' st Hy Hx Hy' Hx' Hne (s & -> & Hwf' & Hr' & Hc')
             (s1 & [= <-] & Hf).
      specialize (Hbody y x s Hy Hx).
      destruct (Hsome y x Hy Hx) as [v Hv]. rewrite Hv in Hbody.
      destruct Hbody as (s' & Hs' & Hget).
      exists s'. split; [exact Hs'|]. rewrite Hget, Hf. f_equal.
      symmetry. apply mat_at_set_ne; auto; lia.
    + destruct HP as (s & Hs & Hwf' & Hr' & Hc'). exists s. split_and!; auto.
      intros y x Hy Hx. destruct (HQ y x Hy Hx) as (s1 & Hs1 & Hf).
      rewrite Hs in Hs1. injection Hs1 as <-. exact Hf.
  - intros y0 x0 Hy Hx Hnone.
    apply (for_pixels_None h w body y0 x0); auto.
    intros [s|]; [|apply Habs].
    specialize (Hbody y0 x0 s Hy Hx). rewrite Hnone in Hbody. exact Hbody.
Qed.

(** ** The pass of one window size *)

Lemma window_pass_samples cfg img realdst wsize :
  programMode cfg <> OUT_PIXELINFO ->
  mat_wf img -> is_8bit img ->
  1 <= wsize -> (Z.of_nat wsize <= windowSizeLimit)%Z ->
  ((forall y x, y < rows img -> x < cols img ->
      is_Some (pixel_sample cfg img wsize y x)) ->
   exists dst rd, window_pass cfg img realdst wsize = Some (dst, rd)
     /\ mat_wf dst /\ rows dst = rows img /\ cols dst = cols img
     /\ forall y x, y < rows img -> x < cols img ->
          pixel_sample cfg img wsize y x = Some (mat_at dst y x))
  /\ (forall y x, y < rows img -> x < cols img ->
        pixel_sample cfg img wsize y x = None ->
        window_pass cfg img realdst wsize = None).
Proof.
  intros Hmode Hwf H8 Hw Hlim. unfold window_pass. fold (padded img wsize).
  pose proof (fun y x => integral_totals_exact img wsize y x Hwf H8 Hw Hlim) as Htot.
  simpl in Htot.
  destruct (integral_images (padded img wsize) (cols img + wsize)
              (rows img + wsize)) as [buffer1 buffer2].
  simpl in Htot.
  assert (Hpi : ProgramMode_eqb (programMode cfg) OUT_PIXELINFO = false)
    by (destruct (programMode cfg); simpl; congruence).
  match goal with |- context [for_pixels _ _ ?body _] =>
    destruct (for_pixels_write (fst : Mat Z * Mat Vec3b -> Mat Z)
                (rows img) (cols img) body (pixel_sample cfg img wsize)
                (mat_new (rows img) (cols img) 0%Z, realdst)) as [HA HB]
  end.
  - reflexivity.
  - intros y x [dst rd] Hy Hx. rewrite Hpi.
    destruct (Htot y x Hy Hx) as [-> ->]. rewrite padded_center by assumption.
    unfold pixel_sample.
    destruct (dst_sample cfg wsize _ _ _) as [v|]; [|reflexivity].
    eexists. split; reflexivity.
  - apply mat_new_wf.
  - reflexivity.
  - reflexivity.
  - split.
    + intros Hsome. destruct (HA Hsome) as ([dst rd] & Hres & Hrest).
      exists dst, rd. split; [exact Hres|exact Hrest].
    + exact HB.
Qed.

(** [main] of binarize-sauvola in the modes that write one channel: the
    samples of the result are those of [pixel_sample], and there is a
    result exactly when each of them is defined. *)
Lemma binarize_sauvola_samples cfg img :
  programMode cfg <> OUT_PIXELINFO ->
  programMode cfg <> OUT_VARIABLE_MULTIW ->
  multiWindowSize cfg = [windowSize cfg] ->
  mat_wf img -> is_8bit img -> 1 <= rows img -> 1 <= cols img ->
  window_size_ok (windowSize cfg) = true ->
  pad_size_ok (cols img) (rows img) (windowSize cfg) = true ->
  ((forall y x, y < rows img -> x < cols img ->
      is_Some (pixel_sample cfg img (windowSize cfg) y x)) ->
   exists dst, binarize_sauvola cfg img = Some (Exit0 (Gray dst))
     /\ mat_wf dst /\ rows dst = rows img /\ cols dst = cols img
     /\ forall y x, y < rows img -> x < cols img ->
          pixel_sample cfg img (windowSize cfg) y x = Some (mat_at dst y x))
  /\ (forall y x, y < rows img -> x < cols img ->
        pixel_sample cfg img (windowSize cfg) y x = None ->
        binarize_sauvola cfg img = None).
Proof.
  intros Hmode Hmode' Hmw Hwf H8 Hh Hw Hws Hpad. unfold binarize_sauvola.
  unfold window_size_ok in Hws. apply andb_true_iff in Hws as [Hw1 Hw2].
  apply Nat.leb_le in Hw1. apply Z.leb_le in Hw2.
  destruct (cols img =? 0) eqn:Ec; [apply Nat.eqb_eq in Ec; lia|].
  destruct (rows img =? 0) eqn:Er; [apply Nat.eqb_eq in Er; lia|].
  rewrite Hpad, Hmw. unfold finalize_window.
  assert (Hpi : ProgramMode_eqb (programMode cfg) OUT_PIXELINFO = false)
    by (destruct (programMode cfg); simpl; congruence).
  assert (Hmu : ProgramMode_eqb (programMode cfg) OUT_VARIABLE_MULTIW = false)
    by (destruct (programMode cfg); simpl; congruence).
  rewrite Hpi, Hmu. simpl.
  destruct (window_pass_samples cfg img (mkMat 0 0 []) (windowSize cfg)
              Hmode Hwf H8 Hw1 Hw2) as [HA HB].
  split.
  - intros Hsome. destruct (HA Hsome) as (dst & rd & -> & Hrest).
    exists dst. split; [reflexivity|exact Hrest].
  - intros y x Hy Hx Hnone. rewrite (HB y x Hy Hx Hnone). reflexivity.
Qed.

Lemma binarizeUsingSauvola_samples dst0 img wsize kParam rScale :
  mat_wf img -> is_8bit img -> 1 <= rows img -> 1 <= cols img ->
  window_size_ok wsize = true ->
  pad_size_ok (cols img) (rows img) wsize = true ->
  ((forall y x, y < rows img -> x < cols img ->
      is_Some (isolate_pixel_sample kParam rScale img wsize y x)) ->
   exists dst,
     IsolateBg.binarizeUsingSauvola dst0 img wsize kParam rScale = Some (true, dst)
     /\ mat_wf dst /\ rows dst = rows img /\ cols dst = cols img
     /\ forall y x, y < rows img -> x < cols img ->
          isolate_pixel_sample kParam rScale img wsize y x = Some (mat_at dst y x))
  /\ (forall y x, y < rows img -> x < cols img ->
        isolate_pixel_sample kParam rScale img wsize y x = None ->
        IsolateBg.binarizeUsingSauvola dst0 img wsize kParam rScale = None).
Proof.
  intros Hwf H8 Hh Hw Hws Hpad. unfold IsolateBg.binarizeUsingSauvola.
  unfold window_size_ok in Hws. apply andb_true_iff in Hws as [Hw1 Hw2].
  apply Nat.leb_le in Hw1. apply Z.leb_le in Hw2.
  destruct (cols img =? 0) eqn:Ec; [apply Nat.eqb_eq in Ec; lia|].
  destruct (rows img =? 0) eqn:Er; [apply Nat.eqb_eq in Er; lia|].
  rewrite Hpad. simpl. fold (padded img wsize).
  pose proof (fun y x => integral_totals_exact img wsize y x Hwf H8 Hw1 Hw2) as Htot.
  simpl in Htot.
  destruct (integral_images (padded img wsize) (cols img + wsize)
              (rows img + wsize)) as [buffer1 buffer2].
  simpl in Htot.
  match goal with |- context [for_pixels _ _ ?body _] =>
    destruct (for_pixels_write (fun m : Mat Z => m)
                (rows img) (cols img) body
                (isolate_pixel_sample kParam rScale img wsize)
                (mat_new (rows img) (cols img) 0%Z)) as [HA HB]
  end.
  - reflexivity.
  - intros y x dst Hy Hx.
    destruct (Htot y x Hy Hx) as [-> ->]. rewrite padded_center by assumption.
    unfold isolate_pixel_sample.
    destruct (IsolateBg.dst_sample wsize kParam _ _ _ _) as [v|]; [|reflexivity].
    eexists. split; reflexivity.
  - apply mat_new_wf.
  - reflexivity.
  - reflexivity.
  - split.
    + intros Hsome. destruct (HA Hsome) as (dst & -> & Hrest).
      exists dst. split; [reflexivity|exact Hrest].
    + intros y x Hy Hx Hnone. rewrite (HB y x Hy Hx Hnone). reflexivity.
Qed.

Lemma output_of_intro sample thr ps img (returns : Mat Z -> Prop)
    (undefined : Prop) :
  (forall y x, y < rows img -> x < cols img ->
     ps y x = match thr y x with
              | Some t => Some (sample t (mat_at img y x))
              | None => None
              end) ->
  ((forall y x, y < rows img -> x < cols img -> is_Some (ps y x)) ->
   exists dst : Mat Z, returns dst
     /\ mat_wf dst /\ rows dst = rows img /\ cols dst = cols img
     /\ forall y x, y < rows img -> x < cols img -> ps y x = Some (mat_at dst y x)) ->
  (forall y x, y < rows img -> x < cols img -> ps y x = None -> undefined) ->
  output_of sample thr img returns undefined.
Proof.
  intros Hps HA HB. split.
  - intros Hsome. destruct HA as (dst & Hret & _ & Hr & Hc & Hat).
    + intros y x Hy Hx. rewrite (Hps y x Hy Hx).
      destruct (Hsome y x Hy Hx) as [t ->]. eauto.
    + exists dst. split_and!; auto. intros y x Hy Hx.
      specialize (Hat y x Hy Hx). rewrite (Hps y x Hy Hx) in Hat.
      destruct (thr y x) as [t|]; [|discriminate].
      exists t. split; [reflexivity|]. congruence.
  - intros y x Hy Hx Hnone. apply (HB y x Hy Hx).
    rewrite (Hps y x Hy Hx), Hnone. reflexivity.
Qed.

(** What the end of [argparse] leaves of a configuration of a mode that
    writes one channel. *)
Lemma argparse_finish_single cfg0 cfg :
  argparse_finish cfg0 = Some cfg ->
  programMode cfg0 <> OUT_VARIABLE_MULTIW ->
  programMode cfg = programMode cfg0 /\ windowSize cfg = windowSize cfg0
  /\ kParam cfg = kParam cfg0 /\ rScale cfg = rScale cfg0
  /\ tScale cfg = tScale cfg0 /\ tBias cfg = tBias cfg0
  /\ multiWindowSize cfg = [windowSize cfg].
Proof.
  unfold argparse_finish. intros H Hm.
  destruct (oVariable cfg0 && (rScale cfg0 <? 1)%float); [discriminate|].
  destruct (programMode cfg0) eqn:E; simpl in H; try congruence;
    injection H as <-; simpl; rewrite ?E; split_and!; reflexivity.
Qed.

Lemma valid_config_window cfg :
  valid_config cfg = true -> window_size_ok (windowSize cfg) = true.
Proof.
  unfold valid_config. intros H.
  do 5 (apply andb_true_iff in H as [H _]). exact H.
Qed.

(** ** Binary policy *)

(** C1 (as amended). For every 8-bit grayscale image and every valid
    configuration that passes the size checks, the Binary policy of
    binarize-sauvola computes at each pixel
    [tScale * mean * (1 + K * (stddev / R - 1)) + bias] from the windowed
    mean and standard deviation of the pixel (sums over its window of the
    padded image), with [R = rScale * 127.5] and [bias = 255 * tBias],
    converts it to [int], and writes 255 if the intensity of the pixel
    is greater than that [int], else 0; [binarizeUsingSauvola] of
    isolate-bg does the same without scale and bias. *)
Theorem binary_policy_int_threshold cfg0 cfg img :
  programMode cfg0 = OUT_BINARY ->
  valid_config cfg0 = true ->
  argparse_finish cfg0 = Some cfg ->
  mat_wf img -> is_8bit img -> 1 <= rows img -> 1 <= cols img ->
  pad_size_ok (cols img) (rows img) (windowSize cfg) = true ->
  output_of binary_sample (pixel_threshold cfg img) img
    (fun dst => binarize_sauvola cfg img = Some (Exit0 (Gray dst)))
    (binarize_sauvola cfg img = None)
  /\ output_of binary_sample
       (isolate_pixel_threshold (kParam cfg) (rScale cfg) img (windowSize cfg)) img
       (fun dst =>
          IsolateBg.binarizeUsingSauvola (mkMat 0 0 []) img (windowSize cfg)
            (kParam cfg) (rScale cfg) = Some (true, dst))
       (IsolateBg.binarizeUsingSauvola (mkMat 0 0 []) img (windowSize cfg)
          (kParam cfg) (rScale cfg) = None).
Proof.
  intros Hmode0 Hvalid Hfin Hwf H8 Hh Hw Hpad.
  destruct (argparse_finish_single cfg0 cfg Hfin) as (Hmode & Hws' & _ & _ & _ & _ & Hmw).
  { rewrite Hmode0. discriminate. }
  rewrite Hmode0 in Hmode.
  pose proof (valid_config_window cfg0 Hvalid) as Hws. rewrite <- Hws' in Hws.
  split.
  - destruct (binarize_sauvola_samples cfg img) as [HA HB]; auto.
    { rewrite Hmode. discriminate. }
    { rewrite Hmode. discriminate. }
    apply (output_of_intro _ _ (pixel_sample cfg img (windowSize cfg)));
      [|exact HA|exact HB].
    intros y x _ _. unfold pixel_sample, dst_sample, pixel_threshold, oVariable.
    rewrite Hmode. simpl.
    unfold windowed_mean, windowed_stddev. destruct (int_of_double _); reflexivity.
  - destruct (binarizeUsingSauvola_samples (mkMat 0 0 []) img (windowSize cfg)
                (kParam cfg) (rScale cfg)) as [HA HB]; auto.
    apply (output_of_intro _ _
             (isolate_pixel_sample (kParam cfg) (rScale cfg) img (windowSize cfg)));
      [|exact HA|exact HB].
    intros y x _ _.
    unfold isolate_pixel_sample, IsolateBg.dst_sample, isolate_pixel_threshold.
    unfold windowed_mean, windowed_stddev. destruct (int_of_double _); reflexivity.
Qed.

Lemma image_C1_8bit : is_8bit image_C1.
Proof. unfold is_8bit, image_C1. simpl. repeat constructor; lia. Defined.

Lemma binary_policy_int_threshold_witness :
  let cfg0 := options_of OUT_BINARY 2 0.4 1 1 0 in
  let cfg := config_of OUT_BINARY 2 0.4 1 1 0 in
  (programMode cfg0 = OUT_BINARY /\ valid_config cfg0 = true
   /\ argparse_finish cfg0 = Some cfg
   /\ mat_wf image_C1 /\ is_8bit image_C1
   /\ 1 <= rows image_C1 /\ 1 <= cols image_C1
   /\ pad_size_ok (cols image_C1) (rows image_C1) (windowSize cfg) = true)
  /\ output_of binary_sample (pixel_threshold cfg image_C1) image_C1
       (fun dst => binarize_sauvola cfg image_C1 = Some (Exit0 (Gray dst)))
       (binarize_sauvola cfg image_C1 = None)
  /\ output_of binary_sample
       (isolate_pixel_threshold (kParam cfg) (rScale cfg) image_C1 (windowSize cfg))
       image_C1
       (fun dst =>
          IsolateBg.binarizeUsingSauvola (mkMat 0 0 []) image_C1 (windowSize cfg)
            (kParam cfg) (rScale cfg) = Some (true, dst))
       (IsolateBg.binarizeUsingSauvola (mkMat 0 0 []) image_C1 (windowSize cfg)
          (kParam cfg) (rScale cfg) = None).
Proof.
  intros cfg0 cfg.
  assert (H8 : is_8bit image_C1) by exact image_C1_8bit.
  assert (Hv : valid_config cfg0 = true) by (vm_compute; reflexivity).
  assert (Hp : pad_size_ok (cols image_C1) (rows image_C1) (windowSize cfg) = true)
    by (vm_compute; reflexivity).
  split.
  - split_and!; auto; try reflexivity; simpl; lia.
  - apply (binary_policy_int_threshold cfg0 cfg image_C1); auto;
      try reflexivity; simpl; lia.
Defined.

Lemma binary_policy_counterexample :
  let cfg0 := options_of OUT_BINARY 2 2 1 1 0 in
  let cfg := config_of OUT_BINARY 2 2 1 1 0 in
  valid_config cfg0 = true
  /\ argparse_finish cfg0 = Some cfg
  /\ (threshold_double cfg (windowed_mean image_C1x 2 0 0)
                           (windowed_stddev image_C1x 2 0 0)
      <? 0)%float = true
  /\ claimed_binary_sample cfg image_C1x 0 0 = 255%Z
  /\ binarize_sauvola cfg image_C1x = Some (Exit0 (Gray (mkMat 1 2 [0; 255]%Z)))
  /\ IsolateBg.binarizeUsingSauvola (mkMat 0 0 []) image_C1x 2 2 1
     = Some (true, mkMat 1 2 [0; 255]%Z).
Proof. vm_compute. repeat split; reflexivity. Qed.

(** C2 (as amended). On the 4 by 4 image of intensity 128 with a window
    of 4, [K = 0.4], R-scale 1, threshold scale 1 and bias 0, the mean
    of every window is 128 and its standard deviation 0, the threshold
    is 76 at every pixel (76.8 converted to [int]), the threshold output
    holds 76 and the Binary policy writes 255 at every pixel, in
    binarize-sauvola and in [binarizeUsingSauvola] of isolate-bg. *)
Theorem uniform_128_scenario :
  argparse_finish (options_of OUT_BINARY 4 0.4 1 1 0)
  = Some (config_of OUT_BINARY 4 0.4 1 1 0)
  /\ (forall y x, y < 4 -> x < 4 ->
        windowed_mean (uniform 4 4 128) 4 y x = 128%float
        /\ windowed_stddev (uniform 4 4 128) 4 y x = 0%float
        /\ threshold_double (config_of OUT_BINARY 4 0.4 1 1 0) 128 0 = 76.8%float
        /\ pixel_threshold (config_of OUT_BINARY 4 0.4 1 1 0) (uniform 4 4 128) y x
           = Some 76%Z
        /\ IsolateBg.threshold_double 0.4 (1 * (255 * 0.5)) 128 0 = 76.8%float
        /\ isolate_pixel_threshold 0.4 1 (uniform 4 4 128) 4 y x = Some 76%Z)
  /\ binarize_sauvola (config_of OUT_THRESHOLD 4 0.4 1 1 0) (uniform 4 4 128)
     = Some (Exit0 (Gray (uniform 4 4 76)))
  /\ binarize_sauvola (config_of OUT_BINARY 4 0.4 1 1 0) (uniform 4 4 128)
     = Some (Exit0 (Gray (uniform 4 4 255)))
  /\ IsolateBg.binarizeUsingSauvola (mkMat 0 0 []) (uniform 4 4 128) 4 0.4 1
     = Some (true, uniform 4 4 255).
Proof.
  split; [reflexivity|]. split; [|vm_compute; repeat split; reflexivity].
  intros y x Hy Hx.
  do 4 (destruct y as [|y];
        [do 4 (destruct x as [|x]; [vm_compute; repeat split; reflexivity|]); lia|]).
  lia.
Qed.

Lemma uniform_128_counterexample :
  pixel_threshold (config_of OUT_BINARY 4 0.4 1 1 0) (uniform 4 4 128) 0 0
  <> Some 128%Z
  /\ binarize_sauvola (config_of OUT_BINARY 4 0.4 1 1 0) (uniform 4 4 128)
     <> Some (Exit0 (Gray (uniform 4 4 0))).
Proof. vm_compute. split; discriminate. Qed.

(** ** Standard deviation *)

(** C3 (the code at the failing input). The window of 7 of the one-pixel
    image of intensity 5 holds 49 samples of intensity 5; the argument
    of [sqrt] is negative there, nothing clamps it, the standard
    deviation is NaN and the conversion of the threshold to [int] is
    undefined, in binarize-sauvola and in [binarizeUsingSauvola]. *)
Theorem negative_variance_not_clamped :
  direct_total1 (uniform 1 1 5) 7 0 0 = 245%Z
  /\ direct_total2 (uniform 1 1 5) 7 0 0 = 1225%Z
  /\ (window_variance 245 1225 7 <? 0)%float = true
  /\ is_nan (windowed_stddev (uniform 1 1 5) 7 0 0) = true
  /\ binarize_sauvola (config_of OUT_BINARY 7 0.4 1 1 0) (uniform 1 1 5) = None
  /\ IsolateBg.binarizeUsingSauvola (mkMat 0 0 []) (uniform 1 1 5) 7 0.4 1 = None.
Proof. vm_compute. repeat split; reflexivity. Qed.

(** ** Variable policy *)

(** C5 (the code at the failing input). With R-scale 1, which [argparse]
    accepts for the variable output, the standard deviation of the
    window of 7 of the one-pixel image of intensity 5 is NaN, so is
    [th0], and [th0 <= th1] does not hold; the sample of the output is
    undefined. *)
Theorem variable_bounds_nan :
  let cfg := config_of OUT_VARIABLE 7 0.4 1 1 0 in
  let mean := windowed_mean (uniform 1 1 5) 7 0 0 in
  let stddev := windowed_stddev (uniform 1 1 5) 7 0 0 in
  argparse_finish (options_of OUT_VARIABLE 7 0.4 1 1 0) = Some cfg
  /\ is_nan (variable_th0 cfg mean stddev) = true
  /\ (variable_th0 cfg mean stddev <=? variable_th1 cfg mean)%float = false
  /\ binarize_sauvola cfg (uniform 1 1 5) = None.
Proof. vm_compute. repeat split; reflexivity. Qed.

(** ** ThresholdMap policy *)




(** ** Padding *)

Lemma for_loop_ext {St : Type} (n : nat) (f g : nat -> St -> St) (s : St) :
  (forall i s, i < n -> f i s = g i s) -> for_loop n f s = for_loop n g s.
Proof.
  induction n as [|n IH]; intros H; [reflexivity|]. simpl.
  rewrite IH by (intros; apply H; lia). apply H. lia.
Qed.

Lemma for_pixels_ext {St : Type} (h w : nat) (f g : nat -> nat -> St -> St)
    (s : St) :
  (forall y x s, y < h -> x < w -> f y x s = g y x s) ->
  for_pixels h w f s = for_pixels h w g s.
Proof.
  intros H. unfold for_pixels. apply for_loop_ext. intros y s' Hy.
  apply for_loop_ext. intros x s'' Hx. apply H; assumption.
Qed.

(** The padding widths of the code are those of the specification. *)
Lemma win_n_claimed wsize : win_n wsize = claimed_leading wsize.
Proof.
  unfold win_n, claimed_leading.
  pose proof (Nat.div_mod_eq wsize 2) as E.
  pose proof (Nat.mod_upper_bound wsize 2) as B.
  pose proof (Nat.div_mod_eq (wsize + 1) 2) as E'.
  pose proof (Nat.mod_upper_bound (wsize + 1) 2) as B'.
  destruct (wsize mod 2 =? 0) eqn:H; cbn [negb].
  - apply Nat.eqb_eq in H. lia.
  - apply Nat.eqb_neq in H. lia.
Qed.

Lemma padded_claimed img wsize : padded img wsize = claimed_padded img wsize.
Proof.
  unfold padded, claimed_padded, copyMakeBorder.
  rewrite win_n_claimed. fold (claimed_trailing wsize). unfold win_p.
  fold (claimed_trailing wsize).
  replace (rows img + claimed_leading wsize + claimed_trailing wsize)
    with (claimed_leading wsize + rows img + claimed_trailing wsize) by lia.
  replace (cols img + claimed_leading wsize + claimed_trailing wsize)
    with (claimed_leading wsize + cols img + claimed_trailing wsize) by lia.
  reflexivity.
Qed.

(** The totals that the code reads from its integral images are those
    of the window of the specification. *)
Lemma integral_totals_claimed img wsize y x :
  1 <= wsize -> y < rows img -> x < cols img ->
  let padimg := copyMakeBorder img (win_n wsize) (win_p wsize)
                               (win_n wsize) (win_p wsize) in
  let b := integral_images padimg (cols img + wsize) (rows img + wsize) in
  window_total b.1 (cols img + wsize) wsize y x = claimed_total1 img wsize y x
  /\ window_total b.2 (cols img + wsize) wsize y x = claimed_total2 img wsize y x
  /\ mat_at padimg (y + win_n wsize) (x + win_n wsize) = mat_at img y x.
Proof.
  intros Hw Hy Hx. cbv zeta. fold (padded img wsize).
  destruct (integral_totals img wsize y x Hw Hy Hx) as [H1 H2].
  unfold claimed_total1, claimed_total2. rewrite <- padded_claimed.
  split; [exact H1|]. split; [exact H2|]. apply padded_center; assumption.
Qed.

(** C4. For every image and every window size of at least 1, even or
    odd, the code pads by [ceil (wsize / 2)] on the leading edge and by
    [floor (wsize / 2)] on the trailing edge, and the pass of a window
    size in binarize-sauvola and [binarizeUsingSauvola] of isolate-bg
    are the pass over the image extended by that many replicated rows
    and columns, in which the query of each pixel covers [wsize] by
    [wsize] samples, all inside the extended image and the pixel among
    them. *)
Theorem padding_covers_window cfg img realdst dst0 wsize kParam rScale :
  1 <= wsize ->
  win_n wsize = claimed_leading wsize
  /\ win_p wsize = claimed_trailing wsize
  /\ window_pass cfg img realdst wsize = claimed_window_pass cfg img realdst wsize
  /\ IsolateBg.binarizeUsingSauvola dst0 img wsize kParam rScale
     = claimed_binarizeUsingSauvola dst0 img wsize kParam rScale
  /\ forall y x, y < rows img -> x < cols img ->
       y + 1 + wsize <= rows (claimed_padded img wsize)
       /\ x + 1 + wsize <= cols (claimed_padded img wsize)
       /\ (y + 1 <= y + claimed_leading wsize < y + 1 + wsize)
       /\ (x + 1 <= x + claimed_leading wsize < x + 1 + wsize)
       /\ mat_at (claimed_padded img wsize) (y + claimed_leading wsize)
                 (x + claimed_leading wsize) = mat_at img y x.
Proof.
  intros Hw.
  pose proof (fun y x => integral_totals_claimed img wsize y x Hw) as Htot.
  cbv zeta in Htot.
  split; [apply win_n_claimed|]. split; [reflexivity|]. split; [|split].
  - unfold window_pass, claimed_window_pass.
    destruct (integral_images _ (cols img + wsize) (rows img + wsize))
      as [buffer1 buffer2].
    cbn [fst snd] in Htot.
    apply for_pixels_ext. intros y x [[dst rd]|] Hy Hx; [|reflexivity].
    destruct (Htot y x Hy Hx) as (-> & -> & ->). reflexivity.
  - unfold IsolateBg.binarizeUsingSauvola, claimed_binarizeUsingSauvola.
    cbv zeta.
    destruct ((cols img =? 0) || (rows img =? 0)
              || negb (pad_size_ok (cols img) (rows img) wsize)); [reflexivity|].
    destruct (integral_images _ (cols img + wsize) (rows img + wsize))
      as [buffer1 buffer2].
    cbn [fst snd] in Htot.
    match goal with
    | |- match ?a with _ => _ end = match ?b with _ => _ end =>
        replace a with b; [reflexivity|]
    end.
    apply for_pixels_ext. intros y x [dst|] Hy Hx; [|reflexivity].
    destruct (Htot y x Hy Hx) as (-> & -> & ->). reflexivity.
  - intros y x Hy Hx.
    pose proof (win_n_ceil wsize) as Hn. pose proof (win_n_win_p wsize) as Hnp.
    rewrite win_n_claimed in Hn, Hnp. unfold win_p in Hnp.
    fold (claimed_trailing wsize) in Hnp.
    destruct (Htot y x Hy Hx) as (_ & _ & Hc).
    fold (padded img wsize) in Hc. rewrite win_n_claimed, padded_claimed in Hc.
    cbn [claimed_padded mat_tabulate rows cols].
    split_and!; try lia; exact Hc.
Qed.

Lemma padding_covers_window_witness :
  let cfg := config_of OUT_BINARY 3 0.4 1 1 0 in
  let img := image_C1 in
  1 <= 3
  /\ win_n 3 = claimed_leading 3
  /\ win_p 3 = claimed_trailing 3
  /\ window_pass cfg img (mkMat 0 0 []) 3
     = claimed_window_pass cfg img (mkMat 0 0 []) 3
  /\ IsolateBg.binarizeUsingSauvola (mkMat 0 0 []) img 3 0.4 1
     = claimed_binarizeUsingSauvola (mkMat 0 0 []) img 3 0.4 1
  /\ forall y x, y < rows img -> x < cols img ->
       y + 1 + 3 <= rows (claimed_padded img 3)
       /\ x + 1 + 3 <= cols (claimed_padded img 3)
       /\ (y + 1 <= y + claimed_leading 3 < y + 1 + 3)
       /\ (x + 1 <= x + claimed_leading 3 < x + 1 + 3)
       /\ mat_at (claimed_padded img 3) (y + claimed_leading 3)
                 (x + claimed_leading 3) = mat_at img y x.
Proof.
  intros cfg img. split; [lia|].
  apply (padding_covers_window cfg img (mkMat 0 0 []) (mkMat 0 0 []) 3 0.4 1).
  lia.
Defined.

(** ** Mask commands *)

Lemma mask_threshold_distance_binary img tmp width :
  mat_wf img ->
  let r := mask_threshold_distance img tmp width in
  (mat_wf r /\ rows r = rows img /\ cols r = cols img)
  /\ forall y x, y < rows img -> x < cols img ->
       mat_at r y x = 0%Z \/ mat_at r y x = 255%Z.
Proof.
  intros Hwf. unfold mask_threshold_distance.
  apply (for_pixels_rule (rows img) (cols img) _
           (fun m => mat_wf m /\ rows m = rows img /\ cols m = cols img)
           (fun y x m => mat_at m y x = 0%Z \/ mat_at m y x = 255%Z)).
  - auto.
  - intros y x m Hy Hx (Hwf' & Hr & Hc). split.
    + split_and!; auto using mat_set_wf.
    + rewrite mat_at_set_eq by (auto; lia).
      destruct (_ <=? _)%float; auto.
  - intros y x y' x' m Hy Hx Hy' Hx' Hne (Hwf' & Hr & Hc) HQ.
    rewrite mat_at_set_ne by (auto; lia). exact HQ.
Qed.

Section MaskCommands.
Variable distanceTransform : Mat Z -> DistanceType -> Mat float.
Variable floodFill : Mat Z -> nat -> nat -> Z -> Mat Z.

(** C10. For every mask of arbitrary samples and every distance, after
    an inset under the L1 or the L2 norm every sample of the mask is 0
    or 255: in the commands of mask-op and in [maskInset] of
    isolate-bg. *)
Theorem inset_binarizes (img : Mat Z) (width : float) :
  mat_wf img ->
  forall y x, y < rows img -> x < cols img ->
    let l2 := run_command distanceTransform floodFill img
                (mkCommand MASK_CMD_INSET_L2 width) in
    let l1 := run_command distanceTransform floodFill img
                (mkCommand MASK_CMD_INSET_L1 width) in
    let iso := IsolateBg.maskInset distanceTransform img width in
    (mat_at l2 y x = 0%Z \/ mat_at l2 y x = 255%Z)
    /\ (mat_at l1 y x = 0%Z \/ mat_at l1 y x = 255%Z)
    /\ (mat_at iso y x = 0%Z \/ mat_at iso y x = 255%Z).
Proof using Type.
  intros Hwf y x Hy Hx. cbv zeta. unfold run_command, IsolateBg.maskInset. simpl.
  split_and!; apply mask_threshold_distance_binary; assumption.
Qed.
End MaskCommands.

Lemma inset_binarizes_witness :
  mat_wf mask_C10 /\ 1 < rows mask_C10 /\ 2 < cols mask_C10
  /\ let l2 := run_command ref_distanceTransform (fun m _ _ _ => m) mask_C10
                 (mkCommand MASK_CMD_INSET_L2 1) in
     let l1 := run_command ref_distanceTransform (fun m _ _ _ => m) mask_C10
                 (mkCommand MASK_CMD_INSET_L1 1) in
     let iso := IsolateBg.maskInset ref_distanceTransform mask_C10 1 in
     (mat_at l2 1 2 = 0%Z \/ mat_at l2 1 2 = 255%Z)
     /\ (mat_at l1 1 2 = 0%Z \/ mat_at l1 1 2 = 255%Z)
     /\ (mat_at iso 1 2 = 0%Z \/ mat_at iso 1 2 = 255%Z).
Proof.
  split_and!; [reflexivity|simpl; lia|simpl; lia|].
  apply (inset_binarizes ref_distanceTransform (fun m _ _ _ => m) mask_C10 1).
  - reflexivity.
  - simpl. lia.
  - simpl. lia.
Defined.

(** A negative [double] and its opposite. *)
Lemma negative_width (width : float) :
  (width <? 0)%float = true ->
  (- width)%float = abs width /\ (abs width <? 0)%float = false.
Proof.
  intros H. rewrite ltb_spec in H.
  change (Prim2SF 0) with (S754_zero false) in H. split.
  - apply Prim2SF_inj. rewrite opp_spec, abs_spec.
    destruct (Prim2SF width) as [s|s| |s m e]; try discriminate;
      destruct s; try discriminate; reflexivity.
  - rewrite ltb_spec, abs_spec. change (Prim2SF 0) with (S754_zero false).
    destruct (Prim2SF width) as [s|s| |s m e]; reflexivity.
Qed.

(** C7. For every mask, distance and norm, the outset command is
    dispatched as the three commands negate, inset, negate, and a
    negative distance given to inset (to outset) is dispatched as outset
    (as inset) of its absolute value; [argparse] does so option by
    option, and the list of commands is complete before [main] runs it
    on the mask. *)
Theorem outset_dispatch (commands : list ProgramCommand) (width : float) :
  ((width <? 0)%float = false ->
   argparse_option commands "o" width
   = Some (commands ++ [command_of MASK_CMD_NEG; mkCommand MASK_CMD_INSET_L2 width;
                        command_of MASK_CMD_NEG])
   /\ argparse_option commands "O" width
      = Some (commands ++ [command_of MASK_CMD_NEG; mkCommand MASK_CMD_INSET_L1 width;
                           command_of MASK_CMD_NEG])
   /\ argparse_option commands "i" width
      = Some (commands ++ [mkCommand MASK_CMD_INSET_L2 width])
   /\ argparse_option commands "I" width
      = Some (commands ++ [mkCommand MASK_CMD_INSET_L1 width]))
  /\ ((width <? 0)%float = true ->
      (abs width <? 0)%float = false
      /\ argparse_option commands "i" width = argparse_option commands "o" (abs width)
      /\ argparse_option commands "I" width = argparse_option commands "O" (abs width)
      /\ argparse_option commands "o" width = argparse_option commands "i" (abs width)
      /\ argparse_option commands "O" width = argparse_option commands "I" (abs width))
  /\ (forall opts opt,
        argparse_commands (opts ++ [(opt, width)])
        = match argparse_commands opts with
          | Some commands => argparse_option commands opt width
          | None => None
          end)
  /\ (forall distanceTransform floodFill (img : Mat Z),
        run_commands distanceTransform floodFill
          [command_of MASK_CMD_NEG; mkCommand MASK_CMD_INSET_L2 width;
           command_of MASK_CMD_NEG] img
        = mask_negate
            (mask_threshold_distance (mask_negate img)
               (distanceTransform (mask_negate img) CV_DIST_L2) width)
        /\ run_commands distanceTransform floodFill
             [command_of MASK_CMD_NEG; mkCommand MASK_CMD_INSET_L1 width;
              command_of MASK_CMD_NEG] img
           = mask_negate
               (mask_threshold_distance (mask_negate img)
                  (distanceTransform (mask_negate img) CV_DIST_L1) width)).
Proof.
  split_and!.
  - intros H. unfold argparse_option, distance_commands. rewrite H.
    split_and!; reflexivity.
  - intros H. destruct (negative_width width H) as [Hopp Habs].
    unfold argparse_option, distance_commands. rewrite H, Habs, Hopp.
    split_and!; reflexivity.
  - intros opts opt. unfold argparse_commands. rewrite foldl_app. reflexivity.
  - intros distanceTransform floodFill img. split; reflexivity.
Qed.

Lemma outset_dispatch_witness :
  ((2 <? 0)%float = false
   /\ argparse_option [] "o" 2
      = Some [command_of MASK_CMD_NEG; mkCommand MASK_CMD_INSET_L2 2;
              command_of MASK_CMD_NEG])
  /\ ((-3 <? 0)%float = true
      /\ argparse_option [] "i" (-3) = argparse_option [] "o" (abs (-3))
      /\ argparse_option [] "O" (-3) = argparse_option [] "I" (abs (-3))).
Proof.
  split.
  - split; [reflexivity|].
    destruct (outset_dispatch [] 2) as [H _]. apply H. reflexivity.
  - split; [reflexivity|].
    destruct (outset_dispatch [] (-3)) as (_ & H & _ & _).
    destruct (H eq_refl) as (_ & Hi & _ & _ & HO). split; assumption.
Defined.

(** ** Inpainting *)

Lemma saturate_uchar_double_of_Z v :
  (0 <= v <= 255)%Z -> saturate_uchar (double_of_Z v) = v.
Proof.
  intros Hv.
  assert (H : forallb (fun n => (saturate_uchar (double_of_Z (Z.of_nat n))
                                 =? Z.of_nat n)%Z) (seq 0 256) = true)
    by (vm_compute; reflexivity).
  rewrite forallb_forall in H. specialize (H (Z.to_nat v)).
  rewrite Z2Nat.id in H by lia. apply Z.eqb_eq, H, in_seq. lia.
Qed.

Lemma Vec3f_to_Vec3b_to_Vec3f (c : Vec3b) :
  (0 <= c.1.1 <= 255)%Z /\ (0 <= c.1.2 <= 255)%Z /\ (0 <= c.2 <= 255)%Z ->
  Vec3f_to_Vec3b (Vec3b_to_Vec3f c) = c.
Proof.
  destruct c as [[c0 c1] c2]. simpl. intros (H0 & H1 & H2).
  unfold Vec3f_to_Vec3b, Vec3b_to_Vec3f. simpl.
  rewrite !saturate_uchar_double_of_Z by assumption. reflexivity.
Qed.

Lemma mat_at_map {A B : Type} `{!Inhabited A, !Inhabited B} (f : A -> B)
    (m : Mat A) y x :
  mat_wf m -> y < rows m -> x < cols m ->
  mat_at (mat_map f m) y x = f (mat_at m y x).
Proof.
  unfold mat_wf, mat_at, mat_map. simpl. intros Hwf Hy Hx.
  apply list_lookup_total_correct. rewrite list_lookup_fmap.
  rewrite list_lookup_lookup_total_lt; [reflexivity|].
  rewrite Hwf. apply flat_index_lt; assumption.
Qed.

Lemma mat_map_wf {A B : Type} (f : A -> B) (m : Mat A) :
  mat_wf m -> mat_wf (mat_map f m).
Proof. unfold mat_wf, mat_map. simpl. rewrite length_map. auto. Qed.

Section MaskedLoops.
Context {T : Type} `{!Inhabited T}.
Variable mask : Mat Z.
Variables h w : nat.
Implicit Types m : Mat T.

Lemma kept_refl m : kept mask m m.
Proof using Type. unfold kept. auto. Qed.

Lemma kept_set (m0 m : Mat T) y x v :
  kept mask m0 m -> x < cols m0 -> masked mask y x = true -> kept mask m0 (mat_set m y x v).
Proof using Type.
  intros (Hr & Hc & Hwf & Hat) Hx Hm. unfold kept. simpl. split_and!; auto.
  - intros H0. apply mat_set_wf. auto.
  - intros y' x' Hx' Hm'. rewrite mat_at_set_ne; [auto|lia|lia|].
    intros [= -> ->]. congruence.
Qed.

Lemma for_pixels_kept (body : nat -> nat -> Mat T -> Mat T) (m0 : Mat T) :
  cols m0 = w ->
  (forall y x m, y < h -> x < w ->
     body y x m = m \/ (masked mask y x = true /\ exists v, body y x m = mat_set m y x v)) ->
  kept mask m0 (for_pixels h w body m0).
Proof using Type.
  intros Hc Hbody. apply (for_pixels_inv h w body (kept mask m0)).
  - apply kept_refl.
  - intros y x m Hy Hx Hk.
    destruct (Hbody y x m Hy Hx) as [->|(Hm & v & ->)]; [exact Hk|].
    apply kept_set; auto. lia.
Qed.

Lemma fill_masked_kept (c : T) (dst : Mat T) :
  cols dst = w -> kept mask dst (IsolateBg.fill_masked mask h w c dst).
Proof using Type.
  intros Hc. apply for_pixels_kept; [exact Hc|].
  intros y x m _ _. destruct (masked mask y x); eauto.
Qed.

Lemma overwrite_masked_kept (tmp dst : Mat T) :
  cols dst = w -> kept mask dst (IsolateBg.overwrite_masked mask h w tmp dst).
Proof using Type.
  intros Hc. apply for_pixels_kept; [exact Hc|].
  intros y x m _ _. destruct (masked mask y x); eauto.
Qed.

Lemma kept_trans (m0 m1 m2 : Mat T) :
  kept mask m0 m1 -> kept mask m1 m2 -> kept mask m0 m2.
Proof using Type.
  intros (Hr & Hc & Hwf & Hat) (Hr' & Hc' & Hwf' & Hat'). unfold kept.
  split_and!; try congruence; auto.
  intros y x Hx Hm. rewrite Hat' by (auto; lia). auto.
Qed.

(** The turns of one ring either find nothing, and then no pixel of the
    ring is an unmasked pixel of the image, or write the pixel. *)
Lemma ring_loop y x d (dst : Mat T) :
  let st := for_loop d (IsolateBg.ring_step mask h w y x d) (dst, false) in
  (st = (dst, false)
   /\ forall k c, k < d -> In c (IsolateBg.neighbor_candidates x y d k) ->
        IsolateBg.neighbor_ok mask h w c = false)
  \/ (st.2 = true /\ exists v, st.1 = mat_set dst y x v).
Proof using Type.
  cbv zeta.
  pose (Pin := fun (n : nat) (st : Mat T * bool) =>
    (st = (dst, false)
     /\ forall k c, k < n -> In c (IsolateBg.neighbor_candidates x y d k) ->
          IsolateBg.neighbor_ok mask h w c = false)
    \/ (st.2 = true /\ exists v, st.1 = mat_set dst y x v)).
  apply (for_loop_ind Pin).
  - left. split; [reflexivity|]. intros; lia.
  - intros k st Hk [[-> Hnone]|[Hok Hv]].
    + unfold IsolateBg.ring_step. cbn [fst snd].
      destruct (List.find (IsolateBg.neighbor_ok mask h w)
                  (IsolateBg.neighbor_candidates x y d k)) as [XY|] eqn:Ef.
      * right. cbn [fst snd]. eauto.
      * left. split; [reflexivity|]. intros k' c Hk' Hin.
        destruct (decide (k' = k)) as [->|Hne].
        -- apply (List.find_none _ _ Ef c Hin).
        -- apply (Hnone k' c); [lia|exact Hin].
    + right. unfold IsolateBg.ring_step. rewrite Hok. auto.
Qed.

(** Every pixel at the distance [d] of [(x, y)] is tested in the ring [d]. *)
Lemma ring_covers x y d (X0 Y0 : Z) :
  1 <= d ->
  (Z.abs (X0 - Z.of_nat x) + Z.abs (Y0 - Z.of_nat y) = Z.of_nat d)%Z ->
  exists k, k < d /\ In (X0, Y0) (IsolateBg.neighbor_candidates x y d k).
Proof using Type.
  intros Hd HD. unfold IsolateBg.neighbor_candidates.
  destruct (Z_lt_le_dec (Y0 - Z.of_nat y) 0) as [Hy|Hy];
    destruct (Z_lt_le_dec (X0 - Z.of_nat x) 0) as [Hx|Hx].
  - exists (Z.to_nat (Z.of_nat y - Y0)). split; [lia|].
    right; right; right; left. f_equal; lia.
  - exists (Z.to_nat (X0 - Z.of_nat x)). split; [lia|].
    left. f_equal; lia.
  - destruct (Z.eq_dec Y0 (Z.of_nat y)) as [->|Hne].
    + exists 0. split; [lia|]. right; right; right; left. f_equal; lia.
    + exists (Z.to_nat (Z.of_nat x - X0)). split; [lia|].
      right; right; left. f_equal; lia.
  - destruct (Z.eq_dec X0 (Z.of_nat x)) as [->|Hne].
    + exists 0. split; [lia|]. right; right; left. f_equal; lia.
    + exists (Z.to_nat (Y0 - Z.of_nat y)). split; [lia|].
      right; left. f_equal; lia.
Qed.

(** No ring from [h + w] on holds a pixel of the image: a search that
    reaches it has no end. *)
Lemma ring_beyond_image y x d k c :
  y < h -> x < w -> h + w <= d -> k < d ->
  In c (IsolateBg.neighbor_candidates x y d k) ->
  IsolateBg.neighbor_ok mask h w c = false.
Proof using Type.
  intros Hy Hx Hd Hk Hin. unfold IsolateBg.neighbor_ok.
  destruct ((0 <=? c.1)%Z) eqn:E1; [|reflexivity].
  destruct ((c.1 <? Z.of_nat w)%Z) eqn:E2; [|reflexivity].
  destruct ((0 <=? c.2)%Z) eqn:E3; [|reflexivity].
  destruct ((c.2 <? Z.of_nat h)%Z) eqn:E4; [|reflexivity].
  apply Z.leb_le in E1, E3. apply Z.ltb_lt in E2, E4.
  unfold IsolateBg.neighbor_candidates in Hin. simpl in Hin.
  destruct Hin as [<-|[<-|[<-|[<-|[]]]]]; simpl in *; lia.
Qed.

(** The search from the ring [d] on ends at the ring of an unmasked
    pixel of the image, if not before, and writes the pixel. *)
Lemma ring_search_finds y x Y0 X0 fuel d (dst : Mat T) :
  Y0 < h -> X0 < w -> masked mask Y0 X0 = false ->
  1 <= d ->
  (Z.of_nat d <= Z.abs (Z.of_nat X0 - Z.of_nat x) + Z.abs (Z.of_nat Y0 - Z.of_nat y)
   < Z.of_nat d + Z.of_nat fuel)%Z ->
  exists v, IsolateBg.ring_search mask h w y x fuel d dst = Some (mat_set dst y x v).
Proof using Type.
  intros HY HX Hm. revert d. induction fuel as [|fuel IH]; intros d Hd HD; [lia|].
  simpl. destruct (ring_loop y x d dst) as [[-> Hnone]|[-> [v ->]]].
  - cbn [fst snd].
    destruct (decide (Z.abs (Z.of_nat X0 - Z.of_nat x)
                      + Z.abs (Z.of_nat Y0 - Z.of_nat y) = Z.of_nat d)%Z) as [E|E].
    + destruct (ring_covers x y d (Z.of_nat X0) (Z.of_nat Y0) Hd E) as (k & Hk & Hin).
      specialize (Hnone k _ Hk Hin). unfold IsolateBg.neighbor_ok in Hnone.
      cbn [fst snd] in Hnone. rewrite !Nat2Z.id, Hm in Hnone.
      rewrite !andb_false_iff, !Z.leb_gt, !Z.ltb_ge in Hnone.
      destruct Hnone as [[[[H|H]|H]|H]|H]; (lia || discriminate).
    + apply IH; lia.
  - eauto.
Qed.

(** [SUBCODE(T)] ends and writes only masked pixels, when the image has
    an unmasked pixel. *)
Lemma neighbor_fill_kept (dst : Mat T) :
  cols dst = w ->
  (exists Y0 X0, Y0 < h /\ X0 < w /\ masked mask Y0 X0 = false) ->
  exists m, IsolateBg.neighbor_fill mask h w dst = Some m /\ kept mask dst m.
Proof using Type.
  intros Hc (Y0 & X0 & HY & HX & Hm). unfold IsolateBg.neighbor_fill.
  apply (for_pixels_inv h w _ (fun st => exists m, st = Some m /\ kept mask dst m)).
  - exists dst. split; [reflexivity|apply kept_refl].
  - intros y x st Hy Hx (m & -> & Hk).
    destruct (masked mask y x) eqn:Hmask; [|eauto].
    assert (Hne : ~ (Y0 = y /\ X0 = x)) by (intros [-> ->]; congruence).
    destruct (ring_search_finds y x Y0 X0 (h + w) 1 m HY HX Hm) as [v ->]; [lia|lia|].
    eexists. split; [reflexivity|]. apply kept_set; auto. lia.
Qed.
End MaskedLoops.

Lemma pixelExists_true mask h w :
  IsolateBg.pixelExists mask h w = true ->
  exists Y0 X0, Y0 < h /\ X0 < w /\ masked mask Y0 X0 = false.
Proof.
  unfold IsolateBg.pixelExists.
  apply (for_pixels_inv h w _
           (fun b : bool => b = true ->
              exists Y0 X0, Y0 < h /\ X0 < w /\ masked mask Y0 X0 = false)).
  - discriminate.
  - intros y x [|] Hy Hx IH; [auto|].
    intros Hm. exists y, x. split_and!; auto. apply negb_true_iff, Hm.
Qed.

Lemma pixelExists_false mask h w :
  (forall y x, y < h -> x < w -> masked mask y x = true) ->
  IsolateBg.pixelExists mask h w = false.
Proof.
  intros Hall. unfold IsolateBg.pixelExists.
  apply (for_pixels_inv h w _ (fun b : bool => b = false)); [reflexivity|].
  intros y x b Hy Hx ->. rewrite (Hall y x Hy Hx). reflexivity.
Qed.

Lemma mean_totals_masked src mask h w :
  (forall y x, y < h -> x < w -> masked mask y x = true) ->
  IsolateBg.mean_totals src mask h w = (0, 0, 0, 0)%Z.
Proof.
  intros Hall. unfold IsolateBg.mean_totals.
  destruct src as [s|s];
    (apply (for_pixels_inv h w _ (fun st => st = (0, 0, 0, 0)%Z)); [reflexivity|]);
    intros y x st Hy Hx ->; rewrite (Hall y x Hy Hx); reflexivity.
Qed.

Lemma image_kept_refl mask src : image_kept mask src src.
Proof. destruct src; apply kept_refl. Qed.

Lemma mean_init_kept src mask h w dst :
  image_cols src = w ->
  IsolateBg.mean_init src mask h w = Some dst -> image_kept mask src dst.
Proof.
  intros Hc. unfold IsolateBg.mean_init.
  destruct (IsolateBg.mean_totals src mask h w) as [[[totalR totalG] totalB] pixels].
  destruct (pixels =? 0)%Z; [discriminate|].
  destruct src as [s|s]; intros [= <-]; simpl; apply fill_masked_kept; exact Hc.
Qed.

Lemma neighbor_init_kept src mask h w :
  image_cols src = w ->
  IsolateBg.neighbor_init src mask h w = Some None
  \/ exists dst, IsolateBg.neighbor_init src mask h w = Some (Some dst)
                 /\ image_kept mask src dst.
Proof.
  intros Hc. unfold IsolateBg.neighbor_init.
  destruct (IsolateBg.pixelExists mask h w) eqn:E; [|left; reflexivity].
  right. apply pixelExists_true in E. cbn [negb].
  destruct src as [s|s];
    destruct (neighbor_fill_kept mask h w s Hc E) as (m & -> & Hk); eauto.
Qed.

Section Diffusion.
Variable filter2D : Mat float -> Mat float.
Variable filter2D_C3 : Mat Vec3f -> Mat Vec3f.
Variable mask : Mat Z.
Variables h w : nat.

Lemma diffusion_loop_kept {T : Type} `{!Inhabited T} (filter : Mat T -> Mat T)
    (iterations : nat) (d : Mat T) :
  cols d = w ->
  kept mask d
    (for_loop iterations
       (fun _ d => IsolateBg.overwrite_masked mask h w (filter d) d) d).
Proof using Type.
  intros Hc. induction iterations as [|n IH]; simpl; [apply kept_refl|].
  eapply kept_trans; [exact IH|].
  apply overwrite_masked_kept. destruct IH as (_ & -> & _). exact Hc.
Qed.

(** The diffusion, with its two conversions, gives back the unmasked
    pixels that hold [unsigned char] samples. *)
Lemma diffuse_kept (dst : Image) (iterations : nat) :
  image_wf dst -> image_rows dst = h -> image_cols dst = w ->
  let r := IsolateBg.diffuse filter2D filter2D_C3 dst mask h w iterations in
  image_rows r = h /\ image_cols r = w
  /\ forall y x, y < h -> x < w -> masked mask y x = false ->
       pixel_8bit dst y x -> same_pixel dst r y x.
Proof using Type.
  intros Hwf Hr Hc. destruct dst as [d|d]; simpl in *.
  - pose proof (diffusion_loop_kept filter2D iterations (mat_map double_of_Z d) Hc)
      as (Hr' & Hc' & Hwf' & Hat).
    simpl in Hr', Hc'. split_and!; try congruence.
    intros y x Hy Hx Hm H8.
    rewrite mat_at_map; [|auto using mat_map_wf|lia|lia].
    rewrite Hat by (simpl; auto; lia).
    rewrite mat_at_map by (auto; lia).
    symmetry. apply saturate_uchar_double_of_Z, H8.
  - pose proof (diffusion_loop_kept filter2D_C3 iterations (mat_map Vec3b_to_Vec3f d) Hc)
      as (Hr' & Hc' & Hwf' & Hat).
    simpl in Hr', Hc'. split_and!; try congruence.
    intros y x Hy Hx Hm H8.
    rewrite mat_at_map; [|auto using mat_map_wf|lia|lia].
    rewrite Hat by (simpl; auto; lia).
    rewrite mat_at_map by (auto; lia).
    symmetry. apply Vec3f_to_Vec3b_to_Vec3f, H8.
Qed.
End Diffusion.

Lemma image_8bit_pixel img y x :
  image_wf img -> image_8bit img -> y < image_rows img -> x < image_cols img ->
  pixel_8bit img y x.
Proof.
  destruct img as [m|m]; simpl; intros Hwf H8 Hy Hx.
  - unfold is_8bit in H8. rewrite Forall_forall in H8.
    apply H8, mat_at_elem; auto.
  - unfold is_8bit_C3 in H8. rewrite Forall_forall in H8.
    apply (H8 (mat_at m y x)), mat_at_elem; auto.
Qed.

(** What [fastInpaint] returns after an initialization that wrote only
    masked pixels. *)
Lemma diffuse_after_init filter2D filter2D_C3 mask src dst iterations :
  image_wf src -> image_8bit src -> image_kept mask src dst ->
  let r := IsolateBg.diffuse filter2D filter2D_C3 dst mask
             (image_rows src) (image_cols src) iterations in
  image_rows r = image_rows src /\ image_cols r = image_cols src
  /\ forall y x, y < image_rows src -> x < image_cols src ->
       masked mask y x = false -> same_pixel src r y x.
Proof.
  intros Hwf H8 Hk.
  assert (Hdst : image_wf dst /\ image_rows dst = image_rows src
                 /\ image_cols dst = image_cols src
                 /\ forall y x, y < image_rows src -> x < image_cols src ->
                      masked mask y x = false ->
                      same_pixel src dst y x /\ pixel_8bit dst y x).
  { pose proof (image_8bit_pixel src) as Hp.
    destruct src as [s|s], dst as [d|d]; simpl in *; try contradiction;
      destruct Hk as (Hr & Hc & Hwf' & Hat); split_and!; auto;
      intros y x Hy Hx Hm; rewrite (Hat y x Hx Hm); auto. }
  destruct Hdst as (Hwfd & Hr & Hc & Hsame).
  destruct (diffuse_kept filter2D filter2D_C3 mask (image_rows src) (image_cols src)
              dst iterations Hwfd Hr Hc) as (Hr' & Hc' & Hd).
  split_and!; auto. intros y x Hy Hx Hm.
  destruct (Hsame y x Hy Hx Hm) as [Hs Hp]. specialize (Hd y x Hy Hx Hm Hp).
  destruct src as [s|s], dst as [d|d]; simpl in *; try contradiction; congruence.
Qed.

(** C9. For every image, mask, initialization mode and iteration count,
    [fastInpaint] returns, and every pixel at which the mask is zero
    holds in its output the value that it has in the source: the
    initialization and the iterations of the diffusion overwrite masked
    pixels only. *)
Theorem inpaint_keeps_unmasked
    (filter2D : Mat float -> Mat float) (filter2D_C3 : Mat Vec3f -> Mat Vec3f)
    (src : Image) (mask : Mat Z) (initMode : IsolateBg.InpaintInitMode)
    (iterations : nat) :
  image_wf src -> image_8bit src ->
  exists ok dst,
    IsolateBg.fastInpaint filter2D filter2D_C3 src mask initMode iterations
    = Some (ok, dst)
    /\ image_rows dst = image_rows src /\ image_cols dst = image_cols src
    /\ forall y x, y < image_rows src -> x < image_cols src ->
         mat_at mask y x = 0%Z -> same_pixel src dst y x.
Proof.
  intros Hwf H8.
  assert (Hsrc : forall y x, same_pixel src src y x)
    by (intros; destruct src; reflexivity).
  assert (Hmasked : forall y x, mat_at mask y x = 0%Z -> masked mask y x = false)
    by (intros y x E; unfold masked; rewrite E; reflexivity).
  unfold IsolateBg.fastInpaint.
  destruct initMode.
  - destruct (IsolateBg.mean_init src mask (image_rows src) (image_cols src))
      as [dst|] eqn:E.
    + apply mean_init_kept in E; [|reflexivity].
      destruct (diffuse_after_init filter2D filter2D_C3 mask src dst iterations
                  Hwf H8 E) as (Hr & Hc & Hs).
      eexists _, _. split_and!; eauto.
    + eexists _, _. split_and!; eauto.
  - destruct (neighbor_init_kept src mask (image_rows src) (image_cols src) eq_refl)
      as [->|(dst & -> & E)].
    + eexists _, _. split_and!; eauto.
    + destruct (diffuse_after_init filter2D filter2D_C3 mask src dst iterations
                  Hwf H8 E) as (Hr & Hc & Hs).
      eexists _, _. split_and!; eauto.
Qed.

Lemma image_C9_8bit : image_8bit image_C9.
Proof. unfold image_8bit, image_C9, is_8bit. simpl. repeat constructor; lia. Defined.

Lemma inpaint_keeps_unmasked_witness :
  image_wf image_C9 /\ image_8bit image_C9
  /\ exists ok dst,
       IsolateBg.fastInpaint ref_filter2D ref_filter2D_C3 image_C9 mask_C9
         IsolateBg.ISOBG_INPAINT_INIT_NEIGHBOR_L1 3 = Some (ok, dst)
       /\ image_rows dst = image_rows image_C9
       /\ image_cols dst = image_cols image_C9
       /\ forall y x, y < image_rows image_C9 -> x < image_cols image_C9 ->
            mat_at mask_C9 y x = 0%Z -> same_pixel image_C9 dst y x.
Proof.
  split; [reflexivity|]. split; [exact image_C9_8bit|].
  apply (inpaint_keeps_unmasked ref_filter2D ref_filter2D_C3 image_C9 mask_C9
           IsolateBg.ISOBG_INPAINT_INIT_NEIGHBOR_L1 3).
  - reflexivity.
  - exact image_C9_8bit.
Defined.

(** ** Degenerate input *)

(** On a mask that is nonzero at every pixel both initialization modes
    make [fastInpaint] return [false], with [dst] a copy of the source. *)
Lemma fastInpaint_fully_masked filter2D filter2D_C3 src mask initMode iterations :
  (forall y x, y < image_rows src -> x < image_cols src -> mat_at mask y x <> 0%Z) ->
  IsolateBg.fastInpaint filter2D filter2D_C3 src mask initMode iterations
  = Some (false, src).
Proof.
  intros Hall.
  assert (Hm : forall y x, y < image_rows src -> x < image_cols src ->
                 masked mask y x = true).
  { intros y x Hy Hx. unfold masked. apply negb_true_iff, Z.eqb_neq, Hall; auto. }
  unfold IsolateBg.fastInpaint. destruct initMode.
  - unfold IsolateBg.mean_init. rewrite (mean_totals_masked _ _ _ _ Hm). reflexivity.
  - unfold IsolateBg.neighbor_init. rewrite (pixelExists_false _ _ _ Hm). reflexivity.
Qed.

(** C8 (the code at the failing input). On the image [0 0 255], with a
    window of 1, the mask that [main] of isolate-bg derives is nonzero
    at every pixel; [fastInpaint] returns [false] in both initialization
    modes; [main] does not test the flag: with the options
    [-w 1 -B -A 1] it hands the copy of the input to [imwrite] and
    returns 0. *)
Theorem fully_masked_run_continues
    (GaussianBlur : Image -> nat -> Image) (cvtColor : Mat Vec3b -> Mat Z) :
  let img := mkMat 1 3 [0; 0; 255]%Z in
  let run initMode :=
    IsolateBg.main ref_filter2D ref_filter2D_C3 ref_distanceTransform
      GaussianBlur cvtColor
      (isolate_config IsolateBg.OUT_BACKGROUND 1 initMode 1) (Gray img) in
  refined_mask img = Some (mkMat 1 3 [255; 255; 255]%Z)
  /\ IsolateBg.fastInpaint ref_filter2D ref_filter2D_C3 (Gray img)
       (mkMat 1 3 [255; 255; 255]%Z) IsolateBg.ISOBG_INPAINT_INIT_MEAN 16
     = Some (false, Gray img)
  /\ IsolateBg.fastInpaint ref_filter2D ref_filter2D_C3 (Gray img)
       (mkMat 1 3 [255; 255; 255]%Z) IsolateBg.ISOBG_INPAINT_INIT_NEIGHBOR_L1 16
     = Some (false, Gray img)
  /\ run IsolateBg.ISOBG_INPAINT_INIT_MEAN = Some (0%Z, Gray img)
  /\ run IsolateBg.ISOBG_INPAINT_INIT_NEIGHBOR_L1 = Some (0%Z, Gray img).
Proof. vm_compute. repeat split; reflexivity. Qed.

(** * Further properties of the code *)

(** ** Loops over the pixels in row-major order *)

Lemma for_pixels_order {St : Type} (h w : nat) (body : nat -> nat -> St -> St)
    (I : nat -> nat -> St -> Prop) (s : St) :
  I 0 0 s ->
  (forall y x s, y < h -> x < w -> I y x s -> I y (S x) (body y x s)) ->
  (forall y s, y < h -> I y w s -> I (S y) 0 s) ->
  I h 0 (for_pixels h w body s).
Proof.
  intros H0 Hstep Hrow. unfold for_pixels.
  apply (for_loop_ind (fun y s => I y 0 s)); [exact H0|].
  intros y s0 Hy HI. apply Hrow; [exact Hy|].
  apply (for_loop_ind (fun x s => I y x s)); [exact HI|].
  intros x s1 Hx HI1. apply Hstep; assumption.
Qed.

Section Pointwise.
Context {T : Type} `{!Inhabited T}.

(** Two matrices of the same size that agree at every pixel are equal. *)
Lemma mat_ext (m m' : Mat T) :
  mat_wf m -> mat_wf m' -> rows m = rows m' -> cols m = cols m' ->
  (forall y x, y < rows m -> x < cols m -> mat_at m y x = mat_at m' y x) ->
  m = m'.
Proof.
  destruct m as [r c l], m' as [r' c' l']. unfold mat_wf, mat_at. simpl.
  intros Hl Hl' <- <- Hat. f_equal.
  apply (list_eq_same_length _ _ (r * c)); auto.
  intros i a b Hi Ha Hb.
  assert (Hc : 0 < c) by nia.
  pose proof (Nat.div_mod_eq i c) as E.
  pose proof (Nat.mod_upper_bound i c) as B.
  assert (Hy : i / c < r).
  { apply Nat.Div0.div_lt_upper_bound. lia. }
  specialize (Hat (i / c) (i mod c) Hy ltac:(lia)).
  replace (i / c * c + i mod c) with i in Hat by lia.
  apply list_lookup_total_correct in Ha, Hb. congruence.
Qed.

(** A loop that replaces each sample by a function of its position and
    of itself. *)
Lemma for_pixels_pointwise (h w : nat) (body : nat -> nat -> Mat T -> Mat T)
    (g : nat -> nat -> T -> T) (m0 : Mat T) :
  mat_wf m0 -> rows m0 = h -> cols m0 = w ->
  (forall y x m, y < h -> x < w ->
     body y x m = mat_set m y x (g y x (mat_at m y x))
     \/ (body y x m = m /\ g y x (mat_at m y x) = mat_at m y x)) ->
  let r := for_pixels h w body m0 in
  mat_wf r /\ rows r = h /\ cols r = w
  /\ forall y x, y < h -> x < w -> mat_at r y x = g y x (mat_at m0 y x).
Proof.
  intros Hwf Hr Hc Hbody. cbv zeta.
  pose (I := fun (y x : nat) (m : Mat T) =>
    mat_wf m /\ rows m = h /\ cols m = w
    /\ forall y' x', y' < h -> x' < w ->
         (before y x y' x' -> mat_at m y' x' = g y' x' (mat_at m0 y' x'))
         /\ (~ before y x y' x' -> mat_at m y' x' = mat_at m0 y' x')).
  assert (HI : I h 0 (for_pixels h w body m0)).
  { apply (for_pixels_order h w body I).
    - unfold I, before. split_and!; auto. intros y' x' _ _. split; [lia|auto].
    - intros y x m Hy Hx (Hwf' & Hr' & Hc' & Hat).
      assert (Hcur : mat_at m y x = mat_at m0 y x).
      { apply Hat; auto. unfold before. lia. }
      destruct (Hbody y x m Hy Hx) as [->|[-> Hg]].
      + unfold I. split_and!; auto using mat_set_wf.
        intros y' x' Hy' Hx'.
        destruct (decide ((y', x') = (y, x))) as [[= -> ->]|Hne].
        * rewrite mat_at_set_eq by (auto; lia). rewrite Hcur.
          split; [reflexivity|]. unfold before. lia.
        * rewrite mat_at_set_ne by (auto; lia).
          destruct (Hat y' x' Hy' Hx') as [Hb Hnb].
          assert (Hyx : ~ (y' = y /\ x' = x)) by (intros [-> ->]; congruence).
          split; intros H; [apply Hb|apply Hnb]; unfold before in *; lia.
      + unfold I. split_and!; auto.
        intros y' x' Hy' Hx'. destruct (Hat y' x' Hy' Hx') as [Hb Hnb].
        destruct (decide (y' = y /\ x' = x)) as [[-> ->]|Hne].
        * split; [intros _; congruence|].
          unfold before. lia.
        * split; intros H; [apply Hb|apply Hnb]; unfold before in *; lia.
    - intros y m Hy (Hwf' & Hr' & Hc' & Hat). unfold I. split_and!; auto.
      intros y' x' Hy' Hx'. destruct (Hat y' x' Hy' Hx') as [Hb Hnb].
      split; intros H; [apply Hb|apply Hnb]; unfold before in *; lia. }
  destruct HI as (Hwf' & Hr' & Hc' & Hat). split_and!; auto.
  intros y x Hy Hx. apply Hat; auto. unfold before. lia.
Qed.
End Pointwise.

(** ** mask-op: negation *)

Lemma mask_negate_at img :
  mat_wf img ->
  let r := mask_negate img in
  mat_wf r /\ rows r = rows img /\ cols r = cols img
  /\ forall y x, y < rows img -> x < cols img ->
       mat_at r y x = uchar_of_int (255 - mat_at img y x).
Proof.
  intros Hwf. unfold mask_negate.
  apply (for_pixels_pointwise (rows img) (cols img) _
           (fun _ _ v => uchar_of_int (255 - v))); auto.
Qed.

Lemma is_8bit_at img y x :
  mat_wf img -> is_8bit img -> y < rows img -> x < cols img ->
  (0 <= mat_at img y x <= 255)%Z.
Proof.
  intros Hwf H8 Hy Hx. unfold is_8bit in H8. rewrite Forall_forall in H8.
  apply H8, mat_at_elem; auto.
Qed.

Lemma mask_negate_8bit img :
  mat_wf img -> is_8bit img ->
  forall y x, y < rows img -> x < cols img ->
    mat_at (mask_negate img) y x = (255 - mat_at img y x)%Z.
Proof.
  intros Hwf H8 y x Hy Hx.
  destruct (mask_negate_at img Hwf) as (_ & _ & _ & Hat).
  rewrite Hat by assumption. unfold uchar_of_int.
  pose proof (is_8bit_at img y x Hwf H8 Hy Hx). apply Z.mod_small. lia.
Qed.

Lemma mask_negate_twice img :
  mat_wf img -> is_8bit img -> mask_negate (mask_negate img) = img.
Proof.
  intros Hwf H8.
  destruct (mask_negate_at img Hwf) as (Hwf1 & Hr1 & Hc1 & Hat1).
  destruct (mask_negate_at (mask_negate img) Hwf1) as (Hwf2 & Hr2 & Hc2 & Hat2).
  apply mat_ext; auto; try congruence.
  intros y x Hy Hx. rewrite Hr2, Hr1 in Hy. rewrite Hc2, Hc1 in Hx.
  rewrite Hat2 by congruence. rewrite Hat1 by assumption.
  pose proof (is_8bit_at img y x Hwf H8 Hy Hx). unfold uchar_of_int.
  rewrite (Z.mod_small (255 - mat_at img y x)) by lia.
  rewrite Z.mod_small by lia. lia.
Qed.

(** X1. Negation is an involution on masks of [unsigned char] samples:
    it sends each sample [v] to [255 - v], and two negation commands in
    a row give back the mask, sample for sample. *)
Theorem mask_negate_involutive
    (distanceTransform : Mat Z -> DistanceType -> Mat float)
    (floodFill : Mat Z -> nat -> nat -> Z -> Mat Z) (img : Mat Z) :
  mat_wf img -> is_8bit img ->
  (forall y x, y < rows img -> x < cols img ->
     mat_at (mask_negate img) y x = (255 - mat_at img y x)%Z)
  /\ run_commands distanceTransform floodFill
       [command_of MASK_CMD_NEG; command_of MASK_CMD_NEG] img = img.
Proof.
  intros Hwf H8. split.
  - apply mask_negate_8bit; assumption.
  - apply mask_negate_twice; assumption.
Qed.

Lemma mask_C10_8bit : is_8bit mask_C10.
Proof. unfold is_8bit, mask_C10. simpl. repeat constructor; lia. Defined.

Lemma mask_negate_involutive_witness :
  (mat_wf mask_C10 /\ is_8bit mask_C10)
  /\ (forall y x, y < rows mask_C10 -> x < cols mask_C10 ->
        mat_at (mask_negate mask_C10) y x = (255 - mat_at mask_C10 y x)%Z)
  /\ run_commands ref_distanceTransform (fun m _ _ _ => m)
       [command_of MASK_CMD_NEG; command_of MASK_CMD_NEG] mask_C10 = mask_C10.
Proof.
  split; [split; [reflexivity|exact mask_C10_8bit]|].
  apply (mask_negate_involutive ref_distanceTransform (fun m _ _ _ => m) mask_C10).
  - reflexivity.
  - exact mask_C10_8bit.
Defined.

(** ** mask-op: inset and outset *)

Lemma mask_negate_binary img :
  mat_wf img -> binary_mask img ->
  let r := mask_negate img in
  mat_wf r /\ rows r = rows img /\ cols r = cols img /\ binary_mask r.
Proof.
  intros Hwf Hb. destruct (mask_negate_at img Hwf) as (Hwf1 & Hr1 & Hc1 & Hat1).
  cbv zeta. split_and!; auto.
  intros y x Hy Hx. rewrite Hr1 in Hy. rewrite Hc1 in Hx.
  rewrite Hat1 by assumption.
  destruct (Hb y x Hy Hx) as [->| ->]; [right|left]; reflexivity.
Qed.

Lemma mask_threshold_distance_binary_mask img tmp width :
  mat_wf img ->
  let r := mask_threshold_distance img tmp width in
  mat_wf r /\ rows r = rows img /\ cols r = cols img /\ binary_mask r.
Proof.
  intros Hwf. cbv zeta.
  destruct (mask_threshold_distance_binary img tmp width Hwf) as ((H1 & H2 & H3) & H4).
  split_and!; auto. intros y x Hy Hx. apply H4; congruence.
Qed.

Lemma distance_commands_shape opt width :
  In opt ["i"; "I"; "o"; "O"]%char ->
  exists o w,
    (o = MASK_CMD_INSET_L2 \/ o = MASK_CMD_INSET_L1)
    /\ (distance_commands opt width = [mkCommand o w]
        \/ distance_commands opt width
           = [command_of MASK_CMD_NEG; mkCommand o w; command_of MASK_CMD_NEG]).
Proof.
  intros Hopt. unfold distance_commands.
  destruct (width <? 0)%float; destruct Hopt as [<-|[<-|[<-|[<-|[]]]]];
    cbn [Ascii.eqb Bool.eqb]; eauto 10.
Qed.

Section DistanceCommands.
Variable distanceTransform : Mat Z -> DistanceType -> Mat float.
Variable floodFill : Mat Z -> nat -> nat -> Z -> Mat Z.

Lemma inset_command_binary img type width :
  mat_wf img ->
  let r := mask_threshold_distance img (distanceTransform img type) width in
  mat_wf r /\ rows r = rows img /\ cols r = cols img /\ binary_mask r.
Proof using Type. apply mask_threshold_distance_binary_mask. Qed.

Lemma outset_command_binary img type width :
  mat_wf img ->
  let r := mask_negate
             (mask_threshold_distance (mask_negate img)
                (distanceTransform (mask_negate img) type) width) in
  mat_wf r /\ rows r = rows img /\ cols r = cols img /\ binary_mask r.
Proof using Type.
  intros Hwf. cbv zeta.
  destruct (mask_negate_at img Hwf) as (Hwf1 & Hr1 & Hc1 & _).
  destruct (inset_command_binary (mask_negate img) type width Hwf1)
    as (Hwf2 & Hr2 & Hc2 & Hb2).
  destruct (mask_negate_binary _ Hwf2 Hb2) as (Hwf3 & Hr3 & Hc3 & Hb3).
  split_and!; auto; congruence.
Qed.

(** X2. Whatever the samples of the mask and the sign of the distance,
    each of the options [-i], [-I], [-o] and [-O] leaves a mask of the
    same size whose samples are 0 or 255. *)
Theorem distance_option_binarizes (opt : ascii) (width : float) (img : Mat Z) :
  mat_wf img ->
  In opt ["i"; "I"; "o"; "O"]%char ->
  let r := run_commands distanceTransform floodFill
             (distance_commands opt width) img in
  mat_wf r /\ rows r = rows img /\ cols r = cols img /\ binary_mask r.
Proof using Type.
  intros Hwf Hopt. cbv zeta.
  destruct (distance_commands_shape opt width Hopt) as (o & w' & Ho & [-> | ->]);
    unfold run_commands, command_of; cbn [foldl]; unfold run_command; cbn [op dist];
    destruct Ho as [-> | ->].
  - apply (inset_command_binary img CV_DIST_L2); exact Hwf.
  - apply (inset_command_binary img CV_DIST_L1); exact Hwf.
  - apply (outset_command_binary img CV_DIST_L2); exact Hwf.
  - apply (outset_command_binary img CV_DIST_L1); exact Hwf.
Qed.

(** ** mask-op: border fill *)

(** X3. A mask whose border samples are all zero is left as it is by the
    border fill command: [floodFill] is not called. *)
Theorem fill_border_skips_clear_border (img : Mat Z) :
  1 <= rows img -> 1 <= cols img ->
  (forall x, x < cols img ->
     mat_at img 0 x = 0%Z /\ mat_at img (rows img - 1) x = 0%Z) ->
  (forall y, y < rows img ->
     mat_at img y 0 = 0%Z /\ mat_at img y (cols img - 1) = 0%Z) ->
  run_command distanceTransform floodFill img (command_of MASK_CMD_FILL_BORDER)
  = img.
Proof using Type.
  intros _ _ Hrow Hcol. unfold run_command, command_of. cbn [op].
  unfold mask_fill_border. cbv zeta.
  match goal with |- context [for_loop (cols img) ?b img] =>
    assert (E1 : for_loop (cols img) b img = img) end.
  { apply (for_loop_ind (fun _ m => m = img)); [reflexivity|].
    intros x m Hx ->. destruct (Hrow x Hx) as [Ha Hb].
    rewrite Ha. cbn [Z.eqb negb]. rewrite Hb. reflexivity. }
  rewrite E1.
  apply (for_loop_ind (fun _ m => m = img)); [reflexivity|].
  intros y m Hy ->. destruct (Hcol y Hy) as [Ha Hb].
  rewrite Ha. cbn [Z.eqb negb]. rewrite Hb. reflexivity.
Qed.

(** ** mask-op: the list of commands *)

Lemma argparse_option_app commands opt width :
  argparse_option commands opt width
  = option_map (app commands) (argparse_option [] opt width).
Proof. unfold argparse_option. repeat destruct (_ : bool); reflexivity. Qed.

Lemma argparse_commands_snoc opts o :
  argparse_commands (opts ++ [o])
  = match argparse_commands opts with
    | Some commands => argparse_option commands o.1 o.2
    | None => None
    end.
Proof. unfold argparse_commands. rewrite foldl_app. reflexivity. Qed.

Lemma argparse_commands_app opts1 opts2 :
  argparse_commands (opts1 ++ opts2)
  = match argparse_commands opts1, argparse_commands opts2 with
    | Some c1, Some c2 => Some (c1 ++ c2)
    | _, _ => None
    end.
Proof.
  induction opts2 as [|o opts2 IH] using rev_ind.
  - rewrite app_nil_r. change (argparse_commands []) with (Some (@nil ProgramCommand)).
    destruct (argparse_commands opts1); [rewrite app_nil_r|]; reflexivity.
  - rewrite app_assoc, !argparse_commands_snoc, IH.
    destruct (argparse_commands opts1) as [c1|],
             (argparse_commands opts2) as [c2|]; try reflexivity.
    rewrite (argparse_option_app (c1 ++ c2)), (argparse_option_app c2).
    destruct (argparse_option [] o.1 o.2); simpl; [rewrite app_assoc|]; reflexivity.
Qed.

(** X4. The commands run in the order of the options: running the
    options [opts1 ++ opts2] on a mask is running [opts1] on it and
    [opts2] on the result, and an option that [argparse] refuses in
    either list stops the program. *)
Theorem mask_op_app (opts1 opts2 : list (ascii * float)) (img : Mat Z) :
  mask_op distanceTransform floodFill (opts1 ++ opts2) img
  = match mask_op distanceTransform floodFill opts1 img with
    | Some m => mask_op distanceTransform floodFill opts2 m
    | None => None
    end.
Proof using Type.
  unfold mask_op. rewrite argparse_commands_app.
  destruct (argparse_commands opts1) as [c1|],
           (argparse_commands opts2) as [c2|]; try reflexivity.
  unfold run_commands. rewrite foldl_app. reflexivity.
Qed.
End DistanceCommands.

Lemma distance_option_binarizes_witness :
  (mat_wf mask_C10 /\ In "O"%char ["i"; "I"; "o"; "O"]%char)
  /\ let r := run_commands ref_distanceTransform (fun m _ _ _ => m)
                (distance_commands "O" (-1)) mask_C10 in
     mat_wf r /\ rows r = rows mask_C10 /\ cols r = cols mask_C10 /\ binary_mask r.
Proof.
  split; [split; [reflexivity|simpl; auto]|].
  apply (distance_option_binarizes ref_distanceTransform (fun m _ _ _ => m)
           "O" (-1) mask_C10).
  - reflexivity.
  - simpl. auto.
Defined.

Lemma fill_border_skips_clear_border_witness :
  (1 <= rows mask_island /\ 1 <= cols mask_island
   /\ (forall x, x < cols mask_island ->
         mat_at mask_island 0 x = 0%Z
         /\ mat_at mask_island (rows mask_island - 1) x = 0%Z)
   /\ (forall y, y < rows mask_island ->
         mat_at mask_island y 0 = 0%Z
         /\ mat_at mask_island y (cols mask_island - 1) = 0%Z))
  /\ run_command ref_distanceTransform (fun m _ _ v => mat_new (rows m) (cols m) v)
       mask_island (command_of MASK_CMD_FILL_BORDER) = mask_island.
Proof.
  assert (H1 : forall x, x < cols mask_island ->
             mat_at mask_island 0 x = 0%Z
             /\ mat_at mask_island (rows mask_island - 1) x = 0%Z).
  { intros x Hx. simpl in Hx.
    destruct x as [|[|[|x]]]; [split; reflexivity..|lia]. }
  assert (H2 : forall y, y < rows mask_island ->
             mat_at mask_island y 0 = 0%Z
             /\ mat_at mask_island y (cols mask_island - 1) = 0%Z).
  { intros y Hy. simpl in Hy.
    destruct y as [|[|[|y]]]; [split; reflexivity..|lia]. }
  split.
  - split_and!; [simpl; lia|simpl; lia|exact H1|exact H2].
  - apply (fill_border_skips_clear_border ref_distanceTransform
             (fun m _ _ v => mat_new (rows m) (cols m) v) mask_island);
      [simpl; lia|simpl; lia|exact H1|exact H2].
Defined.

(** ** binarize-sauvola: the size check *)

Lemma div_ge_iff (a b q : Z) :
  (0 < b)%Z -> (q <= a / b <-> b * q <= a)%Z.
Proof.
  intros Hb. split; intros H.
  - pose proof (Z.mul_div_le a b Hb). nia.
  - apply Z.div_le_lower_bound; assumption.
Qed.

Lemma pad_size_ok_spec w h wsize :
  1 <= w ->
  pad_size_ok w h wsize = true
  <-> (Z.of_nat w + Z.of_nat wsize <= INT_MAX
       /\ Z.of_nat h + Z.of_nat wsize <= INT_MAX
       /\ Z.of_nat (w + wsize) * Z.of_nat (h + wsize) <= INT_MAX)%Z.
Proof.
  intros Hw. unfold pad_size_ok.
  rewrite negb_true_iff, !orb_false_iff, !Z.ltb_ge.
  rewrite (div_ge_iff INT_MAX (Z.of_nat (w + wsize)) (Z.of_nat (h + wsize))) by lia.
  lia.
Qed.

(** X5. Once the image is known not to be empty, the size check of
    [main] passes exactly when the padded width [w + wsize], the padded
    height [h + wsize] and the number [pw * ph] of cells of an integral
    image are all at most [INT_MAX]. *)
Theorem pad_size_ok_area (w h wsize : nat) :
  1 <= w ->
  pad_size_ok w h wsize = true
  <-> (Z.of_nat w + Z.of_nat wsize <= INT_MAX
       /\ Z.of_nat h + Z.of_nat wsize <= INT_MAX
       /\ Z.of_nat (w + wsize) * Z.of_nat (h + wsize) <= INT_MAX)%Z.
Proof. apply pad_size_ok_spec. Qed.

Lemma pad_size_ok_area_witness :
  1 <= 2
  /\ (pad_size_ok 2 2 3 = true
      <-> (Z.of_nat 2 + Z.of_nat 3 <= INT_MAX
           /\ Z.of_nat 2 + Z.of_nat 3 <= INT_MAX
           /\ Z.of_nat (2 + 3) * Z.of_nat (2 + 3) <= INT_MAX)%Z).
Proof. split; [lia|]. apply (pad_size_ok_area 2 2 3). lia. Defined.

(** ** binarize-sauvola: integral images without wrap-around *)

Lemma prefix_sum_bounds (P : nat -> nat -> Z) (y x : nat) (c : Z) :
  (forall j i, j <= y -> i <= x -> (0 <= P j i <= c)%Z) ->
  (0 <= prefix_sum P y x <= Z.of_nat (S y) * (Z.of_nat (S x) * c))%Z.
Proof.
  intros H. unfold prefix_sum. apply sum_upto_bounds. intros j Hj.
  apply sum_upto_bounds. intros i Hi. apply H; lia.
Qed.

(** X6. For every image of [unsigned char] samples that passes the size
    check, no cell of the two integral images wraps around: each holds
    the sum of the padded image, respectively of its squares, over the
    rows up to its own and the columns up to its own. *)
Theorem integral_images_exact (img : Mat Z) (wsize j i : nat) :
  mat_wf img -> is_8bit img -> 1 <= rows img -> 1 <= cols img ->
  pad_size_ok (cols img) (rows img) wsize = true ->
  j < rows img + wsize -> i < cols img + wsize ->
  let pw := cols img + wsize in
  let b := integral_images (padded img wsize) pw (rows img + wsize) in
  b.1 !!! (pw * j + i) = prefix_sum (mat_at (padded img wsize)) j i
  /\ b.2 !!! (pw * j + i)
     = prefix_sum (fun j i => (mat_at (padded img wsize) j i
                               * mat_at (padded img wsize) j i)%Z) j i.
Proof.
  intros Hwf H8 Hh Hw Hpad Hj Hi. cbv zeta.
  apply pad_size_ok_spec in Hpad as (_ & _ & Harea); [|exact Hw].
  destruct (integral_images_filled (padded img wsize) (cols img + wsize)
              (rows img + wsize)) as [H1 H2]; [lia|].
  rewrite (filled_total _ _ _ _ _ j i H1) by lia.
  rewrite (filled_total _ _ _ _ _ j i H2) by lia.
  assert (HP : forall j' i', j' <= j -> i' <= i ->
            (0 <= mat_at (padded img wsize) j' i' <= 255)%Z).
  { intros j' i' Hj' Hi'. apply padded_8bit; auto; lia. }
  pose proof (prefix_sum_bounds (mat_at (padded img wsize)) j i 255 HP) as B1.
  assert (B2 : (0 <= prefix_sum (fun j i => (mat_at (padded img wsize) j i
                                             * mat_at (padded img wsize) j i)%Z) j i
                <= Z.of_nat (S j) * (Z.of_nat (S i) * 65025))%Z).
  { apply prefix_sum_bounds. intros j' i' Hj' Hi'.
    specialize (HP j' i' Hj' Hi'). nia. }
  assert (Hcells : (Z.of_nat (S j) * Z.of_nat (S i) <= INT_MAX)%Z) by nia.
  unfold INT_MAX in Hcells.
  split; apply wrap64_small; change (2 ^ 64)%Z with 18446744073709551616%Z; nia.
Qed.

Lemma integral_images_exact_witness :
  (mat_wf image_C1 /\ is_8bit image_C1 /\ 1 <= rows image_C1 /\ 1 <= cols image_C1
   /\ pad_size_ok (cols image_C1) (rows image_C1) 3 = true
   /\ 4 < rows image_C1 + 3 /\ 2 < cols image_C1 + 3)
  /\ let pw := cols image_C1 + 3 in
     let b := integral_images (padded image_C1 3) pw (rows image_C1 + 3) in
     b.1 !!! (pw * 4 + 2) = prefix_sum (mat_at (padded image_C1 3)) 4 2
     /\ b.2 !!! (pw * 4 + 2)
        = prefix_sum (fun j i => (mat_at (padded image_C1 3) j i
                                  * mat_at (padded image_C1 3) j i)%Z) 4 2.
Proof.
  assert (Hp : pad_size_ok (cols image_C1) (rows image_C1) 3 = true)
    by (vm_compute; reflexivity).
  split.
  - split_and!; [reflexivity|exact image_C1_8bit|simpl; lia|simpl; lia|exact Hp
                |simpl; lia|simpl; lia].
  - apply (integral_images_exact image_C1 3 4 2);
      [reflexivity|exact image_C1_8bit|simpl; lia|simpl; lia|exact Hp
      |simpl; lia|simpl; lia].
Defined.

(** ** binarize-sauvola: uniform images *)

Lemma mat_at_new {T : Type} `{!Inhabited T} (h w : nat) (v : T) y x :
  y < h -> x < w -> mat_at (mat_new h w v) y x = v.
Proof.
  intros Hy Hx. unfold mat_at, mat_new. simpl.
  apply list_lookup_total_correct, lookup_replicate_2.
  apply flat_index_lt; assumption.
Qed.

Lemma uniform_8bit h w v : (0 <= v <= 255)%Z -> is_8bit (uniform h w v).
Proof.
  intros Hv. unfold is_8bit, uniform, mat_new. simpl.
  apply Forall_replicate. exact Hv.
Qed.

Lemma sum_upto_const n c : sum_upto n (fun _ => c) = (Z.of_nat n * c)%Z.
Proof. induction n as [|n IH]; simpl sum_upto; [lia|]. rewrite IH. lia. Qed.

Lemma window_sum_const (P : nat -> nat -> Z) y0 x0 n c :
  (forall j i, j < n -> i < n -> P (y0 + j) (x0 + i) = c) ->
  window_sum P y0 x0 n = (Z.of_nat n * (Z.of_nat n * c))%Z.
Proof.
  intros H. unfold window_sum.
  rewrite (sum_upto_ext n _ (fun _ => (Z.of_nat n * c)%Z)).
  - apply sum_upto_const.
  - intros j Hj. rewrite (sum_upto_ext n _ (fun _ => c)).
    + apply sum_upto_const.
    + intros i Hi. apply H; assumption.
Qed.

Lemma uniform_padded h w v wsize Y X :
  1 <= h -> 1 <= w -> Y < h + wsize -> X < w + wsize ->
  mat_at (padded (uniform h w v) wsize) Y X = v.
Proof.
  intros Hh Hw HY HX. rewrite padded_at by (simpl; lia).
  unfold uniform. simpl rows. simpl cols. apply mat_at_new; lia.
Qed.

Lemma uniform_totals h w v wsize y x :
  1 <= h -> 1 <= w -> y < h -> x < w ->
  direct_total1 (uniform h w v) wsize y x
  = (Z.of_nat wsize * (Z.of_nat wsize * v))%Z
  /\ direct_total2 (uniform h w v) wsize y x
     = (Z.of_nat wsize * (Z.of_nat wsize * (v * v)))%Z.
Proof.
  intros Hh Hw Hy Hx. unfold direct_total1, direct_total2.
  split; apply window_sum_const; intros j i Hj Hi;
    rewrite !uniform_padded by lia; reflexivity.
Qed.

(** X7. On an image whose samples all hold the same intensity, the
    modes of one output channel write one and the same sample at every
    pixel: the one that the policy makes of the totals
    [wsize^2 * v] and [wsize^2 * v^2]; the run is undefined when that
    sample is. *)
Theorem uniform_image_uniform_output (cfg : Config) (h w : nat) (v : Z) :
  programMode cfg <> OUT_PIXELINFO ->
  programMode cfg <> OUT_VARIABLE_MULTIW ->
  multiWindowSize cfg = [windowSize cfg] ->
  1 <= h -> 1 <= w -> (0 <= v <= 255)%Z ->
  window_size_ok (windowSize cfg) = true ->
  pad_size_ok w h (windowSize cfg) = true ->
  let n := Z.of_nat (windowSize cfg) in
  binarize_sauvola cfg (uniform h w v)
  = match dst_sample cfg (windowSize cfg) (n * (n * v)) (n * (n * (v * v))) v with
    | Some s => Some (Exit0 (Gray (uniform h w s)))
    | None => None
    end.
Proof.
  intros Hm1 Hm2 Hmw Hh Hw Hv Hws Hpad. cbv zeta.
  destruct (binarize_sauvola_samples cfg (uniform h w v) Hm1 Hm2 Hmw
              (mat_new_wf h w v) (uniform_8bit h w v Hv) Hh Hw Hws Hpad)
    as [HA HB].
  assert (Hps : forall y x, y < h -> x < w ->
            pixel_sample cfg (uniform h w v) (windowSize cfg) y x
            = dst_sample cfg (windowSize cfg)
                (Z.of_nat (windowSize cfg) * (Z.of_nat (windowSize cfg) * v))
                (Z.of_nat (windowSize cfg) * (Z.of_nat (windowSize cfg) * (v * v))) v).
  { intros y x Hy Hx. unfold pixel_sample.
    destruct (uniform_totals h w v (windowSize cfg) y x Hh Hw Hy Hx) as [-> ->].
    unfold uniform. rewrite mat_at_new by assumption. reflexivity. }
  destruct (dst_sample cfg (windowSize cfg) _ _ v) as [s|] eqn:Es.
  - destruct HA as (dst & -> & Hwf & Hr & Hc & Hat).
    { intros y x Hy Hx. rewrite Hps by assumption. eauto. }
    do 3 f_equal. apply mat_ext; auto using mat_new_wf.
    intros y x Hy Hx. simpl in Hr, Hc. rewrite Hr in Hy. rewrite Hc in Hx.
    specialize (Hat y x Hy Hx). rewrite Hps in Hat by assumption.
    unfold uniform. rewrite mat_at_new by assumption. congruence.
  - apply (HB 0 0); [simpl; lia|simpl; lia|]. apply Hps; lia.
Qed.

Lemma uniform_image_uniform_output_witness :
  let cfg := config_of OUT_THRESHOLD 2 0.4 1 1 0 in
  (programMode cfg <> OUT_PIXELINFO /\ programMode cfg <> OUT_VARIABLE_MULTIW
   /\ multiWindowSize cfg = [windowSize cfg]
   /\ 1 <= 2 /\ 1 <= 3 /\ (0 <= 128 <= 255)%Z
   /\ window_size_ok (windowSize cfg) = true
   /\ pad_size_ok 3 2 (windowSize cfg) = true)
  /\ binarize_sauvola cfg (uniform 2 3 128)
     = match dst_sample cfg (windowSize cfg)
               (Z.of_nat (windowSize cfg) * (Z.of_nat (windowSize cfg) * 128))
               (Z.of_nat (windowSize cfg) * (Z.of_nat (windowSize cfg) * (128 * 128)))
               128 with
       | Some s => Some (Exit0 (Gray (uniform 2 3 s)))
       | None => None
       end.
Proof.
  intros cfg.
  assert (Hws : window_size_ok (windowSize cfg) = true) by (vm_compute; reflexivity).
  assert (Hp : pad_size_ok 3 2 (windowSize cfg) = true) by (vm_compute; reflexivity).
  split.
  - split_and!; try lia; try discriminate; try assumption; reflexivity.
  - apply (uniform_image_uniform_output cfg 2 3 128);
      [discriminate|discriminate|reflexivity|lia|lia|lia|exact Hws|exact Hp].
Defined.

(** ** binarize-sauvola: the window sizes after [argparse] *)

Lemma max_list_ge (l : list nat) n : In n l -> n <= fold_right Nat.max 0 l.
Proof.
  induction l as [|a l IH]; simpl; [contradiction|].
  intros [->|H]; [lia|]. specialize (IH H). lia.
Qed.

Lemma max_list_in (l : list nat) : l <> [] -> In (fold_right Nat.max 0 l) l.
Proof.
  induction l as [|a l IH]; [congruence|]. intros _. simpl.
  destruct l as [|b l]; [left; simpl; lia|].
  destruct (Nat.max_spec a (fold_right Nat.max 0 (b :: l))) as [[_ E]|[_ E]].
  - right. rewrite E. apply IH. discriminate.
  - left. symmetry. exact E.
Qed.

Lemma last_lookup_total (l : list nat) d :
  l <> [] -> List.last l d = l !!! (length l - 1).
Proof.
  induction l as [|a l IH]; [congruence|]. intros _.
  destruct l as [|b l]; [reflexivity|].
  change (List.last (a :: b :: l) d) with (List.last (b :: l) d).
  rewrite IH by discriminate. simpl length.
  replace (S (S (length l)) - 1) with (S (S (length l) - 1)) by lia.
  reflexivity.
Qed.

Lemma last_in (l : list nat) d : l <> [] -> In (List.last l d) l.
Proof.
  induction l as [|a l IH]; [congruence|]. intros _.
  destruct l as [|b l]; [left; reflexivity|].
  right. apply IH. discriminate.
Qed.

Lemma valid_config_sizes cfg :
  valid_config cfg = true ->
  window_size_ok (windowSize cfg) = true
  /\ Forall (fun wsize => window_size_ok wsize = true) (multiWindowSize cfg)
  /\ length (multiWindowSize cfg) <= 3.
Proof.
  unfold valid_config. rewrite !andb_true_iff.
  intros [[[[[H1 H2] H3] _] _] _]. split_and!; [exact H1| |apply Nat.leb_le, H3].
  rewrite Forall_forall. rewrite forallb_forall in H2.
  intros wsize Hin. apply H2. apply list_elem_of_In, Hin.
Qed.

(** The end of [argparse] in the multi-window mode. *)
Lemma argparse_finish_multiw cfg0 cfg :
  programMode cfg0 = OUT_VARIABLE_MULTIW ->
  argparse_finish cfg0 = Some cfg ->
  (rScale cfg0 <? 1)%float = false
  /\ multiWindowSize cfg0 <> []
  /\ programMode cfg = OUT_VARIABLE_MULTIW
  /\ multiWindowSize cfg
     = multiWindowSize cfg0
       ++ replicate (3 - length (multiWindowSize cfg0))
            (List.last (multiWindowSize cfg0) 0)
  /\ windowSize cfg = fold_right Nat.max 0 (multiWindowSize cfg).
Proof.
  intros Hmode Hfin. unfold argparse_finish, oVariable in Hfin.
  rewrite Hmode in Hfin. cbn [ProgramMode_eqb orb andb] in Hfin.
  destruct (rScale cfg0 <? 1)%float; [discriminate|].
  destruct (multiWindowSize cfg0) as [|a l] eqn:El; [discriminate|].
  injection Hfin as <-. split_and!; try reflexivity. discriminate.
Qed.

Lemma completed_sizes (given : list nat) :
  given <> [] -> length given <= 3 ->
  let ws := given ++ replicate (3 - length given) (List.last given 0) in
  length ws = 3
  /\ (forall c, c < 3 -> ws !! c = Some (given !!! Nat.min c (length given - 1)))
  /\ forall wsize, In wsize ws -> In wsize given.
Proof.
  intros Hne Hlen. cbv zeta.
  assert (1 <= length given) by (destruct given; [congruence|simpl; lia]).
  split_and!.
  - rewrite length_app, length_replicate. lia.
  - intros c Hc. destruct (decide (c < length given)) as [Hlt|Hge].
    + rewrite lookup_app_l by exact Hlt.
      replace (Nat.min c (length given - 1)) with c by lia.
      apply list_lookup_lookup_total_lt, Hlt.
    + rewrite lookup_app_r by lia.
      rewrite lookup_replicate_2 by lia.
      rewrite last_lookup_total by exact Hne.
      do 2 f_equal. lia.
  - intros wsize Hin. apply in_app_or in Hin as [Hin|Hin]; [exact Hin|].
    apply list_elem_of_In, elem_of_replicate in Hin as [-> _].
    apply last_in, Hne.
Qed.

(** The list of window sizes that [argparse] leaves. *)
Lemma argparse_finish_sizes cfg0 cfg :
  valid_config cfg0 = true ->
  argparse_finish cfg0 = Some cfg ->
  1 <= length (multiWindowSize cfg) <= 3
  /\ In (windowSize cfg) (multiWindowSize cfg)
  /\ Forall (fun wsize => window_size_ok wsize = true /\ wsize <= windowSize cfg)
       (multiWindowSize cfg).
Proof.
  intros Hvalid Hfin.
  destruct (valid_config_sizes cfg0 Hvalid) as (Hws & Hall & Hlen).
  destruct (programMode cfg0) eqn:Hmode.
  5: { destruct (argparse_finish_multiw cfg0 cfg Hmode Hfin)
         as (_ & Hne & _ & Hms & Hw).
       destruct (completed_sizes (multiWindowSize cfg0) Hne Hlen) as (H3 & _ & Hin).
       rewrite <- Hms in H3, Hin.
       assert (Hne' : multiWindowSize cfg <> [])
         by (destruct (multiWindowSize cfg); [discriminate|discriminate]).
       split_and!; [lia|lia|rewrite Hw; apply max_list_in, Hne'|].
       rewrite Forall_forall in *. intros wsize Hel. apply list_elem_of_In in Hel.
       split; [apply Hall, list_elem_of_In, Hin, Hel|].
       rewrite Hw. apply max_list_ge, Hel. }
  all: destruct (argparse_finish_single cfg0 cfg Hfin)
         as (_ & Hw & _ & _ & _ & _ & Hms); [rewrite Hmode; discriminate|];
       rewrite Hms; split_and!; [simpl; lia|simpl; lia|left; reflexivity|];
       repeat constructor; rewrite Hw; exact Hws.
Qed.

(** X8. In the multi-window mode, [argparse] accepts the options only
    with a list of one to three window sizes and with an R scale that is
    not less than 1, and leaves exactly three window sizes: the given
    ones in their order, then the last given one repeated; the window
    size of the size check is the largest of them. *)
Theorem multiw_window_sizes (cfg0 cfg : Config) :
  programMode cfg0 = OUT_VARIABLE_MULTIW ->
  valid_config cfg0 = true ->
  argparse_finish cfg0 = Some cfg ->
  let given := multiWindowSize cfg0 in
  1 <= length given <= 3
  /\ (rScale cfg0 <? 1)%float = false
  /\ programMode cfg = OUT_VARIABLE_MULTIW
  /\ length (multiWindowSize cfg) = 3
  /\ (forall c, c < 3 ->
        multiWindowSize cfg !! c = Some (given !!! Nat.min c (length given - 1)))
  /\ In (windowSize cfg) (multiWindowSize cfg)
  /\ Forall (fun wsize => wsize <= windowSize cfg) (multiWindowSize cfg).
Proof.
  intros Hmode Hvalid Hfin. cbv zeta.
  destruct (argparse_finish_sizes cfg0 cfg Hvalid Hfin) as (_ & Hin & Hall).
  destruct (valid_config_sizes cfg0 Hvalid) as (_ & _ & Hlen).
  destruct (argparse_finish_multiw cfg0 cfg Hmode Hfin) as (Hr & Hne & Hm & Hms & _).
  destruct (completed_sizes (multiWindowSize cfg0) Hne Hlen) as (H3 & Hat & _).
  rewrite <- Hms in H3, Hat.
  assert (1 <= length (multiWindowSize cfg0))
    by (destruct (multiWindowSize cfg0); [congruence|simpl; lia]).
  split_and!; auto.
  rewrite Forall_forall in *. intros wsize Hw. apply (Hall wsize Hw).
Qed.

Lemma multiw_window_sizes_witness :
  (programMode options_X_3_5 = OUT_VARIABLE_MULTIW
   /\ valid_config options_X_3_5 = true
   /\ argparse_finish options_X_3_5
      = Some (mkConfig OUT_VARIABLE_MULTIW 5 0.4 1 1 0 [3; 5; 5]))
  /\ let cfg := mkConfig OUT_VARIABLE_MULTIW 5 0.4 1 1 0 [3; 5; 5] in
     let given := multiWindowSize options_X_3_5 in
     1 <= length given <= 3
     /\ (rScale options_X_3_5 <? 1)%float = false
     /\ programMode cfg = OUT_VARIABLE_MULTIW
     /\ length (multiWindowSize cfg) = 3
     /\ (forall c, c < 3 ->
           multiWindowSize cfg !! c = Some (given !!! Nat.min c (length given - 1)))
     /\ In (windowSize cfg) (multiWindowSize cfg)
     /\ Forall (fun wsize => wsize <= windowSize cfg) (multiWindowSize cfg).
Proof.
  assert (Hv : valid_config options_X_3_5 = true) by (vm_compute; reflexivity).
  split.
  - split_and!; [reflexivity|exact Hv|reflexivity].
  - apply (multiw_window_sizes options_X_3_5
             (mkConfig OUT_VARIABLE_MULTIW 5 0.4 1 1 0 [3; 5; 5]));
      [reflexivity|exact Hv|reflexivity].
Defined.

(** X9. [main] checks the padded size once, for the window size that
    [argparse] leaves in [windowSize].  That covers every pass of the
    loop over the window sizes: each of them is in the accepted range and
    its padded width, padded height and number of integral image cells
    are at most [INT_MAX]. *)
Theorem pad_check_covers_every_pass (cfg0 cfg : Config) (w h : nat) :
  valid_config cfg0 = true ->
  argparse_finish cfg0 = Some cfg ->
  1 <= w ->
  pad_size_ok w h (windowSize cfg) = true ->
  multiWindowSize cfg <> []
  /\ Forall (fun wsize =>
               window_size_ok wsize = true
               /\ pad_size_ok w h wsize = true
               /\ (Z.of_nat (w + wsize) * Z.of_nat (h + wsize) <= INT_MAX)%Z)
       (multiWindowSize cfg).
Proof.
  intros Hvalid Hfin Hw Hpad.
  destruct (argparse_finish_sizes cfg0 cfg Hvalid Hfin) as (Hlen & _ & Hall).
  split; [destruct (multiWindowSize cfg); [simpl in Hlen; lia|discriminate]|].
  apply pad_size_ok_spec in Hpad as (H1 & H2 & H3); [|exact Hw].
  rewrite Forall_forall in *. intros wsize Hin.
  destruct (Hall wsize Hin) as [Hok Hle].
  assert (Hprod : (Z.of_nat (w + wsize) * Z.of_nat (h + wsize) <= INT_MAX)%Z) by nia.
  split_and!; [exact Hok| |exact Hprod].
  apply pad_size_ok_spec; [exact Hw|]. split_and!; [lia|lia|exact Hprod].
Qed.

Lemma pad_check_covers_every_pass_witness :
  let cfg := mkConfig OUT_VARIABLE_MULTIW 5 0.4 1 1 0 [3; 5; 5] in
  (valid_config options_X_3_5 = true
   /\ argparse_finish options_X_3_5 = Some cfg
   /\ 1 <= 2
   /\ pad_size_ok 2 2 (windowSize cfg) = true)
  /\ multiWindowSize cfg <> []
  /\ Forall (fun wsize =>
               window_size_ok wsize = true
               /\ pad_size_ok 2 2 wsize = true
               /\ (Z.of_nat (2 + wsize) * Z.of_nat (2 + wsize) <= INT_MAX)%Z)
       (multiWindowSize cfg).
Proof.
  intros cfg.
  assert (Hv : valid_config options_X_3_5 = true) by (vm_compute; reflexivity).
  assert (Hp : pad_size_ok 2 2 (windowSize cfg) = true) by (vm_compute; reflexivity).
  split.
  - split_and!; [exact Hv|reflexivity|lia|exact Hp].
  - apply (pad_check_covers_every_pass options_X_3_5 cfg 2 2);
      [exact Hv|reflexivity|lia|exact Hp].
Defined.

(** ** binarize-sauvola: the samples of the output *)

Lemma uchar_of_double_range f z : uchar_of_double f = Some z -> (0 <= z <= 255)%Z.
Proof.
  unfold uchar_of_double. destruct (double_trunc f) as [t|]; [|discriminate].
  destruct ((0 <=? t)%Z && (t <=? 255)%Z) eqn:E; [|discriminate].
  intros [= <-]. apply andb_true_iff in E as [E1 E2].
  apply Z.leb_le in E1, E2. lia.
Qed.

Lemma uchar_of_int_range z : (0 <= uchar_of_int z <= 255)%Z.
Proof. unfold uchar_of_int. pose proof (Z.mod_pos_bound z 256). lia. Qed.

Lemma dst_sample_range cfg wsize total1 total2 center v :
  dst_sample cfg wsize total1 total2 center = Some v -> (0 <= v <= 255)%Z.
Proof.
  unfold dst_sample. destruct (oVariable cfg).
  - apply uchar_of_double_range.
  - destruct (int_of_double _) as [t|]; [|discriminate].
    destruct (ProgramMode_eqb _ _); intros [= <-].
    + apply uchar_of_int_range.
    + destruct (t <? center)%Z; lia.
Qed.

Lemma pixelinfo_sample_range wsize total1 total2 center c :
  pixelinfo_sample wsize total1 total2 center = Some c ->
  (0 <= c.1.1 <= 255)%Z /\ (0 <= c.1.2 <= 255)%Z /\ (0 <= c.2 <= 255)%Z.
Proof.
  unfold pixelinfo_sample. cbv zeta.
  destruct (uchar_of_double (window_mean total1 wsize)) as [m|] eqn:Em; [|discriminate].
  destruct (uchar_of_double (window_stddev total1 total2 wsize * 2)) as [d|] eqn:Ed;
    [|discriminate].
  intros [= E]. rewrite <- E. cbn [fst snd].
  split; [|split]; eauto using uchar_of_double_range, uchar_of_int_range.
Qed.

Lemma is_8bit_set m y x v :
  is_8bit m -> (0 <= v <= 255)%Z -> is_8bit (mat_set m y x v).
Proof. unfold is_8bit, mat_set. simpl. intros H Hv. apply Forall_insert; assumption. Qed.

Lemma is_8bit_C3_set (m : Mat Vec3b) y x (c : Vec3b) :
  is_8bit_C3 m ->
  (0 <= c.1.1 <= 255)%Z /\ (0 <= c.1.2 <= 255)%Z /\ (0 <= c.2 <= 255)%Z ->
  is_8bit_C3 (mat_set m y x c).
Proof. unfold is_8bit_C3, mat_set. simpl. intros H Hv. apply Forall_insert; assumption. Qed.

Lemma is_8bit_C3_at (m : Mat Vec3b) y x :
  mat_wf m -> is_8bit_C3 m -> y < rows m -> x < cols m ->
  (0 <= (mat_at m y x).1.1 <= 255)%Z /\ (0 <= (mat_at m y x).1.2 <= 255)%Z
  /\ (0 <= (mat_at m y x).2 <= 255)%Z.
Proof.
  intros Hwf H8 Hy Hx. unfold is_8bit_C3 in H8. rewrite Forall_forall in H8.
  apply (H8 (mat_at m y x)), mat_at_elem; auto.
Qed.

(** What one pass leaves, whatever the mode and the image. *)
Lemma window_pass_invariant cfg img realdst wsize dst rd :
  window_pass cfg img realdst wsize = Some (dst, rd) ->
  (mat_wf dst /\ rows dst = rows img /\ cols dst = cols img /\ is_8bit dst)
  /\ (mat_wf realdst -> mat_wf rd)
  /\ rows rd = rows realdst /\ cols rd = cols realdst
  /\ (is_8bit_C3 realdst -> is_8bit_C3 rd)
  /\ (programMode cfg <> OUT_PIXELINFO -> rd = realdst).
Proof.
  unfold window_pass.
  destruct (integral_images _ _ _) as [buffer1 buffer2].
  revert dst rd.
  apply (for_pixels_inv (rows img) (cols img) _
           (fun st => forall dst rd, st = Some (dst, rd) ->
              (mat_wf dst /\ rows dst = rows img /\ cols dst = cols img /\ is_8bit dst)
              /\ (mat_wf realdst -> mat_wf rd)
              /\ rows rd = rows realdst /\ cols rd = cols realdst
              /\ (is_8bit_C3 realdst -> is_8bit_C3 rd)
              /\ (programMode cfg <> OUT_PIXELINFO -> rd = realdst))).
  - intros dst rd [= <- <-]. split_and!; auto using mat_new_wf.
    unfold is_8bit, mat_new. simpl. apply Forall_replicate. lia.
  - intros y x [[d r]|] Hy Hx IH dst rd; [|discriminate].
    destruct (IH d r eq_refl) as ((Hwf & Hr & Hc & H8) & Hwfr & Hrr & Hcr & H8r & Hsame).
    destruct (dst_sample cfg wsize _ _ _) as [v|] eqn:Ev.
    2: { destruct (if ProgramMode_eqb (programMode cfg) OUT_PIXELINFO then _ else _);
           discriminate. }
    apply dst_sample_range in Ev.
    destruct (ProgramMode_eqb (programMode cfg) OUT_PIXELINFO) eqn:Em.
    + destruct (pixelinfo_sample wsize _ _ _) as [c|] eqn:Ec; [|discriminate].
      apply pixelinfo_sample_range in Ec.
      intros [= <- <-]. split_and!; auto using mat_set_wf, is_8bit_set, is_8bit_C3_set.
      intros Hne. destruct (programMode cfg); simpl in Em; congruence.
    + intros [= <- <-]. split_and!; auto using mat_set_wf, is_8bit_set.
Qed.

Lemma nth_channel_set_eq c ch v : nth_channel (set_channel c ch v) ch = v.
Proof. destruct ch as [|[|ch]]; reflexivity. Qed.

Lemma nth_channel_set_ne c ch ch' v :
  ch <= 2 -> ch' <= 2 -> ch' <> ch ->
  nth_channel (set_channel c ch v) ch' = nth_channel c ch'.
Proof.
  intros H H' Hne.
  destruct ch as [|[|[|ch]]]; destruct ch' as [|[|[|ch']]];
    try lia; try congruence; reflexivity.
Qed.

Ltac bool_lia :=
  repeat match goal with
         | H : _ && _ = true |- _ => apply andb_true_iff in H as [? ?]
         | H : _ && _ = false |- _ => apply andb_false_iff in H as [?|?]
         | H : (_ <=? _) = true |- _ => apply Nat.leb_le in H
         | H : (_ <=? _) = false |- _ => apply Nat.leb_gt in H
         | H : (_ <? _) = true |- _ => apply Nat.ltb_lt in H
         | H : (_ <? _) = false |- _ => apply Nat.ltb_ge in H
         | H : (_ =? _) = true |- _ => apply Nat.eqb_eq in H
         | H : (_ =? _) = false |- _ => apply Nat.eqb_neq in H
         end; lia.

(** The copy of [dst] into channels of [realdst] in the multi-window
    mode: the turn [c] writes the channel [2 - c], and the last turn the
    channels that are left. *)
Lemma finalize_multiw cfg h w c dst realdst :
  programMode cfg = OUT_VARIABLE_MULTIW ->
  c < 3 ->
  mat_wf realdst -> rows realdst = h -> cols realdst = w ->
  exists r, finalize_window cfg h w c dst realdst = Color r
    /\ mat_wf r /\ rows r = h /\ cols r = w
    /\ forall y x, y < h -> x < w -> forall k, k < 3 ->
         nth_channel (mat_at r y x) (2 - k)
         = if (c <=? k)
              && (k <? if S c =? length (multiWindowSize cfg) then 3 else S c)
           then mat_at dst y x
           else nth_channel (mat_at realdst y x) (2 - k).
Proof.
  intros Hmode Hc Hwf Hr Hcs. unfold finalize_window. rewrite Hmode.
  cbn [ProgramMode_eqb]. cbv zeta.
  set (d := if S c =? length (multiWindowSize cfg) then 3 else S c).
  assert (Hd : S c <= d <= 3) by (subst d; destruct (_ =? _); lia).
  clearbody d.
  eexists. split; [reflexivity|].
  pose (Pin := fun (n : nat) (r : Mat Vec3b) =>
    mat_wf r /\ rows r = h /\ cols r = w
    /\ forall y x, y < h -> x < w -> forall k, k < 3 ->
         nth_channel (mat_at r y x) (2 - k)
         = if (c <=? k) && (k <? c + n) then mat_at dst y x
           else nth_channel (mat_at realdst y x) (2 - k)).
  match goal with |- context [for_loop (d - c) ?body realdst] =>
    assert (Hin : Pin (d - c) (for_loop (d - c) body realdst)) end.
  { apply (for_loop_ind Pin).
    - unfold Pin. split_and!; auto. intros y x Hy Hx k Hk.
      destruct ((c <=? k) && (k <? c + 0)) eqn:E; [bool_lia|reflexivity].
    - intros i r Hi (Hwf' & Hr' & Hc' & Hat).
      destruct (for_pixels_pointwise h w
                  (fun y x realdst0 =>
                     mat_set realdst0 y x
                       (set_channel (mat_at realdst0 y x) (2 - (c + i)) (mat_at dst y x)))
                  (fun y x v => set_channel v (2 - (c + i)) (mat_at dst y x))
                  r Hwf' Hr' Hc') as (Hwf2 & Hr2 & Hc2 & Hat2).
      { intros; left; reflexivity. }
      unfold Pin. split_and!; auto.
      intros y x Hy Hx k Hk. rewrite Hat2 by assumption.
      destruct (decide (k = c + i)) as [->|Hne].
      + rewrite nth_channel_set_eq.
        destruct ((c <=? c + i) && (c + i <? c + S i)) eqn:E; [reflexivity|bool_lia].
      + rewrite nth_channel_set_ne by lia. rewrite (Hat y x Hy Hx k Hk).
        destruct ((c <=? k) && (k <? c + i)) eqn:E1,
                 ((c <=? k) && (k <? c + S i)) eqn:E2;
          try reflexivity; bool_lia. }
  destruct Hin as (Hwf' & Hr' & Hc' & Hat). split_and!; auto.
  intros y x Hy Hx k Hk. rewrite (Hat y x Hy Hx k Hk).
  replace (c + (d - c)) with d by lia. reflexivity.
Qed.

Lemma mat_Forall_intro {T : Type} `{!Inhabited T} (P : T -> Prop) (m : Mat T) :
  mat_wf m ->
  (forall y x, y < rows m -> x < cols m -> P (mat_at m y x)) ->
  Forall P (data m).
Proof.
  destruct m as [r c l]. unfold mat_wf, mat_at. simpl. intros Hl Hat.
  rewrite Forall_lookup. intros i a Ha.
  assert (Hi : i < r * c) by (rewrite <- Hl; apply lookup_lt_Some in Ha; exact Ha).
  assert (Hc : 0 < c) by nia.
  pose proof (Nat.div_mod_eq i c) as E.
  pose proof (Nat.mod_upper_bound i c) as B.
  assert (Hy : i / c < r) by (apply Nat.Div0.div_lt_upper_bound; lia).
  specialize (Hat (i / c) (i mod c) Hy ltac:(lia)).
  replace (i / c * c + i mod c) with i in Hat by lia.
  apply list_lookup_total_correct in Ha. congruence.
Qed.

Lemma finalize_multiw_8bit cfg h w c dst realdst r :
  programMode cfg = OUT_VARIABLE_MULTIW ->
  c < 3 ->
  mat_wf realdst -> rows realdst = h -> cols realdst = w -> is_8bit_C3 realdst ->
  mat_wf dst -> rows dst = h -> cols dst = w -> is_8bit dst ->
  finalize_window cfg h w c dst realdst = Color r ->
  mat_wf r /\ rows r = h /\ cols r = w /\ is_8bit_C3 r.
Proof.
  intros Hmode Hc Hwf Hr Hcs H8 Hwfd Hrd Hcd H8d Hfin.
  destruct (finalize_multiw cfg h w c dst realdst Hmode Hc Hwf Hr Hcs)
    as (r' & Hfin' & Hwf' & Hr' & Hc' & Hat).
  rewrite Hfin in Hfin'. injection Hfin' as <-.
  split_and!; auto.
  apply mat_Forall_intro; [exact Hwf'|].
  intros y x Hy Hx. rewrite Hr' in Hy. rewrite Hc' in Hx.
  assert (Hch : forall k, k < 3 -> (0 <= nth_channel (mat_at r y x) (2 - k) <= 255)%Z).
  { intros k Hk. rewrite (Hat y x Hy Hx k Hk).
    destruct (_ && _).
    - apply is_8bit_at; auto; lia.
    - destruct (is_8bit_C3_at realdst y x Hwf H8) as (H0 & H1 & H2); [lia|lia|].
      destruct (2 - k) as [|[|n]]; simpl; assumption. }
  split; [|split].
  - apply (Hch 2). lia.
  - apply (Hch 1). lia.
  - apply (Hch 0). lia.
Qed.

(** A run of [main] with the default prescale that hands an image to
    [imwrite] hands one of the size of the image, with three channels
    in the pixel information and multi-window modes and one channel
    otherwise, whose samples all lie in [0, 255]. *)
Lemma binarize_sauvola_output (cfg0 cfg : Config) (img : Mat Z) (out : Image) :
  valid_config cfg0 = true ->
  argparse_finish cfg0 = Some cfg ->
  binarize_sauvola cfg img = Some (Exit0 out) ->
  image_wf out /\ image_8bit out
  /\ image_rows out = rows img /\ image_cols out = cols img
  /\ channels out
     = if ProgramMode_eqb (programMode cfg) OUT_PIXELINFO
          || ProgramMode_eqb (programMode cfg) OUT_VARIABLE_MULTIW
       then 3 else 1.
Proof.
  intros Hvalid Hfin.
  destruct (argparse_finish_sizes cfg0 cfg Hvalid Hfin) as (Hlen & _ & _).
  unfold binarize_sauvola.
  destruct ((cols img =? 0) || (rows img =? 0)); [discriminate|].
  destruct (negb (pad_size_ok _ _ _)); [discriminate|].
  remember (ProgramMode_eqb (programMode cfg) OUT_PIXELINFO
            || ProgramMode_eqb (programMode cfg) OUT_VARIABLE_MULTIW) as three eqn:E3.
  pose (good := fun (r : Image) =>
    image_wf r /\ image_8bit r
    /\ image_rows r = rows img /\ image_cols r = cols img
    /\ channels r = if three then 3 else 1).
  pose (Pin := fun (n : nat) (st : option Image) =>
    forall r, st = Some r ->
      if three then good r
      else (n = 0 /\ r = Gray (mkMat 0 0 [])) \/ good r).
  match goal with |- context [for_loop ?n ?body ?s0] =>
    assert (Hin : Pin n (for_loop n body s0)) end.
  { apply (for_loop_ind Pin).
    - intros r [= <-]. unfold good. destruct three; [|left; auto].
      simpl. split_and!; auto using mat_new_wf.
      unfold is_8bit_C3. simpl. apply Forall_replicate. simpl. lia.
    - intros c [realdst|] Hc IH; [|discriminate]. specialize (IH realdst eq_refl).
      intros r.
      destruct (window_pass cfg img _ _) as [[dst rd]|] eqn:Epass; [|discriminate].
      intros [= <-].
      destruct (window_pass_invariant _ _ _ _ _ _ Epass)
        as ((Hwfd & Hrd & Hcd & H8d) & Hwfr & Hrr & Hcr & H8r & Hsame).
      unfold good in *.
      destruct (programMode cfg) eqn:Emode; cbn [ProgramMode_eqb orb] in E3;
        subst three.
      + right. unfold finalize_window. rewrite Emode. simpl. split_and!; auto.
      + right. unfold finalize_window. rewrite Emode. simpl. split_and!; auto.
      + destruct IH as (Hwf0 & H80 & Hr0 & Hc0 & Hch0).
        destruct realdst as [m|m]; [discriminate|]. simpl in *.
        unfold finalize_window. rewrite Emode. simpl.
        split_and!; auto; congruence.
      + right. unfold finalize_window. rewrite Emode. simpl. split_and!; auto.
      + destruct IH as (Hwf0 & H80 & Hr0 & Hc0 & Hch0).
        destruct realdst as [m|m]; [discriminate|]. simpl in *.
        rewrite (Hsame ltac:(discriminate)) in *.
        assert (Hc3 : c < 3) by lia.
        destruct (finalize_multiw cfg (rows img) (cols img) c dst m Emode
                    Hc3 Hwf0 Hr0 Hc0) as (r' & Hfin' & _).
        rewrite Hfin'.
        destruct (finalize_multiw_8bit cfg (rows img) (cols img) c dst m r' Emode
                    Hc3 Hwf0 Hr0 Hc0 H80 Hwfd Hrd Hcd H8d Hfin')
          as (Hwf' & Hr' & Hc' & H8').
        simpl. split_and!; auto. }
  destruct (for_loop _ _ _) as [r|]; [|discriminate].
  intros [= <-]. specialize (Hin r eq_refl). unfold good in Hin.
  destruct three; [exact Hin|].
  destruct Hin as [[H0 _]|Hgood]; [lia|exact Hgood].
Qed.

(** ** binarize-sauvola: the prescale *)

(** The sign of a product and of its conversion to [int]. *)
Lemma binary_round_aux_nonneg m e l :
  SF_nonneg (binary_round_aux prec emax false m e l).
Proof.
  unfold binary_round_aux.
  destruct (shr_fexp prec emax m e l) as [mrs e'].
  destruct (shr_fexp prec emax _ e' loc_Exact) as [mrs2 e2].
  destruct (shr_m mrs2); simpl; auto.
  destruct (Z.leb _ _); simpl; auto.
Qed.

Lemma binary_round_nonneg m e : SF_nonneg (binary_round prec emax false m e).
Proof.
  unfold binary_round. destruct (shl_align _ _ _) as [mz ez].
  apply binary_round_aux_nonneg.
Qed.

Lemma binary_normalize_nonneg z e :
  (0 <= z)%Z -> SF_nonneg (binary_normalize prec emax z e false).
Proof.
  intros Hz. destruct z; simpl; auto; [apply binary_round_nonneg|lia].
Qed.

Lemma SFldexp_nonneg f e : SF_nonneg f -> SF_nonneg (SFldexp prec emax f e).
Proof.
  destruct f as [s|s| |s m e0]; simpl; auto.
  destruct s; [intros []|]. intros _. apply binary_round_nonneg.
Qed.

Lemma SF2Prim_nonneg x : SF_nonneg x -> SF_nonneg (Prim2SF (SF2Prim x)).
Proof.
  destruct x as [[|]|[|]| |[|] m e]; intros H.
  - vm_compute. exact I.
  - vm_compute. exact I.
  - destruct H.
  - vm_compute. exact I.
  - vm_compute. exact I.
  - destruct H.
  - cbn [SF2Prim]. rewrite FloatLemmas.Z_ldexp_spec. apply SFldexp_nonneg.
    rewrite of_uint63_spec. apply binary_normalize_nonneg.
    apply Uint63.to_Z_bounded.
Qed.

Lemma double_of_Z_nonneg z : (0 <= z)%Z -> SF_nonneg (Prim2SF (double_of_Z z)).
Proof.
  intros Hz. apply SF2Prim_nonneg, binary_normalize_nonneg, Hz.
Qed.

Lemma not_leb_zero_nonneg p : (p <=? 0)%float = false -> SF_nonneg (Prim2SF p).
Proof.
  rewrite leb_spec. change (Prim2SF 0) with (S754_zero false).
  destruct (Prim2SF p) as [[|]|[|]| |[|] m e]; simpl; auto; discriminate.
Qed.

Lemma SFmul_nonneg a b :
  SF_nonneg a -> SF_nonneg b -> SF_nonneg (SFmul prec emax a b).
Proof.
  destruct a as [[|]|[|]| |[|] ma ea]; destruct b as [[|]|[|]| |[|] mb eb];
    cbn [SFmul xorb SF_nonneg]; intros Ha Hb; try contradiction; try exact I.
  apply binary_round_aux_nonneg.
Qed.

Lemma double_trunc_nonneg f z :
  SF_nonneg (Prim2SF f) -> double_trunc f = Some z -> (0 <= z)%Z.
Proof.
  unfold double_trunc. destruct (Prim2SF f) as [s|s| |s m e]; try discriminate.
  - intros _ [= <-]. lia.
  - destruct s; [intros []|]. intros _ [= <-].
    destruct (0 <=? e)%Z eqn:E.
    + assert (H2 : (0 <= 2 ^ e)%Z) by (apply Z.pow_nonneg; lia).
      destruct (2 ^ e)%Z; lia.
    + apply Z.leb_gt in E. apply Z.div_pos; [lia|]. apply Z.pow_pos_nonneg; lia.
Qed.

(** A positive prescale times a size converts to an [int] that is not
    negative. *)
Lemma prescaled_size_nonneg (preScale : float) (n : nat) (z : Z) :
  (preScale <=? 0)%float = false ->
  int_of_double (preScale * double_of_Z (Z.of_nat n)) = Some z ->
  (0 <= z)%Z.
Proof.
  intros Hp. unfold int_of_double.
  destruct (double_trunc _) as [t|] eqn:E; [|discriminate].
  destruct (_ && _); [|discriminate]. intros [= <-].
  apply (double_trunc_nonneg (preScale * double_of_Z (Z.of_nat n)) t); [|exact E].
  rewrite mul_spec. apply SFmul_nonneg.
  - apply not_leb_zero_nonneg, Hp.
  - apply double_of_Z_nonneg. lia.
Qed.

Section PrescaleProperties.
Variable resize : Mat Z -> nat -> nat -> nat -> nat -> Z.

(** The image that the prescale block hands on. *)
Lemma prescale_result (preScale : float) (img r : Mat Z) :
  (preScale =? 1)%float = false ->
  prescale resize preScale img = Some (Exit0 r) ->
  int_of_double (preScale * double_of_Z (Z.of_nat (cols img)))
  = Some (Z.of_nat (cols r))
  /\ int_of_double (preScale * double_of_Z (Z.of_nat (rows img)))
     = Some (Z.of_nat (rows r))
  /\ 1 <= cols r /\ 1 <= rows r
  /\ (Z.of_nat (cols r) * Z.of_nat (rows r) <= INT_MAX)%Z
  /\ r = (if (cols r =? cols img) && (rows r =? rows img) then img
          else mat_tabulate (rows r) (cols r) (resize img (cols r) (rows r))).
Proof.
  intros Hne. unfold prescale. rewrite Hne.
  destruct (_ || _); [discriminate|].
  destruct (int_of_double (_ * double_of_Z (Z.of_nat (cols img)))) as [nw|];
    [|discriminate].
  destruct (int_of_double (_ * double_of_Z (Z.of_nat (rows img)))) as [nh|];
    [|discriminate].
  destruct ((nw =? 0) || (nh =? 0))%Z eqn:E0; [discriminate|].
  apply orb_false_iff in E0 as [Ew0 Eh0].
  apply Z.eqb_neq in Ew0. apply Z.eqb_neq in Eh0.
  destruct (Z.quot INT_MAX nw <? nh)%Z eqn:Eq; [discriminate|].
  apply Z.ltb_ge in Eq.
  assert (Harea : (0 < nw -> nw * nh <= INT_MAX)%Z).
  { intros Hpos. rewrite Z.quot_div_nonneg in Eq by (unfold INT_MAX; lia).
    pose proof (Z.mul_div_le INT_MAX nw Hpos). nia. }
  destruct (negb (Z.of_nat (cols img) =? nw)%Z
            || negb (Z.of_nat (rows img) =? nh)%Z) eqn:Ed.
  - destruct ((0 <? nw) && (0 <? nh))%Z eqn:Epos; [|discriminate].
    apply andb_true_iff in Epos as [Ew Eh].
    apply Z.ltb_lt in Ew. apply Z.ltb_lt in Eh.
    intros [= <-]. cbn [mat_tabulate rows cols].
    rewrite !Z2Nat.id by lia.
    assert (Hd : (Z.to_nat nw =? cols img) && (Z.to_nat nh =? rows img) = false).
    { apply orb_true_iff in Ed as [Ed|Ed]; apply negb_true_iff, Z.eqb_neq in Ed.
      - apply andb_false_iff. left. apply Nat.eqb_neq. lia.
      - apply andb_false_iff. right. apply Nat.eqb_neq. lia. }
    rewrite Hd. split_and!; try reflexivity; try lia; apply Harea; lia.
  - apply orb_false_iff in Ed as [Ew Eh].
    apply negb_false_iff, Z.eqb_eq in Ew. apply negb_false_iff, Z.eqb_eq in Eh.
    intros [= <-]. rewrite !Nat.eqb_refl. cbn [andb]. subst nw nh.
    split_and!; try reflexivity; try lia; apply Harea; lia.
Qed.

(** With the prescale 1, [main] is the run that the other statements
    are about. *)
Lemma binarize_sauvola_prescaled_default (cfg : Config) (img : Mat Z) :
  binarize_sauvola_prescaled resize 1 cfg img = binarize_sauvola cfg img.
Proof.
  unfold binarize_sauvola_prescaled, prescale.
  change (1 =? 1)%float with true. cbv iota.
  unfold binarize_sauvola.
  destruct ((cols img =? 0) || (rows img =? 0)); reflexivity.
Qed.

(** X10. Whatever the image, the prescale and the accepted options, a
    run of binarize-sauvola that hands an image to [imwrite] hands one
    of the size of the image as it is after the prescale (the size of
    the input for the prescale 1, and otherwise [preScale * w] columns
    and [preScale * h] rows, converted to [int]), with three channels in
    the pixel information and multi-window modes and one channel
    otherwise, whose samples all lie in [0, 255]. *)
Theorem output_image_8bit (cfg0 cfg : Config) (preScale : float) (img : Mat Z)
    (out : Image) :
  valid_config cfg0 = true ->
  argparse_finish cfg0 = Some cfg ->
  binarize_sauvola_prescaled resize preScale cfg img = Some (Exit0 out) ->
  image_wf out /\ image_8bit out
  /\ channels out
     = (if ProgramMode_eqb (programMode cfg) OUT_PIXELINFO
           || ProgramMode_eqb (programMode cfg) OUT_VARIABLE_MULTIW
        then 3 else 1)
  /\ if (preScale =? 1)%float
     then image_rows out = rows img /\ image_cols out = cols img
     else int_of_double (preScale * double_of_Z (Z.of_nat (cols img)))
          = Some (Z.of_nat (image_cols out))
          /\ int_of_double (preScale * double_of_Z (Z.of_nat (rows img)))
             = Some (Z.of_nat (image_rows out))
          /\ 1 <= image_cols out /\ 1 <= image_rows out.
Proof.
  intros Hvalid Hfin. unfold binarize_sauvola_prescaled.
  destruct ((cols img =? 0) || (rows img =? 0)); [discriminate|].
  destruct (prescale resize preScale img) as [[r|]|] eqn:Epre; try discriminate.
  intros Hrun.
  destruct (binarize_sauvola_output cfg0 cfg r out Hvalid Hfin Hrun)
    as (Hwf & H8 & Hr & Hc & Hch).
  split; [exact Hwf|]. split; [exact H8|]. split; [exact Hch|].
  destruct (preScale =? 1)%float eqn:Eone.
  - unfold prescale in Epre. rewrite Eone in Epre. injection Epre as <-.
    split; assumption.
  - destruct (prescale_result preScale img r Eone Epre)
      as (Hw' & Hh' & Hc1 & Hr1 & _).
    rewrite Hr, Hc. split_and!; assumption.
Qed.

(** X25. With a prescale that the option [-S] accepts, the prescale
    block of [main] is undefined only where a conversion of
    [preScale * w] or [preScale * h] to [int] is ([resize] is never
    asked for an empty or a negative size); the image that it hands on
    is the input for the prescale 1, and otherwise has [preScale * w]
    columns and [preScale * h] rows, converted to [int], at least one
    of each and at most [INT_MAX] samples, and is the input itself
    where its size did not change. *)
Theorem prescale_sizes (value preScale : float) (img : Mat Z) :
  option_S value = Some preScale ->
  (prescale resize preScale img = None ->
   int_of_double (preScale * double_of_Z (Z.of_nat (cols img))) = None
   \/ int_of_double (preScale * double_of_Z (Z.of_nat (rows img))) = None)
  /\ forall r, prescale resize preScale img = Some (Exit0 r) ->
       if (preScale =? 1)%float then r = img
       else int_of_double (preScale * double_of_Z (Z.of_nat (cols img)))
            = Some (Z.of_nat (cols r))
            /\ int_of_double (preScale * double_of_Z (Z.of_nat (rows img)))
               = Some (Z.of_nat (rows r))
            /\ 1 <= cols r /\ 1 <= rows r
            /\ (Z.of_nat (cols r) * Z.of_nat (rows r) <= INT_MAX)%Z
            /\ r = (if (cols r =? cols img) && (rows r =? rows img) then img
                    else mat_tabulate (rows r) (cols r)
                           (resize img (cols r) (rows r))).
Proof.
  unfold option_S. destruct (value <=? 0)%float eqn:Hp; [discriminate|].
  intros [= <-]. split.
  - unfold prescale.
    destruct (value =? 1)%float; [discriminate|].
    destruct (_ || _); [discriminate|].
    destruct (int_of_double (_ * double_of_Z (Z.of_nat (cols img))))
      as [nw|] eqn:Ew; [|auto].
    destruct (int_of_double (_ * double_of_Z (Z.of_nat (rows img))))
      as [nh|] eqn:Eh; [|auto].
    pose proof (prescaled_size_nonneg value (cols img) nw Hp Ew) as Hw0.
    pose proof (prescaled_size_nonneg value (rows img) nh Hp Eh) as Hh0.
    destruct ((nw =? 0) || (nh =? 0))%Z eqn:E0; [discriminate|].
    apply orb_false_iff in E0 as [Ew0 Eh0].
    apply Z.eqb_neq in Ew0. apply Z.eqb_neq in Eh0.
    destruct (Z.quot INT_MAX nw <? nh)%Z; [discriminate|].
    destruct (_ || _); [|discriminate].
    assert (Hpos : ((0 <? nw) && (0 <? nh))%Z = true).
    { apply andb_true_iff. split; apply Z.ltb_lt; lia. }
    rewrite Hpos. discriminate.
  - intros r Hr. destruct (value =? 1)%float eqn:Eone.
    + unfold prescale in Hr. rewrite Eone in Hr. injection Hr as <-. reflexivity.
    + exact (prescale_result value img r Eone Hr).
Qed.

End PrescaleProperties.

Lemma output_image_8bit_witness :
  let cfg0 := options_of OUT_BINARY 1 0.4 1 1 0 in
  let cfg := config_of OUT_BINARY 1 0.4 1 1 0 in
  let out := Gray (mkMat 2 4 [0; 0; 255; 255; 0; 0; 255; 255]%Z) in
  (valid_config cfg0 = true
   /\ argparse_finish cfg0 = Some cfg
   /\ binarize_sauvola_prescaled ref_resize 2 cfg image_C1x = Some (Exit0 out))
  /\ image_wf out /\ image_8bit out
  /\ channels out = 1
  /\ int_of_double (2 * double_of_Z (Z.of_nat (cols image_C1x)))
     = Some (Z.of_nat (image_cols out))
  /\ int_of_double (2 * double_of_Z (Z.of_nat (rows image_C1x)))
     = Some (Z.of_nat (image_rows out))
  /\ 1 <= image_cols out /\ 1 <= image_rows out.
Proof.
  intros cfg0 cfg out.
  assert (Hv : valid_config cfg0 = true) by (vm_compute; reflexivity).
  assert (Hrun : binarize_sauvola_prescaled ref_resize 2 cfg image_C1x
                 = Some (Exit0 out)) by (vm_compute; reflexivity).
  split.
  - split_and!; [exact Hv|reflexivity|exact Hrun].
  - exact (output_image_8bit ref_resize cfg0 cfg 2 image_C1x out Hv eq_refl Hrun).
Defined.

Lemma prescale_sizes_witness :
  let r := mkMat 2 4 [0; 0; 1; 1; 0; 0; 1; 1]%Z in
  option_S 2 = Some 2%float
  /\ prescale ref_resize 2 image_C1x = Some (Exit0 r)
  /\ int_of_double (2 * double_of_Z (Z.of_nat (cols image_C1x)))
     = Some (Z.of_nat (cols r))
  /\ int_of_double (2 * double_of_Z (Z.of_nat (rows image_C1x)))
     = Some (Z.of_nat (rows r))
  /\ 1 <= cols r /\ 1 <= rows r
  /\ (Z.of_nat (cols r) * Z.of_nat (rows r) <= INT_MAX)%Z
  /\ r = mat_tabulate (rows r) (cols r) (ref_resize image_C1x (cols r) (rows r)).
Proof.
  intros r.
  assert (Hr : prescale ref_resize 2 image_C1x = Some (Exit0 r))
    by (vm_compute; reflexivity).
  split; [reflexivity|]. split; [exact Hr|].
  destruct (prescale_sizes ref_resize 2 2 image_C1x eq_refl) as [_ H].
  exact (H r Hr).
Defined.

(** ** binarize-sauvola: the channels of the multi-window output *)

(** One turn of the loop over the window sizes in the multi-window
    mode. *)
Lemma multiw_step cfg img c wsize (realdst : Mat Vec3b) :
  programMode cfg = OUT_VARIABLE_MULTIW ->
  mat_wf img -> is_8bit img -> window_size_ok wsize = true ->
  c < 3 ->
  mat_wf realdst -> rows realdst = rows img -> cols realdst = cols img ->
  ((forall y x, y < rows img -> x < cols img ->
      is_Some (pixel_sample cfg img wsize y x)) ->
   exists r,
     match window_pass cfg img realdst wsize with
     | Some (dst, rd) => Some (finalize_window cfg (rows img) (cols img) c dst rd)
     | None => None
     end = Some (Color r)
     /\ mat_wf r /\ rows r = rows img /\ cols r = cols img
     /\ forall y x, y < rows img -> x < cols img -> forall k, k < 3 ->
          if (c <=? k) && (k <? if S c =? length (multiWindowSize cfg) then 3 else S c)
          then pixel_sample cfg img wsize y x
               = Some (nth_channel (mat_at r y x) (2 - k))
          else nth_channel (mat_at r y x) (2 - k)
               = nth_channel (mat_at realdst y x) (2 - k))
  /\ (forall y x, y < rows img -> x < cols img ->
        pixel_sample cfg img wsize y x = None ->
        match window_pass cfg img realdst wsize with
        | Some (dst, rd) => Some (finalize_window cfg (rows img) (cols img) c dst rd)
        | None => None
        end = None).
Proof.
  intros Hmode Hwf H8 Hok Hc Hwfr Hrr Hcr.
  assert (Hpi : programMode cfg <> OUT_PIXELINFO) by (rewrite Hmode; discriminate).
  unfold window_size_ok in Hok. apply andb_true_iff in Hok as [Hw1 Hw2].
  apply Nat.leb_le in Hw1. apply Z.leb_le in Hw2.
  destruct (window_pass_samples cfg img realdst wsize Hpi Hwf H8 Hw1 Hw2) as [HA HB].
  split.
  - intros Hsome. destruct (HA Hsome) as (dst & rd & Hpass & Hwfd & Hrd & Hcd & Hat).
    rewrite Hpass.
    destruct (window_pass_invariant _ _ _ _ _ _ Hpass) as (_ & _ & _ & _ & _ & Hsame).
    rewrite (Hsame Hpi).
    destruct (finalize_multiw cfg (rows img) (cols img) c dst realdst Hmode Hc
                Hwfr Hrr Hcr) as (r & -> & Hwf' & Hr' & Hc' & Hch).
    exists r. split_and!; auto.
    intros y x Hy Hx k Hk. rewrite (Hch y x Hy Hx k Hk).
    destruct (_ && _); [apply Hat; assumption|reflexivity].
  - intros y x Hy Hx Hnone. rewrite (HB y x Hy Hx Hnone). reflexivity.
Qed.

(** X11. In the multi-window mode with the three window sizes that
    [argparse] leaves, the output holds at every pixel the sample of the
    Variable policy for the first window size in its channel R, for the
    second in G and for the third in B; no channel keeps a sample of the
    freshly allocated [realdst].  The run is undefined when one of these
    samples is. *)
Theorem multiw_channels (cfg : Config) (img : Mat Z) (w0 w1 w2 : nat) :
  programMode cfg = OUT_VARIABLE_MULTIW ->
  multiWindowSize cfg = [w0; w1; w2] ->
  mat_wf img -> is_8bit img -> 1 <= rows img -> 1 <= cols img ->
  window_size_ok w0 = true -> window_size_ok w1 = true -> window_size_ok w2 = true ->
  pad_size_ok (cols img) (rows img) (windowSize cfg) = true ->
  ((forall wsize y x, In wsize [w0; w1; w2] -> y < rows img -> x < cols img ->
      is_Some (pixel_sample cfg img wsize y x)) ->
   exists out, binarize_sauvola cfg img = Some (Exit0 (Color out))
     /\ mat_wf out /\ rows out = rows img /\ cols out = cols img
     /\ forall y x, y < rows img -> x < cols img ->
          pixel_sample cfg img w0 y x = Some (mat_at out y x).2
          /\ pixel_sample cfg img w1 y x = Some (mat_at out y x).1.2
          /\ pixel_sample cfg img w2 y x = Some (mat_at out y x).1.1)
  /\ (forall wsize y x, In wsize [w0; w1; w2] -> y < rows img -> x < cols img ->
        pixel_sample cfg img wsize y x = None ->
        binarize_sauvola cfg img = None).
Proof.
  intros Hmode Hmw Hwf H8 Hh Hw Hok0 Hok1 Hok2 Hpad.
  unfold binarize_sauvola.
  destruct (cols img =? 0) eqn:Ec; [apply Nat.eqb_eq in Ec; lia|].
  destruct (rows img =? 0) eqn:Er; [apply Nat.eqb_eq in Er; lia|].
  rewrite Hpad, Hmode, Hmw.
  cbn [orb negb ProgramMode_eqb length for_loop].
  change ([w0; w1; w2] !!! 0) with w0.
  change ([w0; w1; w2] !!! 1) with w1.
  change ([w0; w1; w2] !!! 2) with w2.
  set (r0 := mat_new (rows img) (cols img) (0, 0, 0)%Z).
  destruct (multiw_step cfg img 0 w0 r0 Hmode Hwf H8 Hok0)
    as [HA0 HB0]; [lia|apply mat_new_wf|reflexivity|reflexivity|].
  rewrite Hmw in HA0. cbn [length Nat.eqb] in HA0.
  split.
  - intros Hsome.
    destruct HA0 as (r1 & -> & Hwf1 & Hr1 & Hc1 & Hch1).
    { intros y x. apply Hsome. simpl. auto. }
    destruct (multiw_step cfg img 1 w1 r1 Hmode Hwf H8 Hok1)
      as [HA1 _]; [lia|exact Hwf1|exact Hr1|exact Hc1|].
    rewrite Hmw in HA1. cbn [length Nat.eqb] in HA1.
    destruct HA1 as (r2 & -> & Hwf2 & Hr2 & Hc2 & Hch2).
    { intros y x. apply Hsome. simpl. auto. }
    destruct (multiw_step cfg img 2 w2 r2 Hmode Hwf H8 Hok2)
      as [HA2 _]; [lia|exact Hwf2|exact Hr2|exact Hc2|].
    rewrite Hmw in HA2. cbn [length Nat.eqb] in HA2.
    destruct HA2 as (r3 & -> & Hwf3 & Hr3 & Hc3 & Hch3).
    { intros y x. apply Hsome. simpl. auto. }
    exists r3. split_and!; auto.
    intros y x Hy Hx. split_and!.
    + pose proof (Hch1 y x Hy Hx 0 ltac:(lia)) as A0.
      pose proof (Hch2 y x Hy Hx 0 ltac:(lia)) as A1.
      pose proof (Hch3 y x Hy Hx 0 ltac:(lia)) as A2.
      cbn in A0, A1, A2. rewrite A0. f_equal.
      exact (eq_sym (eq_trans A2 A1)).
    + pose proof (Hch2 y x Hy Hx 1 ltac:(lia)) as A1.
      pose proof (Hch3 y x Hy Hx 1 ltac:(lia)) as A2.
      cbn in A1, A2. rewrite A1. f_equal. exact (eq_sym A2).
    + pose proof (Hch3 y x Hy Hx 2 ltac:(lia)) as A2.
      cbn in A2. exact A2.
  - intros wsize y x Hin Hy Hx Hnone.
    assert (Hstep : forall c ws st, c < 3 -> window_size_ok ws = true ->
              pixel_sample cfg img ws y x = None ->
              match st with
              | None => None
              | Some realdst =>
                  match window_pass cfg img
                          match realdst with Color m => m | Gray _ => mkMat 0 0 [] end ws
                  with
                  | Some (dst, rd) =>
                      Some (finalize_window cfg (rows img) (cols img) c dst rd)
                  | None => None
                  end
              end = None).
    { intros c ws [realdst|] Hc Hok Hn; [|reflexivity].
      assert (Hpi : programMode cfg <> OUT_PIXELINFO) by (rewrite Hmode; discriminate).
      unfold window_size_ok in Hok. apply andb_true_iff in Hok as [Hw1 Hw2].
      apply Nat.leb_le in Hw1. apply Z.leb_le in Hw2.
      destruct (window_pass_samples cfg img
                  match realdst with Color m => m | Gray _ => mkMat 0 0 [] end
                  ws Hpi Hwf H8 Hw1 Hw2) as [_ HB].
      rewrite (HB y x Hy Hx Hn). reflexivity. }
    destruct Hin as [<-|[<-|[<-|[]]]].
    + rewrite (HB0 y x Hy Hx Hnone). reflexivity.
    + rewrite (Hstep 1 w1 _ ltac:(lia) Hok1 Hnone). reflexivity.
    + rewrite (Hstep 2 w2 _ ltac:(lia) Hok2 Hnone). reflexivity.
Qed.

Lemma multiw_channels_witness :
  let cfg := config_X_1_2_3 in
  (programMode cfg = OUT_VARIABLE_MULTIW
   /\ multiWindowSize cfg = [1; 2; 3]
   /\ mat_wf image_C1 /\ is_8bit image_C1
   /\ 1 <= rows image_C1 /\ 1 <= cols image_C1
   /\ window_size_ok 1 = true /\ window_size_ok 2 = true /\ window_size_ok 3 = true
   /\ pad_size_ok (cols image_C1) (rows image_C1) (windowSize cfg) = true)
  /\ exists out, binarize_sauvola cfg image_C1 = Some (Exit0 (Color out))
       /\ mat_wf out /\ rows out = rows image_C1 /\ cols out = cols image_C1
       /\ forall y x, y < rows image_C1 -> x < cols image_C1 ->
            pixel_sample cfg image_C1 1 y x = Some (mat_at out y x).2
            /\ pixel_sample cfg image_C1 2 y x = Some (mat_at out y x).1.2
            /\ pixel_sample cfg image_C1 3 y x = Some (mat_at out y x).1.1.
Proof.
  intros cfg.
  assert (Hp : pad_size_ok (cols image_C1) (rows image_C1) (windowSize cfg) = true)
    by (vm_compute; reflexivity).
  assert (H1 : window_size_ok 1 = true) by (vm_compute; reflexivity).
  assert (H2 : window_size_ok 2 = true) by (vm_compute; reflexivity).
  assert (H3 : window_size_ok 3 = true) by (vm_compute; reflexivity).
  split.
  - split_and!; try assumption; try reflexivity; try exact image_C1_8bit; simpl; lia.
  - destruct (multiw_channels cfg image_C1 1 2 3) as [HA _];
      try assumption; try reflexivity; try exact image_C1_8bit;
      [simpl; lia|simpl; lia|].
    apply HA. intros wsize y x Hin Hy Hx. simpl in Hy, Hx.
    destruct Hin as [<-|[<-|[<-|[]]]];
      (destruct y as [|[|y]]; [| |lia]);
      (destruct x as [|[|x]]; [| |lia]);
      vm_compute; eauto.
Defined.

(** ** binarize-sauvola: the pixel information output *)

Lemma window_pass_pixelinfo cfg img realdst :
  programMode cfg = OUT_PIXELINFO ->
  mat_wf img -> is_8bit img ->
  window_size_ok (windowSize cfg) = true ->
  mat_wf realdst -> rows realdst = rows img -> cols realdst = cols img ->
  ((forall y x, y < rows img -> x < cols img ->
      is_Some (pixelinfo_pixel cfg img y x)) ->
   exists dst rd, window_pass cfg img realdst (windowSize cfg) = Some (dst, rd)
     /\ mat_wf rd /\ rows rd = rows img /\ cols rd = cols img
     /\ forall y x, y < rows img -> x < cols img ->
          pixelinfo_pixel cfg img y x = Some (mat_at rd y x))
  /\ (forall y x, y < rows img -> x < cols img ->
        pixelinfo_pixel cfg img y x = None ->
        window_pass cfg img realdst (windowSize cfg) = None).
Proof.
  intros Hmode Hwf H8 Hok Hwfr Hrr Hcr.
  unfold window_size_ok in Hok. apply andb_true_iff in Hok as [Hw1 Hw2].
  apply Nat.leb_le in Hw1. apply Z.leb_le in Hw2.
  unfold window_pass. fold (padded img (windowSize cfg)).
  pose proof (fun y x => integral_totals_exact img (windowSize cfg) y x
                           Hwf H8 Hw1 Hw2) as Htot.
  simpl in Htot.
  destruct (integral_images (padded img (windowSize cfg))
              (cols img + windowSize cfg) (rows img + windowSize cfg))
    as [buffer1 buffer2].
  simpl in Htot.
  match goal with |- context [for_pixels _ _ ?body _] =>
    destruct (for_pixels_write (snd : Mat Z * Mat Vec3b -> Mat Vec3b)
                (rows img) (cols img) body (pixelinfo_pixel cfg img)
                (mat_new (rows img) (cols img) 0%Z, realdst)) as [HA HB]
  end.
  - reflexivity.
  - intros y x [dst rd] Hy Hx. rewrite Hmode. cbn [ProgramMode_eqb].
    destruct (Htot y x Hy Hx) as [-> ->]. rewrite padded_center by assumption.
    unfold pixelinfo_pixel, pixelinfo_sample, pixel_threshold, dst_sample, oVariable.
    rewrite Hmode. cbn [ProgramMode_eqb orb]. cbv zeta.
    fold (windowed_mean img (windowSize cfg) y x).
    fold (windowed_stddev img (windowSize cfg) y x).
    pose proof (is_8bit_at img y x Hwf H8 Hy Hx) as Hc.
    unfold uchar_of_int. rewrite (Z.mod_small (255 - mat_at img y x) 256) by lia.
    destruct (uchar_of_double (windowed_mean img (windowSize cfg) y x)) as [m|];
      [|reflexivity].
    destruct (uchar_of_double (windowed_stddev img (windowSize cfg) y x * 2))
      as [d|]; [|reflexivity].
    destruct (int_of_double _) as [t|]; [|reflexivity].
    eexists. split; reflexivity.
  - exact Hwfr.
  - exact Hrr.
  - exact Hcr.
  - split.
    + intros Hsome. destruct (HA Hsome) as ([dst rd] & Hres & Hrest).
      exists dst, rd. split; [exact Hres|exact Hrest].
    + exact HB.
Qed.

(** X12. In the pixel information mode the output holds at every pixel
    the windowed mean in its channel B, twice the windowed standard
    deviation in G, both truncated to [unsigned char], and 255 minus the
    intensity of the pixel in R.  The run is undefined when one of the
    two conversions is, and also when the conversion to [int] of the
    threshold is, although the mode does not output it. *)
Theorem pixelinfo_channels (cfg : Config) (img : Mat Z) :
  programMode cfg = OUT_PIXELINFO ->
  multiWindowSize cfg = [windowSize cfg] ->
  mat_wf img -> is_8bit img -> 1 <= rows img -> 1 <= cols img ->
  window_size_ok (windowSize cfg) = true ->
  pad_size_ok (cols img) (rows img) (windowSize cfg) = true ->
  ((forall y x, y < rows img -> x < cols img ->
      is_Some (pixelinfo_pixel cfg img y x)) ->
   exists out, binarize_sauvola cfg img = Some (Exit0 (Color out))
     /\ mat_wf out /\ rows out = rows img /\ cols out = cols img
     /\ forall y x, y < rows img -> x < cols img ->
          pixelinfo_pixel cfg img y x = Some (mat_at out y x))
  /\ (forall y x, y < rows img -> x < cols img ->
        pixelinfo_pixel cfg img y x = None ->
        binarize_sauvola cfg img = None).
Proof.
  intros Hmode Hmw Hwf H8 Hh Hw Hok Hpad.
  unfold binarize_sauvola.
  destruct (cols img =? 0) eqn:Ec; [apply Nat.eqb_eq in Ec; lia|].
  destruct (rows img =? 0) eqn:Er; [apply Nat.eqb_eq in Er; lia|].
  rewrite Hpad, Hmode, Hmw.
  cbn [orb negb ProgramMode_eqb length for_loop].
  change ([windowSize cfg] !!! 0) with (windowSize cfg).
  destruct (window_pass_pixelinfo cfg img
              (mat_new (rows img) (cols img) (0, 0, 0)%Z) Hmode Hwf H8 Hok)
    as [HA HB]; [apply mat_new_wf|reflexivity|reflexivity|].
  split.
  - intros Hsome. destruct (HA Hsome) as (dst & rd & -> & Hrest).
    unfold finalize_window. rewrite Hmode. cbn [ProgramMode_eqb negb].
    exists rd. split; [reflexivity|exact Hrest].
  - intros y x Hy Hx Hnone. rewrite (HB y x Hy Hx Hnone). reflexivity.
Qed.

Lemma pixelinfo_channels_witness :
  let cfg := config_of OUT_PIXELINFO 2 0.4 1 1 0 in
  (programMode cfg = OUT_PIXELINFO
   /\ multiWindowSize cfg = [windowSize cfg]
   /\ mat_wf image_C1 /\ is_8bit image_C1
   /\ 1 <= rows image_C1 /\ 1 <= cols image_C1
   /\ window_size_ok (windowSize cfg) = true
   /\ pad_size_ok (cols image_C1) (rows image_C1) (windowSize cfg) = true)
  /\ exists out, binarize_sauvola cfg image_C1 = Some (Exit0 (Color out))
       /\ mat_wf out /\ rows out = rows image_C1 /\ cols out = cols image_C1
       /\ forall y x, y < rows image_C1 -> x < cols image_C1 ->
            pixelinfo_pixel cfg image_C1 y x = Some (mat_at out y x).
Proof.
  intros cfg.
  assert (Hp : pad_size_ok (cols image_C1) (rows image_C1) (windowSize cfg) = true)
    by (vm_compute; reflexivity).
  assert (Hok : window_size_ok (windowSize cfg) = true) by (vm_compute; reflexivity).
  split.
  - split_and!; try assumption; try reflexivity; try exact image_C1_8bit; simpl; lia.
  - destruct (pixelinfo_channels cfg image_C1) as [HA _];
      try assumption; try reflexivity; try exact image_C1_8bit;
      [simpl; lia|simpl; lia|].
    apply HA. intros y x Hy Hx. simpl in Hy, Hx.
    (destruct y as [|[|y]]; [| |lia]);
      (destruct x as [|[|x]]; [| |lia]);
      vm_compute; eauto.
Defined.

(** ** isolate-bg: the mask *)

(** X13. When [binarizeUsingSauvola] returns [true], [dst] is a mask of
    the size of the source whose samples are 0 or 255, whatever the
    samples of the source; it returns [false], and leaves [dst] as it
    was, exactly when the source is empty or fails the size check. *)
Theorem binarizeUsingSauvola_result (dst0 src : Mat Z) (wsize : nat)
    (kParam rScale : float) (ok : bool) (dst : Mat Z) :
  IsolateBg.binarizeUsingSauvola dst0 src wsize kParam rScale = Some (ok, dst) ->
  if ok then
    mat_wf dst /\ rows dst = rows src /\ cols dst = cols src /\ binary_mask dst
    /\ 1 <= rows src /\ 1 <= cols src
    /\ pad_size_ok (cols src) (rows src) wsize = true
  else
    dst = dst0
    /\ (cols src = 0 \/ rows src = 0 \/ pad_size_ok (cols src) (rows src) wsize = false).
Proof.
  unfold IsolateBg.binarizeUsingSauvola.
  destruct (cols src =? 0) eqn:Ec.
  { intros [= <- <-]. apply Nat.eqb_eq in Ec. auto. }
  destruct (rows src =? 0) eqn:Er.
  { intros [= <- <-]. apply Nat.eqb_eq in Er. auto. }
  destruct (pad_size_ok (cols src) (rows src) wsize) eqn:Ep.
  2: { intros [= <- <-]. auto. }
  cbn [orb negb].
  destruct (integral_images _ _ _) as [buffer1 buffer2].
  match goal with |- context [for_pixels ?h ?w ?body ?s0] =>
    destruct (for_pixels_rule h w body
                (fun st => forall m, st = Some m ->
                   mat_wf m /\ rows m = rows src /\ cols m = cols src)
                (fun y x st => forall m, st = Some m ->
                   mat_at m y x = 0%Z \/ mat_at m y x = 255%Z) s0) as [HP HQ]
  end.
  - intros m [= <-]. split_and!; auto using mat_new_wf.
  - intros y x [m0|] Hy Hx HP; [|split; discriminate].
    destruct (HP m0 eq_refl) as (Hwf & Hr & Hc).
    destruct (IsolateBg.dst_sample _ _ _ _ _ _) as [v|] eqn:Ev; [|split; discriminate].
    split; intros m [= <-].
    + split_and!; auto using mat_set_wf.
    + rewrite mat_at_set_eq by (auto; lia).
      unfold IsolateBg.dst_sample in Ev.
      destruct (int_of_double _) as [t|]; [|discriminate].
      injection Ev as <-. destruct (t <? _)%Z; auto.
  - intros y x y' x' [m0|] Hy Hx Hy' Hx' Hne HP HQ; [|discriminate].
    destruct (HP m0 eq_refl) as (Hwf & Hr & Hc).
    destruct (IsolateBg.dst_sample _ _ _ _ _ _) as [v|]; [|discriminate].
    intros m [= <-]. rewrite mat_at_set_ne by (auto; lia). apply HQ. reflexivity.
  - destruct (for_pixels _ _ _ _) as [m|]; [|discriminate].
    intros [= <- <-]. destruct (HP m eq_refl) as (Hwf & Hr & Hc).
    apply Nat.eqb_neq in Ec, Er.
    split_and!; auto; try lia.
    intros y x Hy Hx. apply (HQ y x); [lia|lia|reflexivity].
Qed.

Lemma binarizeUsingSauvola_result_witness :
  IsolateBg.binarizeUsingSauvola (mkMat 0 0 []) image_C1 2 0.4 1
  = Some (true, mkMat 2 2 [0; 255; 255; 255]%Z)
  /\ let dst := mkMat 2 2 [0; 255; 255; 255]%Z in
     mat_wf dst /\ rows dst = rows image_C1 /\ cols dst = cols image_C1
     /\ binary_mask dst
     /\ 1 <= rows image_C1 /\ 1 <= cols image_C1
     /\ pad_size_ok (cols image_C1) (rows image_C1) 2 = true.
Proof.
  assert (H : IsolateBg.binarizeUsingSauvola (mkMat 0 0 []) image_C1 2 0.4 1
              = Some (true, mkMat 2 2 [0; 255; 255; 255]%Z))
    by (vm_compute; reflexivity).
  split; [exact H|].
  exact (binarizeUsingSauvola_result (mkMat 0 0 []) image_C1 2 0.4 1 true
           (mkMat 2 2 [0; 255; 255; 255]%Z) H).
Defined.

(** X14. Whatever the samples of the binarized image, the two
    distances and the distances that [distanceTransform] returns, the
    mask that [main] hands to [fastInpaint] has the size of that image
    and only the samples 0 and 255. *)
Theorem refine_mask_binary (distanceTransform : Mat Z -> DistanceType -> Mat float)
    (tmp : Mat Z) (d1 d2 : float) :
  mat_wf tmp ->
  let mask := refine_mask distanceTransform tmp d1 d2 in
  mat_wf mask /\ rows mask = rows tmp /\ cols mask = cols tmp /\ binary_mask mask.
Proof.
  intros Hwf. cbv zeta. unfold refine_mask, IsolateBg.maskInvert, IsolateBg.maskInset.
  destruct (mask_negate_at tmp Hwf) as (Hwf1 & Hr1 & Hc1 & _).
  destruct (mask_threshold_distance_binary_mask (mask_negate tmp)
              (distanceTransform (mask_negate tmp) CV_DIST_L2) d1 Hwf1)
    as (Hwf3 & Hr3 & Hc3 & _).
  destruct (outset_command_binary distanceTransform _ CV_DIST_L2 d2 Hwf3)
    as (Hwf2 & Hr2 & Hc2 & Hb2).
  split_and!; auto; congruence.
Qed.

Lemma refine_mask_binary_witness :
  mat_wf mask_C10
  /\ let mask := refine_mask ref_distanceTransform mask_C10 1 5 in
     mat_wf mask /\ rows mask = rows mask_C10 /\ cols mask = cols mask_C10
     /\ binary_mask mask.
Proof.
  split; [reflexivity|].
  apply (refine_mask_binary ref_distanceTransform mask_C10 1 5). reflexivity.
Defined.

(** ** isolate-bg: the initialization by the mean *)

Lemma sum_upto_le n f g :
  (forall i, i < n -> (f i <= g i)%Z) -> (sum_upto n f <= sum_upto n g)%Z.
Proof.
  induction n as [|n IH]; simpl sum_upto; intros H; [lia|].
  specialize (IH (fun i Hi => H i (Nat.lt_lt_succ_r _ _ Hi))).
  specialize (H n (Nat.lt_succ_diag_r n)). lia.
Qed.

Lemma sum_upto_scale n c f :
  sum_upto n (fun i => (c * f i)%Z) = (c * sum_upto n f)%Z.
Proof. induction n as [|n IH]; simpl sum_upto; [lia|]. rewrite IH. lia. Qed.

Lemma sum_upto_term n f i :
  (forall j, j < n -> (0 <= f j)%Z) -> i < n -> (f i <= sum_upto n f)%Z.
Proof.
  induction n as [|n IH]; simpl sum_upto; intros H Hi; [lia|].
  assert (H0 : (0 <= sum_upto n f)%Z).
  { pose proof (sum_upto_le n (fun _ => 0%Z) f
                  (fun j Hj => H j (Nat.lt_lt_succ_r _ _ Hj))) as Hle.
    rewrite sum_upto_const in Hle. lia. }
  destruct (decide (i = n)) as [->|Hne]; [lia|].
  specialize (IH (fun j Hj => H j (Nat.lt_lt_succ_r _ _ Hj)) ltac:(lia)).
  specialize (H n (Nat.lt_succ_diag_r n)). lia.
Qed.

Lemma unmasked_total_bounds f mask h w :
  (forall y x, y < h -> x < w -> (0 <= f y x <= 255)%Z) ->
  (0 <= unmasked_total f mask h w <= 255 * unmasked_count mask h w)%Z.
Proof.
  intros Hf. unfold unmasked_count, unmasked_total. split.
  - pose proof (sum_upto_le h (fun _ => 0%Z)
                  (fun y => sum_upto w (fun x => if masked mask y x then 0%Z else f y x)))
      as H.
    rewrite sum_upto_const in H. etransitivity; [|apply H]; [lia|].
    intros y Hy.
    pose proof (sum_upto_le w (fun _ => 0%Z)
                  (fun x => if masked mask y x then 0%Z else f y x)) as H'.
    rewrite sum_upto_const in H'. etransitivity; [|apply H']; [lia|].
    intros x Hx. destruct (masked mask y x); [lia|]. apply Hf; assumption.
  - rewrite <- sum_upto_scale. apply sum_upto_le. intros y Hy.
    rewrite <- sum_upto_scale. apply sum_upto_le. intros x Hx.
    destruct (masked mask y x); [lia|]. specialize (Hf y x Hy Hx). lia.
Qed.

Lemma unmasked_count_bounds mask h w :
  (0 <= unmasked_count mask h w <= Z.of_nat h * Z.of_nat w)%Z.
Proof.
  unfold unmasked_count, unmasked_total.
  assert (H : (0 <= sum_upto h (fun y =>
                       sum_upto w (fun x => if masked mask y x then 0 else 1))
               <= Z.of_nat h * (Z.of_nat w * 1))%Z).
  { apply sum_upto_bounds. intros y Hy. apply sum_upto_bounds. intros x Hx.
    destruct (masked mask y x); lia. }
  lia.
Qed.

Lemma unmasked_count_pos mask h w y x :
  y < h -> x < w -> masked mask y x = false -> (1 <= unmasked_count mask h w)%Z.
Proof.
  intros Hy Hx Hm. unfold unmasked_count, unmasked_total.
  assert (Hrow : forall y', y' < h ->
            (0 <= sum_upto w (fun x' => if masked mask y' x' then 0 else 1))%Z).
  { intros y' Hy'.
    pose proof (sum_upto_bounds w (fun x' => if masked mask y' x' then 0%Z else 1%Z) 1)
      as H.
    apply H. intros x' Hx'. destruct (masked mask y' x'); lia. }
  etransitivity;
    [|apply (sum_upto_term h
               (fun y' => sum_upto w (fun x' => if masked mask y' x' then 0%Z else 1%Z))
               y Hrow Hy)].
  etransitivity;
    [|apply (sum_upto_term w (fun x' => if masked mask y x' then 0%Z else 1%Z) x)];
    [rewrite Hm; lia| |exact Hx].
  intros x' Hx'. destruct (masked mask y x'); lia.
Qed.

Lemma wrap64_acc a b v : wrap64 (wrap64 (a + b) + v) = wrap64 (a + (b + v)).
Proof. wrap64_lia. Qed.

Lemma wrap64_skip a b : wrap64 (a + b) = wrap64 (a + (b + 0)).
Proof. f_equal. lia. Qed.

Lemma wrap64_row a b : wrap64 (a + b) = wrap64 (a + b + 0).
Proof. f_equal. lia. Qed.

Lemma wrap64_end a : wrap64 (a + 0) = wrap64 a.
Proof. f_equal. lia. Qed.

Ltac wrap64_step :=
  repeat (apply pair_equal_spec; split); try reflexivity;
  first [ apply wrap64_acc | apply wrap64_skip | apply wrap64_row
        | apply wrap64_end ].

Lemma mean_totals_gray s mask h w :
  IsolateBg.mean_totals (Gray s) mask h w
  = (wrap64 (unmasked_total (mat_at s) mask h w), 0, 0,
     wrap64 (unmasked_count mask h w))%Z.
Proof.
  unfold IsolateBg.mean_totals, unmasked_count, unmasked_total.
  pose (part := fun (f : nat -> nat -> Z) (y x : nat) =>
    (sum_upto y (fun y' => sum_upto w (fun x' => if masked mask y' x' then 0 else f y' x'))
     + sum_upto x (fun x' => if masked mask y x' then 0 else f y x'))%Z).
  pose (I := fun (y x : nat) (st : Z * Z * Z * Z) =>
    st = (wrap64 (part (mat_at s) y x), 0, 0, wrap64 (part (fun _ _ => 1) y x))%Z).
  match goal with |- for_pixels h w ?body ?s0 = _ =>
    assert (HI : I h 0 (for_pixels h w body s0)) end.
  { apply (for_pixels_order h w _ I).
    - reflexivity.
    - intros y x st Hy Hx ->. unfold I, part. simpl sum_upto.
      destruct (masked mask y x); cbn [negb]; wrap64_step.
    - intros y st Hy ->. unfold I, part. simpl sum_upto. wrap64_step. }
  unfold I, part in HI. simpl sum_upto in HI. rewrite HI. wrap64_step.
Qed.

Lemma mean_totals_color s mask h w :
  IsolateBg.mean_totals (Color s) mask h w
  = (wrap64 (unmasked_total (fun y x => (mat_at s y x).2) mask h w),
     wrap64 (unmasked_total (fun y x => (mat_at s y x).1.2) mask h w),
     wrap64 (unmasked_total (fun y x => (mat_at s y x).1.1) mask h w),
     wrap64 (unmasked_count mask h w))%Z.
Proof.
  unfold IsolateBg.mean_totals, unmasked_count, unmasked_total.
  pose (part := fun (f : nat -> nat -> Z) (y x : nat) =>
    (sum_upto y (fun y' => sum_upto w (fun x' => if masked mask y' x' then 0 else f y' x'))
     + sum_upto x (fun x' => if masked mask y x' then 0 else f y x'))%Z).
  pose (I := fun (y x : nat) (st : Z * Z * Z * Z) =>
    st = (wrap64 (part (fun y x => (mat_at s y x).2) y x),
          wrap64 (part (fun y x => (mat_at s y x).1.2) y x),
          wrap64 (part (fun y x => (mat_at s y x).1.1) y x),
          wrap64 (part (fun _ _ => 1) y x))%Z).
  match goal with |- for_pixels h w ?body ?s0 = _ =>
    assert (HI : I h 0 (for_pixels h w body s0)) end.
  { apply (for_pixels_order h w _ I).
    - reflexivity.
    - intros y x st Hy Hx ->. unfold I, part. simpl sum_upto.
      destruct (masked mask y x); cbn [negb]; cbv zeta; wrap64_step.
    - intros y st Hy ->. unfold I, part. simpl sum_upto. wrap64_step. }
  unfold I, part in HI. simpl sum_upto in HI. rewrite HI. wrap64_step.
Qed.

Lemma mean_value f mask h w :
  (forall y x, y < h -> x < w -> (0 <= f y x <= 255)%Z) ->
  (Z.of_nat h * Z.of_nat w * 255 < 2 ^ 64)%Z ->
  (1 <= unmasked_count mask h w)%Z ->
  uchar_of_int (wrap64 (unmasked_total f mask h w) / wrap64 (unmasked_count mask h w))
  = unmasked_mean f mask h w
  /\ (wrap64 (unmasked_count mask h w) =? 0)%Z = false.
Proof.
  intros Hf Hsize Hpos.
  pose proof (unmasked_total_bounds f mask h w Hf) as HT.
  pose proof (unmasked_count_bounds mask h w) as HN.
  change (2 ^ 64)%Z with 18446744073709551616%Z in Hsize.
  rewrite (wrap64_small (unmasked_total f mask h w))
    by (change (2 ^ 64)%Z with 18446744073709551616%Z; lia).
  rewrite (wrap64_small (unmasked_count mask h w))
    by (change (2 ^ 64)%Z with 18446744073709551616%Z; lia).
  split; [|apply Z.eqb_neq; lia].
  unfold unmasked_mean, uchar_of_int. apply Z.mod_small.
  split; [apply Z.div_pos; lia|].
  apply Z.le_lt_trans with 255%Z; [|lia].
  apply Z.div_le_upper_bound; lia.
Qed.

Lemma fill_masked_at {T : Type} `{!Inhabited T} mask h w (c : T) (dst : Mat T) :
  mat_wf dst -> rows dst = h -> cols dst = w ->
  let r := IsolateBg.fill_masked mask h w c dst in
  mat_wf r /\ rows r = h /\ cols r = w
  /\ forall y x, y < h -> x < w ->
       mat_at r y x = if masked mask y x then c else mat_at dst y x.
Proof.
  intros Hwf Hr Hc. unfold IsolateBg.fill_masked.
  apply (for_pixels_pointwise h w _ (fun y x v => if masked mask y x then c else v));
    auto.
  intros y x m Hy Hx. destruct (masked mask y x); auto.
Qed.

(** X15. When no accumulator overflows and the mask is zero at some
    pixel, the initialization by the mean succeeds and leaves an image
    of the same size in which every masked pixel holds, channel by
    channel, the sum of the unmasked pixels of the source divided by
    their number and rounded down, and every unmasked pixel holds what
    it held. *)
Theorem mean_init_fills_mean (src : Image) (mask : Mat Z) :
  image_wf src -> image_8bit src ->
  (Z.of_nat (image_rows src) * Z.of_nat (image_cols src) * 255 < 2 ^ 64)%Z ->
  (exists y x, y < image_rows src /\ x < image_cols src /\ mat_at mask y x = 0%Z) ->
  exists dst,
    IsolateBg.mean_init src mask (image_rows src) (image_cols src) = Some dst
    /\ image_wf dst
    /\ image_rows dst = image_rows src /\ image_cols dst = image_cols src
    /\ forall y x, y < image_rows src -> x < image_cols src ->
         if masked mask y x then holds_mean src dst mask y x
         else same_pixel src dst y x.
Proof.
  intros Hwf H8 Hsize (y0 & x0 & Hy0 & Hx0 & Hm0).
  assert (Hpos : (1 <= unmasked_count mask (image_rows src) (image_cols src))%Z).
  { apply (unmasked_count_pos mask _ _ y0 x0 Hy0 Hx0).
    unfold masked. rewrite Hm0. reflexivity. }
  unfold IsolateBg.mean_init.
  destruct src as [s|s]; cbn [image_rows image_cols image_wf image_8bit] in *.
  - rewrite mean_totals_gray.
    destruct (mean_value (mat_at s) mask (rows s) (cols s)) as [Hmean Hnz]; auto.
    { intros y x Hy Hx. apply is_8bit_at; assumption. }
    rewrite Hnz, Hmean.
    destruct (fill_masked_at mask (rows s) (cols s)
                (unmasked_mean (mat_at s) mask (rows s) (cols s)) s Hwf eq_refl eq_refl)
      as (Hwf' & Hr' & Hc' & Hat).
    eexists. split; [reflexivity|]. simpl. split_and!; auto.
    intros y x Hy Hx. specialize (Hat y x Hy Hx).
    destruct (masked mask y x); [exact Hat|symmetry; exact Hat].
  - rewrite mean_totals_color.
    assert (Hpix : forall y x, y < rows s -> x < cols s ->
              (0 <= (mat_at s y x).1.1 <= 255)%Z /\ (0 <= (mat_at s y x).1.2 <= 255)%Z
              /\ (0 <= (mat_at s y x).2 <= 255)%Z).
    { intros y x Hy Hx. apply is_8bit_C3_at; assumption. }
    destruct (mean_value (fun y x => (mat_at s y x).2) mask (rows s) (cols s))
      as [HmeanR Hnz]; auto.
    { intros y x Hy Hx. apply Hpix; assumption. }
    destruct (mean_value (fun y x => (mat_at s y x).1.2) mask (rows s) (cols s))
      as [HmeanG _]; auto.
    { intros y x Hy Hx. apply Hpix; assumption. }
    destruct (mean_value (fun y x => (mat_at s y x).1.1) mask (rows s) (cols s))
      as [HmeanB _]; auto.
    { intros y x Hy Hx. apply Hpix; assumption. }
    rewrite Hnz, HmeanR, HmeanG, HmeanB.
    match goal with |- context [IsolateBg.fill_masked mask _ _ ?c s] =>
      destruct (fill_masked_at mask (rows s) (cols s) c s Hwf eq_refl eq_refl)
        as (Hwf' & Hr' & Hc' & Hat)
    end.
    eexists. split; [reflexivity|]. simpl. split_and!; auto.
    intros y x Hy Hx. specialize (Hat y x Hy Hx).
    destruct (masked mask y x); [exact Hat|symmetry; exact Hat].
Qed.

Lemma image_color_8bit : image_8bit image_color.
Proof.
  unfold image_8bit, image_color, is_8bit_C3. simpl.
  repeat constructor; simpl; lia.
Defined.

Lemma mean_init_fills_mean_witness :
  (image_wf image_color /\ image_8bit image_color
   /\ (Z.of_nat (image_rows image_color) * Z.of_nat (image_cols image_color) * 255
       < 2 ^ 64)%Z
   /\ exists y x, y < image_rows image_color /\ x < image_cols image_color
                  /\ mat_at mask_two y x = 0%Z)
  /\ exists dst,
       IsolateBg.mean_init image_color mask_two
         (image_rows image_color) (image_cols image_color) = Some dst
       /\ image_wf dst
       /\ image_rows dst = image_rows image_color
       /\ image_cols dst = image_cols image_color
       /\ forall y x, y < image_rows image_color -> x < image_cols image_color ->
            if masked mask_two y x then holds_mean image_color dst mask_two y x
            else same_pixel image_color dst y x.
Proof.
  assert (Hs : (Z.of_nat (image_rows image_color) * Z.of_nat (image_cols image_color)
                * 255 < 2 ^ 64)%Z) by (vm_compute; reflexivity).
  assert (Hx : exists y x, y < image_rows image_color /\ x < image_cols image_color
                           /\ mat_at mask_two y x = 0%Z).
  { exists 0, 0. split_and!; [simpl; lia|simpl; lia|reflexivity]. }
  split.
  - split_and!; [reflexivity|exact image_color_8bit|exact Hs|exact Hx].
  - apply (mean_init_fills_mean image_color mask_two);
      [reflexivity|exact image_color_8bit|exact Hs|exact Hx].
Defined.

(** ** isolate-bg: the flag of [fastInpaint] *)

Lemma pixelExists_false_inv mask h w :
  IsolateBg.pixelExists mask h w = false ->
  forall y x, y < h -> x < w -> masked mask y x = true.
Proof.
  unfold IsolateBg.pixelExists. intros Hres.
  destruct (for_pixels_rule h w
              (fun y x (pixelExists : bool) =>
                 if pixelExists then true else negb (masked mask y x))
              (fun _ => True)
              (fun y x (st : bool) => st = false -> masked mask y x = true)
              false I) as [_ HQ].
  - intros y x st _ _ _. split; [exact I|].
    destruct st; [discriminate|]. intros H. apply negb_false_iff, H.
  - intros y x y' x' st _ _ _ _ _ _ HQ. destruct st; [discriminate|].
    intros _. apply HQ. reflexivity.
  - intros y x Hy Hx. apply (HQ y x Hy Hx), Hres.
Qed.

Lemma mean_init_some src mask h w :
  (Z.of_nat h * Z.of_nat w < 2 ^ 64)%Z ->
  (exists y x, y < h /\ x < w /\ masked mask y x = false) ->
  exists dst, IsolateBg.mean_init src mask h w = Some dst.
Proof.
  intros Hsize (y0 & x0 & Hy0 & Hx0 & Hm0).
  pose proof (unmasked_count_pos mask h w y0 x0 Hy0 Hx0 Hm0) as Hpos.
  pose proof (unmasked_count_bounds mask h w) as HN.
  change (2 ^ 64)%Z with 18446744073709551616%Z in Hsize.
  assert (Hnz : (wrap64 (unmasked_count mask h w) =? 0)%Z = false).
  { rewrite wrap64_small by (change (2 ^ 64)%Z with 18446744073709551616%Z; lia).
    apply Z.eqb_neq. lia. }
  unfold IsolateBg.mean_init. destruct src as [s|s].
  - rewrite mean_totals_gray, Hnz. eauto.
  - rewrite mean_totals_color, Hnz. eauto.
Qed.

(** X16. [fastInpaint] always returns; it returns [false] exactly when
    the mask is nonzero at every pixel of the image, in both
    initialization modes, and then [dst] is the copy of the source. *)
Theorem fastInpaint_fails_iff_fully_masked
    (filter2D : Mat float -> Mat float) (filter2D_C3 : Mat Vec3f -> Mat Vec3f)
    (src : Image) (mask : Mat Z) (initMode : IsolateBg.InpaintInitMode)
    (iterations : nat) :
  (Z.of_nat (image_rows src) * Z.of_nat (image_cols src) < 2 ^ 64)%Z ->
  exists ok dst,
    IsolateBg.fastInpaint filter2D filter2D_C3 src mask initMode iterations
    = Some (ok, dst)
    /\ (ok = false
        <-> forall y x, y < image_rows src -> x < image_cols src ->
              mat_at mask y x <> 0%Z)
    /\ (ok = false -> dst = src).
Proof.
  intros Hsize.
  destruct (IsolateBg.pixelExists mask (image_rows src) (image_cols src)) eqn:E.
  - pose proof (pixelExists_true _ _ _ E) as Hex.
    assert (Hnot : ~ forall y x, y < image_rows src -> x < image_cols src ->
                     mat_at mask y x <> 0%Z).
    { destruct Hex as (y0 & x0 & Hy0 & Hx0 & Hm0). intros Hall.
      apply (Hall y0 x0 Hy0 Hx0). unfold masked in Hm0.
      apply negb_false_iff, Z.eqb_eq in Hm0. exact Hm0. }
    unfold IsolateBg.fastInpaint. destruct initMode.
    + destruct (mean_init_some src mask _ _ Hsize Hex) as [dst ->].
      eexists _, _. split; [reflexivity|].
      split; [split; [discriminate|contradiction]|discriminate].
    + unfold IsolateBg.neighbor_init. rewrite E. cbn [negb].
      destruct src as [s|s]; cbn [image_rows image_cols] in *;
        destruct (neighbor_fill_kept mask (rows s) (cols s) s eq_refl Hex)
          as (m & Hm & _);
        rewrite Hm;
        (eexists _, _; split; [reflexivity|];
         split; [split; [discriminate|contradiction]|discriminate]).
  - pose proof (pixelExists_false_inv _ _ _ E) as Hall.
    assert (Hall' : forall y x, y < image_rows src -> x < image_cols src ->
                      mat_at mask y x <> 0%Z).
    { intros y x Hy Hx. specialize (Hall y x Hy Hx). unfold masked in Hall.
      apply negb_true_iff, Z.eqb_neq in Hall. exact Hall. }
    rewrite (fastInpaint_fully_masked filter2D filter2D_C3 src mask initMode
               iterations Hall').
    eexists _, _. split; [reflexivity|]. split; [split; auto|auto].
Qed.

Lemma fastInpaint_fails_iff_fully_masked_witness :
  (Z.of_nat (image_rows image_C9) * Z.of_nat (image_cols image_C9) < 2 ^ 64)%Z
  /\ exists ok dst,
       IsolateBg.fastInpaint ref_filter2D ref_filter2D_C3 image_C9 mask_C9
         IsolateBg.ISOBG_INPAINT_INIT_MEAN 2 = Some (ok, dst)
       /\ (ok = false
           <-> forall y x, y < image_rows image_C9 -> x < image_cols image_C9 ->
                 mat_at mask_C9 y x <> 0%Z)
       /\ (ok = false -> dst = image_C9).
Proof.
  assert (Hs : (Z.of_nat (image_rows image_C9) * Z.of_nat (image_cols image_C9)
                < 2 ^ 64)%Z) by (vm_compute; reflexivity).
  split; [exact Hs|].
  apply (fastInpaint_fails_iff_fully_masked ref_filter2D ref_filter2D_C3 image_C9
           mask_C9 IsolateBg.ISOBG_INPAINT_INIT_MEAN 2 Hs).
Defined.

(** ** isolate-bg: the initialization by the nearest neighbor *)

Section NearestNeighbor.
Context {T : Type} `{!Inhabited T}.
Variable mask : Mat Z.
Variables h w : nat.

(** The pixels that the ring [d] tests are at the distance [d]. *)
Lemma candidates_distance x y d k (c : Z * Z) :
  k < d -> In c (IsolateBg.neighbor_candidates x y d k) ->
  (Z.abs (c.1 - Z.of_nat x) + Z.abs (c.2 - Z.of_nat y) = Z.of_nat d)%Z.
Proof using Type.
  intros Hk Hin. unfold IsolateBg.neighbor_candidates in Hin. simpl in Hin.
  destruct Hin as [<-|[<-|[<-|[<-|[]]]]]; simpl; lia.
Qed.

Lemma neighbor_ok_inv (c : Z * Z) :
  IsolateBg.neighbor_ok mask h w c = true ->
  (0 <= c.1)%Z /\ (0 <= c.2)%Z
  /\ Z.to_nat c.2 < h /\ Z.to_nat c.1 < w
  /\ masked mask (Z.to_nat c.2) (Z.to_nat c.1) = false.
Proof using Type.
  unfold IsolateBg.neighbor_ok. rewrite !andb_true_iff, negb_true_iff.
  rewrite !Z.leb_le, !Z.ltb_lt. intros [[[[H1 H2] H3] H4] H5].
  split_and!; auto; lia.
Qed.

(** The turns of one ring either find nothing, and then no pixel of the
    ring is an unmasked pixel of the image, or copy an unmasked pixel
    of the ring. *)
Lemma ring_loop_found y x d (dst : Mat T) :
  let st := for_loop d (IsolateBg.ring_step mask h w y x d) (dst, false) in
  (st = (dst, false)
   /\ forall k c, k < d -> In c (IsolateBg.neighbor_candidates x y d k) ->
        IsolateBg.neighbor_ok mask h w c = false)
  \/ (st.2 = true
      /\ exists k c, k < d /\ In c (IsolateBg.neighbor_candidates x y d k)
           /\ IsolateBg.neighbor_ok mask h w c = true
           /\ st.1 = mat_set dst y x (mat_at dst (Z.to_nat c.2) (Z.to_nat c.1))).
Proof using Type.
  cbv zeta.
  pose (Pin := fun (n : nat) (st : Mat T * bool) =>
    (st = (dst, false)
     /\ forall k c, k < n -> In c (IsolateBg.neighbor_candidates x y d k) ->
          IsolateBg.neighbor_ok mask h w c = false)
    \/ (st.2 = true
        /\ exists k c, k < n /\ In c (IsolateBg.neighbor_candidates x y d k)
             /\ IsolateBg.neighbor_ok mask h w c = true
             /\ st.1 = mat_set dst y x (mat_at dst (Z.to_nat c.2) (Z.to_nat c.1)))).
  apply (for_loop_ind Pin).
  - left. split; [reflexivity|]. intros; lia.
  - intros k st Hk [[-> Hnone]|[Hok (k' & c & Hk' & Hin & Hc & Hst)]].
    + unfold IsolateBg.ring_step. cbn [fst snd].
      destruct (List.find (IsolateBg.neighbor_ok mask h w)
                  (IsolateBg.neighbor_candidates x y d k)) as [XY|] eqn:Ef.
      * right. cbn [fst snd]. split; [reflexivity|].
        apply List.find_some in Ef as [Hin Hc].
        exists k, XY. split_and!; auto.
      * left. split; [reflexivity|]. intros k' c Hk' Hin.
        destruct (decide (k' = k)) as [->|Hne].
        -- apply (List.find_none _ _ Ef c Hin).
        -- apply (Hnone k' c); [lia|exact Hin].
    + right. unfold IsolateBg.ring_step. rewrite Hok. split; [exact Hok|].
      exists k', c. split_and!; auto.
Qed.

(** The search from the ring [d] on, when no unmasked pixel of the
    image is nearer than [d], ends with the copy of a nearest one. *)
Lemma ring_search_nearest y x fuel d (dst m : Mat T) :
  1 <= d ->
  (forall Y' X', Y' < h -> X' < w -> masked mask Y' X' = false ->
     (Z.of_nat d <= l1_distance y x Y' X')%Z) ->
  IsolateBg.ring_search mask h w y x fuel d dst = Some m ->
  exists Y X, nearest_unmasked mask h w y x Y X
              /\ m = mat_set dst y x (mat_at dst Y X).
Proof using Type.
  revert d. induction fuel as [|fuel IH]; intros d Hd Hfar; [discriminate|].
  simpl. destruct (ring_loop_found y x d dst)
    as [[-> Hnone]|[-> (k & c & Hk & Hin & Hc & ->)]].
  - cbn [fst snd]. apply IH; [lia|].
    intros Y' X' HY HX Hm. specialize (Hfar Y' X' HY HX Hm).
    destruct (decide (l1_distance y x Y' X' = Z.of_nat d)) as [E|E]; [|lia].
    destruct (ring_covers x y d (Z.of_nat X') (Z.of_nat Y') Hd E) as (k & Hk & Hin).
    specialize (Hnone k _ Hk Hin). unfold IsolateBg.neighbor_ok in Hnone.
    cbn [fst snd] in Hnone. rewrite !Nat2Z.id, Hm in Hnone.
    rewrite !andb_false_iff, !Z.leb_gt, !Z.ltb_ge in Hnone.
    destruct Hnone as [[[[H|H]|H]|H]|H]; (lia || discriminate).
  - intros [= <-].
    pose proof (candidates_distance x y d k c Hk Hin) as Hdist.
    destruct (neighbor_ok_inv c Hc) as (H1 & H2 & HY & HX & Hm).
    exists (Z.to_nat c.2), (Z.to_nat c.1). split; [|reflexivity].
    unfold nearest_unmasked. split_and!; auto.
    intros Y' X' HY' HX' Hm'. specialize (Hfar Y' X' HY' HX' Hm').
    unfold l1_distance in *. rewrite !Z2Nat.id by assumption. lia.
Qed.

(** X17. When the mask is zero at some pixel of the image, the
    initialization by the nearest neighbor ends and leaves an image of
    the same size in which every masked pixel holds the value that the
    source has at an unmasked pixel of least L1 distance, and every
    unmasked pixel holds what it held. *)
Theorem neighbor_fill_nearest (dst : Mat T) :
  mat_wf dst -> rows dst = h -> cols dst = w ->
  (exists Y0 X0, Y0 < h /\ X0 < w /\ masked mask Y0 X0 = false) ->
  exists m, IsolateBg.neighbor_fill mask h w dst = Some m
    /\ mat_wf m /\ rows m = h /\ cols m = w
    /\ forall y x, y < h -> x < w ->
         if masked mask y x
         then exists Y X, nearest_unmasked mask h w y x Y X
                          /\ mat_at m y x = mat_at dst Y X
         else mat_at m y x = mat_at dst y x.
Proof using Type.
  intros Hwf Hr Hc (Y0 & X0 & HY0 & HX0 & Hm0). unfold IsolateBg.neighbor_fill.
  match goal with |- context [for_pixels h w ?body ?s0] =>
    destruct (for_pixels_rule h w body
                (fun st => exists m, st = Some m /\ kept mask dst m)
                (fun y x st => forall m, st = Some m -> masked mask y x = true ->
                   exists Y X, nearest_unmasked mask h w y x Y X
                               /\ mat_at m y x = mat_at dst Y X) s0) as [HP HQ]
  end.
  - exists dst. split; [reflexivity|apply kept_refl].
  - intros y x st Hy Hx (m & -> & Hk).
    destruct (masked mask y x) eqn:Hmask.
    2: { split; [eauto|]. intros m' _ Hm'. discriminate. }
    assert (Hne : ~ (Y0 = y /\ X0 = x)) by (intros [-> ->]; congruence).
    destruct (ring_search_finds mask h w y x Y0 X0 (h + w) 1 m HY0 HX0 Hm0)
      as [v Hv]; [lia|lia|].
    destruct (ring_search_nearest y x (h + w) 1 m (mat_set m y x v)) as (Y & X & Hn & E);
      [lia| |exact Hv|].
    { intros Y' X' HY' HX' Hm'. unfold l1_distance.
      assert (~ (Y' = y /\ X' = x)) by (intros [-> ->]; congruence). lia. }
    rewrite Hv. split.
    + eexists. split; [reflexivity|]. apply kept_set; auto. lia.
    + intros m' [= <-] _. exists Y, X. split; [exact Hn|].
      destruct Hk as (Hr' & Hc' & Hwf' & Hat). destruct Hn as (HY & HX & HmY & _).
      rewrite E. rewrite mat_at_set_eq by (auto; lia).
      apply Hat; [lia|exact HmY].
  - intros y x y' x' st Hy Hx Hy' Hx' Hne (m & -> & Hk) HQ.
    destruct Hk as (Hr' & Hc' & Hwf' & Hat).
    destruct (masked mask y x) eqn:Hmask; [|exact HQ].
    destruct (ring_search_finds mask h w y x Y0 X0 (h + w) 1 m HY0 HX0 Hm0)
      as [v Hv]; [lia| |].
    { assert (~ (Y0 = y /\ X0 = x)) by (intros [-> ->]; congruence). lia. }
    rewrite Hv. intros m' [= <-] Hm'.
    rewrite mat_at_set_ne by (auto; lia). apply HQ; auto.
  - destruct HP as (m & Hres & Hr' & Hc' & Hwf' & Hat).
    exists m. split_and!; auto; try congruence.
    intros y x Hy Hx. destruct (masked mask y x) eqn:Hmask.
    + apply (HQ y x Hy Hx m Hres Hmask).
    + apply Hat; [lia|exact Hmask].
Qed.
End NearestNeighbor.

Lemma neighbor_fill_nearest_witness :
  let dst := mkMat 2 2 [10; 20; 30; 40]%Z in
  (mat_wf dst /\ rows dst = 2 /\ cols dst = 2
   /\ exists Y0 X0, Y0 < 2 /\ X0 < 2 /\ masked mask_C9 Y0 X0 = false)
  /\ exists m, IsolateBg.neighbor_fill mask_C9 2 2 dst = Some m
       /\ mat_wf m /\ rows m = 2 /\ cols m = 2
       /\ forall y x, y < 2 -> x < 2 ->
            if masked mask_C9 y x
            then exists Y X, nearest_unmasked mask_C9 2 2 y x Y X
                             /\ mat_at m y x = mat_at dst Y X
            else mat_at m y x = mat_at dst y x.
Proof.
  intros dst.
  assert (Hx : exists Y0 X0, Y0 < 2 /\ X0 < 2 /\ masked mask_C9 Y0 X0 = false).
  { exists 0, 0. split_and!; [lia|lia|reflexivity]. }
  split.
  - split_and!; [reflexivity|reflexivity|reflexivity|exact Hx].
  - apply (neighbor_fill_nearest mask_C9 2 2 dst);
      [reflexivity|reflexivity|reflexivity|exact Hx].
Defined.

(** ** isolate-bg: the conversions around the diffusion *)

Lemma map_saturate_double (l : list Z) :
  Forall (fun v => (0 <= v <= 255)%Z) l ->
  map saturate_uchar (map double_of_Z l) = l.
Proof.
  induction 1 as [|v l Hv _ IH]; simpl; [reflexivity|].
  rewrite saturate_uchar_double_of_Z by exact Hv. rewrite IH. reflexivity.
Qed.

Lemma map_Vec3f_Vec3b (l : list Vec3b) :
  Forall (fun c : Vec3b =>
            (0 <= c.1.1 <= 255)%Z /\ (0 <= c.1.2 <= 255)%Z /\ (0 <= c.2 <= 255)%Z) l ->
  map Vec3f_to_Vec3b (map Vec3b_to_Vec3f l) = l.
Proof.
  induction 1 as [|c l Hc _ IH]; simpl; [reflexivity|].
  rewrite Vec3f_to_Vec3b_to_Vec3f by exact Hc. rewrite IH. reflexivity.
Qed.

(** X18. The conversion of an image of [unsigned char] samples to
    [float] samples and back gives the image again: with no iteration
    of the diffusion, [fastInpaint] returns the initialized image as it
    is. *)
Theorem diffuse_zero_iterations
    (filter2D : Mat float -> Mat float) (filter2D_C3 : Mat Vec3f -> Mat Vec3f)
    (dst : Image) (mask : Mat Z) (h w : nat) :
  image_8bit dst ->
  IsolateBg.diffuse filter2D filter2D_C3 dst mask h w 0 = dst.
Proof.
  intros H8. destruct dst as [[r c l]|[r c l]]; unfold IsolateBg.diffuse, mat_map;
    cbn [for_loop rows cols data]; do 2 f_equal.
  - apply map_saturate_double, H8.
  - apply map_Vec3f_Vec3b, H8.
Qed.

Lemma diffuse_zero_iterations_witness :
  image_8bit image_color
  /\ IsolateBg.diffuse ref_filter2D ref_filter2D_C3 image_color mask_two 2 2 0
     = image_color.
Proof.
  split; [exact image_color_8bit|].
  apply (diffuse_zero_iterations ref_filter2D ref_filter2D_C3 image_color mask_two 2 2).
  exact image_color_8bit.
Defined.

(** ** isolate-bg: the normalization *)

Lemma zero_times_over_zero (alpha : float) :
  (alpha * 0 / 0)%float = nan.
Proof.
  apply Prim2SF_inj. rewrite div_spec, mul_spec.
  change (Prim2SF 0) with (S754_zero false). change (Prim2SF nan) with S754_nan.
  destruct (Prim2SF alpha) as [s|s| |s m e]; reflexivity.
Qed.

Lemma normalize_sample_zero (alpha : float) :
  IsolateBg.normalize_sample alpha 0 0 = None.
Proof.
  unfold IsolateBg.normalize_sample.
  change (double_of_Z 0) with 0%float. rewrite zero_times_over_zero.
  reflexivity.
Qed.

(** X19. The normalization divides the sample of the image by the
    sample of the background: where both are 0 the quotient is NaN for
    every [backgroundAlpha], neither [max] nor [min] replaces it, and
    its conversion to [unsigned char] is undefined; so is the run on an
    image and a background that hold such a pixel. *)
Theorem normalize_undefined_on_black (alpha : float) (img bg : Image) (y x : nat) :
  y < image_rows img -> x < image_cols img ->
  black_on_black img bg y x ->
  IsolateBg.normalize_sample alpha 0 0 = None
  /\ IsolateBg.normalize_image alpha img bg (image_rows img) (image_cols img) = None.
Proof.
  intros Hy Hx Hblack. split; [apply normalize_sample_zero|].
  unfold IsolateBg.normalize_image.
  destruct img as [i|i], bg as [b|b]; cbn [image_rows image_cols black_on_black] in *;
    try contradiction.
  - match goal with |- option_map _ (for_pixels ?h ?w ?body ?s0) = None =>
      assert (HI : match for_pixels h w body s0 with
                   | None => True
                   | Some i' => cols i' = cols i /\ ~ before h 0 y x
                                /\ mat_at i' y x = mat_at i y x
                   end)
    end.
    { apply (for_pixels_order (rows i) (cols i) _
               (fun y' x' st => match st with
                  | None => True
                  | Some i' => cols i' = cols i /\ ~ before y' x' y x
                               /\ mat_at i' y x = mat_at i y x
                  end)).
      - split_and!; auto. unfold before. lia.
      - intros y' x' [i'|] Hy' Hx' HI; [|exact I].
        destruct HI as (Hc & Hnb & Hat).
        destruct (decide (y' = y /\ x' = x)) as [[-> ->]|Hne].
        + rewrite Hat. destruct Hblack as [-> ->].
          rewrite normalize_sample_zero. exact I.
        + destruct (IsolateBg.normalize_sample alpha _ _) as [vR|]; [|exact I].
          split_and!; auto.
          * unfold before in *. lia.
          * rewrite mat_at_set_ne; [exact Hat|lia|lia|].
            intros [= -> ->]. apply Hne. auto.
      - intros y' [i'|] Hy' HI; [|exact I]. destruct HI as (Hc & Hnb & Hat).
        split_and!; auto. unfold before in *. lia. }
    destruct (for_pixels _ _ _ _) as [i'|]; [|reflexivity].
    destruct HI as (_ & Hnb & _). exfalso. apply Hnb. unfold before. lia.
  - match goal with |- option_map _ (for_pixels ?h ?w ?body ?s0) = None =>
      assert (HI : match for_pixels h w body s0 with
                   | None => True
                   | Some i' => cols i' = cols i /\ ~ before h 0 y x
                                /\ mat_at i' y x = mat_at i y x
                   end)
    end.
    { apply (for_pixels_order (rows i) (cols i) _
               (fun y' x' st => match st with
                  | None => True
                  | Some i' => cols i' = cols i /\ ~ before y' x' y x
                               /\ mat_at i' y x = mat_at i y x
                  end)).
      - split_and!; auto. unfold before. lia.
      - intros y' x' [i'|] Hy' Hx' HI; [|exact I].
        destruct HI as (Hc & Hnb & Hat).
        destruct (decide (y' = y /\ x' = x)) as [[-> ->]|Hne].
        + cbv zeta. cbv zeta in Hblack. unfold Vec3b in *. rewrite Hat.
          destruct Hblack as [[-> ->]|[[-> ->]|[-> ->]]];
            rewrite normalize_sample_zero;
            repeat (destruct (IsolateBg.normalize_sample alpha _ _)); exact I.
        + cbv zeta.
          destruct (IsolateBg.normalize_sample alpha _ _) as [c0|]; [|exact I].
          destruct (IsolateBg.normalize_sample alpha _ _) as [c1|]; [|exact I].
          destruct (IsolateBg.normalize_sample alpha _ _) as [c2|]; [|exact I].
          split_and!; auto.
          * unfold before in *. lia.
          * rewrite mat_at_set_ne; [exact Hat|lia|lia|].
            intros [= -> ->]. apply Hne. auto.
      - intros y' [i'|] Hy' HI; [|exact I]. destruct HI as (Hc & Hnb & Hat).
        split_and!; auto. unfold before in *. lia. }
    destruct (for_pixels _ _ _ _) as [i'|]; [|reflexivity].
    destruct HI as (_ & Hnb & _). exfalso. apply Hnb. unfold before. lia.
Qed.

Lemma normalize_undefined_on_black_witness :
  let img := Gray (mkMat 1 3 [0; 0; 255]%Z) in
  (0 < image_rows img /\ 1 < image_cols img /\ black_on_black img img 0 1)
  /\ IsolateBg.normalize_sample 0.9 0 0 = None
  /\ IsolateBg.normalize_image 0.9 img img (image_rows img) (image_cols img) = None.
Proof.
  intros img. split.
  - split_and!; [simpl; lia|simpl; lia|split; reflexivity].
  - apply (normalize_undefined_on_black 0.9 img img 0 1);
      [simpl; lia|simpl; lia|split; reflexivity].
Defined.

(** ** binarize-sauvola: the option [-X] *)

Lemma find_first_of_ge arg c p0 p :
  find_first_of arg c p0 = Some p -> p0 <= p.
Proof.
  revert p0 p. induction arg as [|a rest IH]; intros p0 p; simpl; [discriminate|].
  destruct p0 as [|p0]; [lia|].
  destruct (find_first_of rest c p0) as [q|] eqn:E; [|discriminate].
  intros [= <-]. apply IH in E. lia.
Qed.

Lemma string_length_append (s t : String.string) :
  String.length (String.append s t) = String.length s + String.length t.
Proof. induction s as [|a s IH]; simpl; [reflexivity|]. rewrite IH. reflexivity. Qed.

Lemma string_append_assoc (s t u : String.string) :
  String.append (String.append s t) u = String.append s (String.append t u).
Proof. induction s as [|a s IH]; simpl; [reflexivity|]. rewrite IH. reflexivity. Qed.

Lemma find_first_of_append pre suf c :
  find_first_of (String.append pre suf) c (String.length pre)
  = option_map (Nat.add (String.length pre)) (find_first_of suf c 0).
Proof.
  induction pre as [|a pre IH]; simpl.
  - destruct (find_first_of suf c 0); reflexivity.
  - rewrite IH. destruct (find_first_of suf c 0); reflexivity.
Qed.

Lemma substring_append pre suf n :
  String.substring (String.length pre) n (String.append pre suf)
  = String.substring 0 n suf.
Proof. induction pre as [|a pre IH]; simpl; [reflexivity|exact IH]. Qed.

Lemma substring_all (s : String.string) :
  String.substring 0 (String.length s) s = s.
Proof. induction s as [|a s IH]; simpl; [reflexivity|]. rewrite IH. reflexivity. Qed.

Lemma comma_tokens_length (s : String.string) : 1 <= length (comma_tokens s).
Proof.
  induction s as [|a s IH]; simpl; [lia|].
  destruct (Ascii.eqb a ","); [simpl; lia|].
  destruct (comma_tokens s); simpl in *; lia.
Qed.

(** The argument up to its first comma is its first token. *)
Lemma first_token (suf : String.string) q :
  find_first_of suf "," 0 = Some q ->
  exists t rest,
    suf = String.append t (String.String "," rest)
    /\ String.length t = q
    /\ comma_tokens suf = t :: comma_tokens rest
    /\ String.substring 0 q suf = t.
Proof.
  revert q. induction suf as [|a suf IH]; intros q; simpl; [discriminate|].
  destruct (Ascii.eqb a ",") eqn:Ea.
  - intros [= <-]. apply Ascii.eqb_eq in Ea. subst a.
    exists String.EmptyString, suf. split_and!; reflexivity.
  - destruct (find_first_of suf "," 0) as [q'|] eqn:Ef; [|discriminate].
    intros [= <-]. destruct (IH q' eq_refl) as (t & rest & -> & Hq & Htok & Hsub).
    exists (String.String a t), rest. split_and!.
    + reflexivity.
    + simpl. rewrite Hq. reflexivity.
    + rewrite Htok. reflexivity.
    + simpl. rewrite Hsub. reflexivity.
Qed.

(** An argument without a comma is one token. *)
Lemma last_token (suf : String.string) :
  find_first_of suf "," 0 = None ->
  comma_tokens suf = [suf]
  /\ String.substring 0 (String.length suf) suf = suf.
Proof.
  intros Hf. split; [|apply substring_all].
  induction suf as [|a suf IH]; simpl in *; [reflexivity|].
  destruct (Ascii.eqb a ","); [discriminate|].
  destruct (find_first_of suf "," 0); [discriminate|].
  rewrite IH by reflexivity. reflexivity.
Qed.

Section OptionXLoop.
Variable argparse_int : String.string -> option Z.

Lemma option_X_loop_ends fuel arg p0 acc :
  p0 <= String.length arg -> String.length arg + 1 - p0 <= fuel ->
  exists r, option_X_loop argparse_int fuel arg p0 acc = Some r
    /\ forall l, r = Some l ->
         length acc < length l <= 3
         /\ (Forall (fun wsize => window_size_ok wsize = true) acc ->
             Forall (fun wsize => window_size_ok wsize = true) l).
Proof using Type.
  revert p0 acc. induction fuel as [|fuel IH]; intros p0 acc Hp0 Hfuel; [lia|].
  cbn [option_X_loop]. cbv zeta.
  destruct (3 <=? length acc) eqn:E3; [eexists; split; [reflexivity|discriminate]|].
  apply Nat.leb_gt in E3.
  set (p1 := match find_first_of arg "," p0 with
             | Some p => Nat.min p (String.length arg)
             | None => String.length arg
             end).
  assert (Hp1 : p0 <= p1 <= String.length arg).
  { subst p1. destruct (find_first_of arg "," p0) as [p|] eqn:Ef; [|lia].
    apply find_first_of_ge in Ef. lia. }
  destruct (argparse_int _) as [wsize|]; [|eexists; split; [reflexivity|discriminate]].
  destruct (wsize <? 1)%Z eqn:E1; [eexists; split; [reflexivity|discriminate]|].
  destruct (windowSizeLimit <? wsize)%Z eqn:E2;
    [eexists; split; [reflexivity|discriminate]|].
  apply Z.ltb_ge in E1, E2.
  assert (Hok : window_size_ok (Z.to_nat wsize) = true).
  { unfold window_size_ok. apply andb_true_iff. split.
    - apply Nat.leb_le. lia.
    - apply Z.leb_le. lia. }
  destruct (p1 <? String.length arg) eqn:Ep.
  - apply Nat.ltb_lt in Ep.
    destruct (IH (p1 + 1) (acc ++ [Z.to_nat wsize])) as (r & -> & Hr); [lia|lia|].
    exists r. split; [reflexivity|]. intros l Hl.
    destruct (Hr l Hl) as [Hlen Hall]. rewrite length_app in Hlen. simpl in Hlen.
    split; [lia|]. intros Hacc. apply Hall. apply Forall_app. split; [exact Hacc|].
    repeat constructor. exact Hok.
  - eexists. split; [reflexivity|]. intros l [= <-].
    rewrite length_app. simpl. split; [lia|].
    intros Hacc. apply Forall_app. split; [exact Hacc|].
    repeat constructor. exact Hok.
Qed.

(** The loop from the end of the prefix [pre] of the argument on reads
    the tokens of the rest. *)
Lemma option_X_loop_tokens fuel pre suf acc :
  String.length suf + 1 <= fuel ->
  option_X_loop argparse_int fuel (String.append pre suf) (String.length pre) acc
  = Some (if length acc + length (comma_tokens suf) <=? 3
          then option_map (app acc) (window_sizes_of argparse_int (comma_tokens suf))
          else None).
Proof using Type.
  revert pre suf acc. induction fuel as [|fuel IH]; intros pre suf acc Hfuel; [lia|].
  cbn [option_X_loop]. cbv zeta.
  pose proof (comma_tokens_length suf) as Hne.
  destruct (3 <=? length acc) eqn:E3.
  { apply Nat.leb_le in E3.
    destruct (length acc + length (comma_tokens suf) <=? 3) eqn:E; [bool_lia|reflexivity]. }
  apply Nat.leb_gt in E3.
  rewrite find_first_of_append, string_length_append.
  destruct (find_first_of suf "," 0) as [q|] eqn:Ef; cbn [option_map].
  - destruct (first_token suf q Ef) as (t & rest & -> & Hq & Htok & Hsub).
    rewrite string_length_append in *. cbn [String.length] in *.
    replace (Nat.min (String.length pre + q)
               (String.length pre + (String.length t + S (String.length rest))))
      with (String.length pre + q) by lia.
    replace (String.length pre + q - String.length pre) with q by lia.
    rewrite substring_append, Hsub, Htok. cbn [window_sizes_of length].
    unfold window_size_of at 1.
    destruct (argparse_int t) as [wsize|].
    2: { destruct (_ <=? 3); reflexivity. }
    destruct (wsize <? 1)%Z; [destruct (_ <=? 3); reflexivity|].
    destruct (windowSizeLimit <? wsize)%Z; [destruct (_ <=? 3); reflexivity|].
    replace (String.length pre + q <? String.length pre
                                       + (String.length t + S (String.length rest)))
      with true by (symmetry; apply Nat.ltb_lt; lia).
    replace (String.length pre + q + 1)
      with (String.length (String.append pre (String.append t (String.String "," String.EmptyString)))).
    2: { rewrite !string_length_append. simpl. lia. }
    replace (String.append pre (String.append t (String.String "," rest)))
      with (String.append
              (String.append pre (String.append t (String.String "," String.EmptyString)))
              rest).
    2: { rewrite !string_append_assoc. reflexivity. }
    rewrite IH by lia. rewrite length_app. cbn [length].
    replace (length acc + 1 + length (comma_tokens rest))
      with (length acc + S (length (comma_tokens rest))) by lia.
    destruct (_ <=? 3); [|reflexivity].
    destruct (window_sizes_of argparse_int (comma_tokens rest)) as [l|];
      cbn [option_map]; [|reflexivity].
    rewrite <- app_assoc. reflexivity.
  - destruct (last_token suf Ef) as [Htok Hsub].
    replace (Nat.min (String.length pre + String.length suf)
               (String.length pre + String.length suf))
      with (String.length pre + String.length suf) by lia.
    replace (String.length pre + String.length suf - String.length pre)
      with (String.length suf) by lia.
    rewrite substring_append, Hsub, Htok. cbn [window_sizes_of length].
    replace (length acc + 1 <=? 3) with true by (symmetry; apply Nat.leb_le; lia).
    unfold window_size_of.
    destruct (argparse_int suf) as [wsize|]; [|reflexivity].
    destruct (wsize <? 1)%Z; [reflexivity|].
    destruct (windowSizeLimit <? wsize)%Z; [reflexivity|].
    rewrite Nat.ltb_irrefl. reflexivity.
Qed.

(** X20. For every argument of the option [-X], the loop that reads
    the window sizes ends within as many turns as the argument has
    characters, plus one.  It accepts the argument when it is a list of
    one to three tokens separated by commas, each of which
    [argparse_int] reads as an integer between 1 and [windowSizeLimit],
    and then leaves these integers in their order; it refuses every
    other argument. *)
Theorem option_X_tokens (arg : String.string) :
  option_X argparse_int (S (String.length arg)) arg
  = Some (if length (comma_tokens arg) <=? 3
          then window_sizes_of argparse_int (comma_tokens arg)
          else None)
  /\ forall multiWindowSize,
       option_X argparse_int (S (String.length arg)) arg = Some (Some multiWindowSize) ->
       1 <= length multiWindowSize <= 3
       /\ Forall (fun wsize => window_size_ok wsize = true) multiWindowSize.
Proof using Type.
  unfold option_X. split.
  - pose proof (option_X_loop_tokens (S (String.length arg)) String.EmptyString arg []
                  ltac:(lia)) as H.
    cbn [String.append String.length length Nat.add] in H. rewrite H.
    destruct (_ <=? 3); [|reflexivity].
    destruct (window_sizes_of argparse_int (comma_tokens arg)); reflexivity.
  - intros l Hl.
    destruct (option_X_loop_ends (S (String.length arg)) arg 0 [])
      as (r & Hr & Hinv); [lia|lia|].
    rewrite Hr in Hl. injection Hl as ->.
    destruct (Hinv l eq_refl) as [Hlen Hall].
    simpl in Hlen. split; [lia|]. apply Hall. constructor.
Qed.
End OptionXLoop.

(** ** isolate-bg: the samples of the output *)

Section Written.
Context {T : Type} `{!Inhabited T}.

(** A loop that either writes a sample that satisfies [P8] at its pixel
    or fails leaves, when it does not fail, a matrix of such samples. *)
Lemma for_pixels_written (P8 : T -> Prop) (h w : nat)
    (body : nat -> nat -> option (Mat T) -> option (Mat T)) (m0 out : Mat T) :
  mat_wf m0 -> rows m0 = h -> cols m0 = w ->
  (forall y x, body y x None = None) ->
  (forall y x m, y < h -> x < w ->
     body y x (Some m) = None
     \/ exists v, body y x (Some m) = Some (mat_set m y x v) /\ P8 v) ->
  for_pixels h w body (Some m0) = Some out ->
  mat_wf out /\ rows out = h /\ cols out = w
  /\ forall y x, y < h -> x < w -> P8 (mat_at out y x).
Proof using Type.
  intros Hwf Hr Hc Hnone Hbody Hres.
  destruct (for_pixels_rule h w body
              (fun st => forall m, st = Some m ->
                 mat_wf m /\ rows m = h /\ cols m = w)
              (fun y x st => forall m, st = Some m -> P8 (mat_at m y x))
              (Some m0)) as [HP HQ].
  - intros m [= <-]. auto.
  - intros y x [m|] Hy Hx HP; [|rewrite Hnone; split; discriminate].
    destruct (HP m eq_refl) as (Hwf' & Hr' & Hc').
    destruct (Hbody y x m Hy Hx) as [->|(v & -> & Hv)]; [split; discriminate|].
    split; intros m' [= <-].
    + split_and!; auto using mat_set_wf.
    + rewrite mat_at_set_eq by (auto; lia). exact Hv.
  - intros y x y' x' [m|] Hy Hx Hy' Hx' Hne HP HQ; [|rewrite Hnone; discriminate].
    destruct (HP m eq_refl) as (Hwf' & Hr' & Hc').
    destruct (Hbody y x m Hy Hx) as [->|(v & -> & Hv)]; [discriminate|].
    intros m' [= <-]. rewrite mat_at_set_ne by (auto; lia). apply HQ. reflexivity.
  - rewrite Hres in HP, HQ. destruct (HP out eq_refl) as (Hwf' & Hr' & Hc').
    split_and!; [exact Hwf'|exact Hr'|exact Hc'|].
    intros y x Hy Hx. apply (HQ y x Hy Hx out eq_refl).
Qed.
End Written.

(** X21. Whenever the normalization is defined at every pixel, it
    leaves an image of the size and the number of channels of the input
    whose samples all lie in [0, 255]. *)
Theorem normalize_output_8bit (alpha : float) (img bg out : Image) :
  image_wf img ->
  IsolateBg.normalize_image alpha img bg (image_rows img) (image_cols img) = Some out ->
  image_wf out /\ image_8bit out
  /\ image_rows out = image_rows img /\ image_cols out = image_cols img
  /\ channels out = channels img.
Proof.
  intros Hwf. unfold IsolateBg.normalize_image.
  destruct img as [i|i], bg as [b|b]; cbn [image_rows image_cols image_wf] in *;
    try discriminate.
  - destruct (for_pixels _ _ _ _) as [m|] eqn:E; [|discriminate].
    intros [= <-].
    match type of E with for_pixels ?h ?w ?body _ = _ =>
      destruct (for_pixels_written (fun v => (0 <= v <= 255)%Z) h w body i m
                  Hwf eq_refl eq_refl) as (Hwf' & Hr' & Hc' & H8)
    end.
    + reflexivity.
    + intros y x m' Hy Hx.
      destruct (IsolateBg.normalize_sample alpha _ _) as [vR|] eqn:Ev; [|left; reflexivity].
      right. exists vR. split; [reflexivity|]. apply (uchar_of_double_range _ _ Ev).
    + exact E.
    + simpl. split_and!; auto.
      apply mat_Forall_intro; [exact Hwf'|].
      intros y x Hy Hx. apply H8; congruence.
  - destruct (for_pixels _ _ _ _) as [m|] eqn:E; [|discriminate].
    intros [= <-].
    match type of E with for_pixels ?h ?w ?body _ = _ =>
      destruct (for_pixels_written
                  (fun c : Vec3b => (0 <= c.1.1 <= 255)%Z /\ (0 <= c.1.2 <= 255)%Z
                                    /\ (0 <= c.2 <= 255)%Z) h w body i m
                  Hwf eq_refl eq_refl) as (Hwf' & Hr' & Hc' & H8)
    end.
    + reflexivity.
    + intros y x m' Hy Hx. cbv zeta.
      destruct (IsolateBg.normalize_sample alpha _ _) as [c0|] eqn:E0;
        [|left; reflexivity].
      destruct (IsolateBg.normalize_sample alpha _ _) as [c1|] eqn:E1 in |- *;
        [|left; reflexivity].
      destruct (IsolateBg.normalize_sample alpha _ _) as [c2|] eqn:E2 in |- *;
        [|left; reflexivity].
      right. exists (c0, c1, c2). split; [reflexivity|]. cbn [fst snd].
      split; [|split]; eapply uchar_of_double_range; eassumption.
    + exact E.
    + simpl. split_and!; auto.
      apply mat_Forall_intro; [exact Hwf'|].
      intros y x Hy Hx. apply H8; congruence.
Qed.

Lemma normalize_output_8bit_witness :
  let img := Gray (mkMat 1 3 [10; 100; 255]%Z) in
  let bg := Gray (mkMat 1 3 [100; 100; 0]%Z) in
  let out := Gray (mkMat 1 3 [22; 229; 255]%Z) in
  (image_wf img
   /\ IsolateBg.normalize_image 0.9 img bg (image_rows img) (image_cols img) = Some out)
  /\ image_wf out /\ image_8bit out
  /\ image_rows out = image_rows img /\ image_cols out = image_cols img
  /\ channels out = channels img.
Proof.
  intros img bg out.
  assert (H : IsolateBg.normalize_image 0.9 img bg (image_rows img) (image_cols img)
              = Some out) by (vm_compute; reflexivity).
  split; [split; [reflexivity|exact H]|].
  apply (normalize_output_8bit 0.9 img bg out); [reflexivity|exact H].
Defined.

(** ** isolate-bg: the brightness adjustment *)

Lemma float_ltb_irrefl (x : float) : (x <? x)%float = false.
Proof.
  rewrite ltb_spec. unfold SFltb, SFcompare.
  destruct (Prim2SF x) as [s|s| |s m e]; try destruct s; try reflexivity;
    rewrite Z.compare_refl, Pos.compare_cont_refl; reflexivity.
Qed.

Lemma fold_left_min_flat (l : list Z) c :
  Forall (eq c) l -> fold_left Z.min l c = c.
Proof.
  induction 1 as [|v l <- _ IH]; simpl; [reflexivity|].
  rewrite Z.min_id. exact IH.
Qed.

Lemma fold_left_max_flat (l : list Z) c :
  Forall (eq c) l -> fold_left Z.max l c = c.
Proof.
  induction 1 as [|v l <- _ IH]; simpl; [reflexivity|].
  rewrite Z.max_id. exact IH.
Qed.

Section Brightness.
Variable cvtColor : Mat Vec3b -> Mat Z.

(** X22. An image whose samples, after the conversion to grayscale of
    a color image, all hold the same value is left as it is by the
    brightness adjustment: the scale [255 / (Emax - Emin)] is not
    computed. *)
Theorem adjust_brightness_flat (img : Image) (h w : nat) (c : Z) :
  let tmp := match img with Color i => cvtColor i | Gray i => i end in
  data tmp <> [] -> Forall (eq c) (data tmp) ->
  IsolateBg.adjust_brightness cvtColor img h w = Some img.
Proof using Type.
  cbv zeta. intros Hne Hflat. unfold IsolateBg.adjust_brightness.
  destruct (data _) as [|p l]; [congruence|].
  apply Forall_cons in Hflat as [<- Hflat].
  rewrite fold_left_min_flat, fold_left_max_flat by exact Hflat.
  rewrite float_ltb_irrefl. reflexivity.
Qed.

(** X23. Whenever the brightness adjustment is defined at every pixel
    of an image of [unsigned char] samples, it leaves an image of the
    same size and number of channels whose samples all lie in
    [0, 255]. *)
Theorem adjust_brightness_output_8bit (img out : Image) :
  image_wf img -> image_8bit img ->
  IsolateBg.adjust_brightness cvtColor img (image_rows img) (image_cols img) = Some out ->
  image_wf out /\ image_8bit out
  /\ image_rows out = image_rows img /\ image_cols out = image_cols img
  /\ channels out = channels img.
Proof using Type.
  intros Hwf H8. unfold IsolateBg.adjust_brightness.
  destruct (data _) as [|p l]; [discriminate|].
  destruct (_ <? _)%float.
  2: { intros [= <-]. auto. }
  destruct img as [i|i]; cbn [image_rows image_cols image_wf] in *.
  - destruct (for_pixels _ _ _ _) as [m|] eqn:E; [|discriminate].
    intros [= <-].
    match type of E with for_pixels ?h ?w ?body _ = _ =>
      destruct (for_pixels_written (fun v => (0 <= v <= 255)%Z) h w body i m
                  Hwf eq_refl eq_refl) as (Hwf' & Hr' & Hc' & H8')
    end.
    + reflexivity.
    + intros y x m' Hy Hx.
      destruct (uchar_of_double _) as [vR|] eqn:Ev; [|left; reflexivity].
      right. exists vR. split; [reflexivity|]. apply (uchar_of_double_range _ _ Ev).
    + exact E.
    + simpl. split_and!; auto.
      apply mat_Forall_intro; [exact Hwf'|].
      intros y x Hy Hx. apply H8'; congruence.
  - destruct (for_pixels _ _ _ _) as [m|] eqn:E; [|discriminate].
    intros [= <-].
    match type of E with for_pixels ?h ?w ?body _ = _ =>
      destruct (for_pixels_written
                  (fun c : Vec3b => (0 <= c.1.1 <= 255)%Z /\ (0 <= c.1.2 <= 255)%Z
                                    /\ (0 <= c.2 <= 255)%Z) h w body i m
                  Hwf eq_refl eq_refl) as (Hwf' & Hr' & Hc' & H8')
    end.
    + reflexivity.
    + intros y x m' Hy Hx. cbv zeta. unfold IsolateBg.stretch_sample.
      destruct (uchar_of_double _) as [c0|] eqn:E0; [|left; reflexivity].
      destruct (uchar_of_double _) as [c1|] eqn:E1 in |- *; [|left; reflexivity].
      destruct (uchar_of_double _) as [c2|] eqn:E2 in |- *; [|left; reflexivity].
      right. exists (c0, c1, c2). split; [reflexivity|]. cbn [fst snd].
      split; [|split]; eapply uchar_of_double_range; eassumption.
    + exact E.
    + simpl. split_and!; auto.
      apply mat_Forall_intro; [exact Hwf'|].
      intros y x Hy Hx. apply H8'; congruence.
Qed.
End Brightness.

Lemma adjust_brightness_flat_witness :
  let img := Gray (uniform 2 2 7) in
  (data (uniform 2 2 7) <> [] /\ Forall (eq 7%Z) (data (uniform 2 2 7)))
  /\ IsolateBg.adjust_brightness ref_cvtColor img 2 2
     = Some img.
Proof.
  intros img.
  assert (H1 : data (uniform 2 2 7) <> []) by discriminate.
  assert (H2 : Forall (eq 7%Z) (data (uniform 2 2 7)))
    by (simpl; repeat constructor).
  split; [split; [exact H1|exact H2]|].
  exact (adjust_brightness_flat ref_cvtColor
           img 2 2 7%Z H1 H2).
Defined.

Lemma adjust_brightness_output_8bit_witness :
  let img := Gray (mkMat 1 3 [10; 20; 60]%Z) in
  let out := Gray (mkMat 1 3 [0; 51; 254]%Z) in
  (image_wf img /\ image_8bit img
   /\ IsolateBg.adjust_brightness ref_cvtColor img
        (image_rows img) (image_cols img) = Some out)
  /\ image_wf out /\ image_8bit out
  /\ image_rows out = image_rows img /\ image_cols out = image_cols img
  /\ channels out = channels img.
Proof.
  intros img out.
  assert (H8 : image_8bit img)
    by (unfold image_8bit, img, is_8bit; simpl; repeat constructor; lia).
  assert (H : IsolateBg.adjust_brightness ref_cvtColor
                img (image_rows img) (image_cols img) = Some out)
    by (vm_compute; reflexivity).
  split; [split_and!; [reflexivity|exact H8|exact H]|].
  apply (adjust_brightness_output_8bit ref_cvtColor
           img out); [reflexivity|exact H8|exact H].
Defined.

(** ** isolate-bg: the background output of [main] *)

Lemma fastInpaint_returns_kept filter2D filter2D_C3 src mask initMode iterations :
  image_wf src -> image_8bit src ->
  exists ok dst,
    IsolateBg.fastInpaint filter2D filter2D_C3 src mask initMode iterations
    = Some (ok, dst)
    /\ image_rows dst = image_rows src /\ image_cols dst = image_cols src
    /\ forall y x, y < image_rows src -> x < image_cols src ->
         masked mask y x = false -> same_pixel src dst y x.
Proof.
  intros Hwf H8.
  assert (Hsrc : forall y x, same_pixel src src y x)
    by (intros; destruct src; reflexivity).
  unfold IsolateBg.fastInpaint.
  destruct initMode.
  - destruct (IsolateBg.mean_init src mask (image_rows src) (image_cols src))
      as [dst|] eqn:E.
    + apply mean_init_kept in E; [|reflexivity].
      destruct (diffuse_after_init filter2D filter2D_C3 mask src dst iterations
                  Hwf H8 E) as (Hr & Hc & Hs).
      eexists _, _. split_and!; eauto.
    + eexists _, _. split_and!; eauto.
  - destruct (neighbor_init_kept src mask (image_rows src) (image_cols src) eq_refl)
      as [->|(dst & -> & E)].
    + eexists _, _. split_and!; eauto.
    + destruct (diffuse_after_init filter2D filter2D_C3 mask src dst iterations
                  Hwf H8 E) as (Hr & Hc & Hs).
      eexists _, _. split_and!; eauto.
Qed.

(** X24. On a grayscale image of [unsigned char] samples that passes
    the size check and whose thresholds are all defined, [main] with the
    background output, a blur size of 1 and no brightness adjustment
    returns 0 and hands to [imwrite] an image of the size of the input
    that holds the input sample wherever the mask, derived from the
    binarized input by the chain of negations and insets, is zero. *)
Theorem main_background_keeps_unmasked
    (filter2D : Mat float -> Mat float) (filter2D_C3 : Mat Vec3f -> Mat Vec3f)
    (distanceTransform : Mat Z -> DistanceType -> Mat float)
    (GaussianBlur : Image -> nat -> Image) (cvtColor : Mat Vec3b -> Mat Z)
    (cfg : IsolateBg.Config) (img : Mat Z) :
  IsolateBg.inputAsGrayscale cfg = false ->
  IsolateBg.programMode cfg = IsolateBg.OUT_BACKGROUND ->
  IsolateBg.backgroundBlur cfg = 1 ->
  IsolateBg.adjustBrightness cfg = false ->
  mat_wf img -> is_8bit img -> 1 <= rows img -> 1 <= cols img ->
  window_size_ok (IsolateBg.integralWindowSize cfg) = true ->
  pad_size_ok (cols img) (rows img) (IsolateBg.integralWindowSize cfg) = true ->
  (forall y x, y < rows img -> x < cols img ->
     is_Some (isolate_pixel_sample (IsolateBg.kParam cfg) (IsolateBg.rScale cfg) img
                (IsolateBg.integralWindowSize cfg) y x)) ->
  exists tmp out,
    IsolateBg.binarizeUsingSauvola (mkMat 0 0 []) img (IsolateBg.integralWindowSize cfg)
      (IsolateBg.kParam cfg) (IsolateBg.rScale cfg) = Some (true, tmp)
    /\ IsolateBg.main filter2D filter2D_C3 distanceTransform GaussianBlur cvtColor
         cfg (Gray img) = Some (0%Z, out)
    /\ image_rows out = rows img /\ image_cols out = cols img
    /\ forall y x, y < rows img -> x < cols img ->
         mat_at (refine_mask distanceTransform tmp
                   (IsolateBg.maskDenoiseDistance1 cfg)
                   (IsolateBg.maskDenoiseDistance2 cfg)) y x = 0%Z ->
         same_pixel (Gray img) out y x.
Proof.
  intros Hgray Hmode Hblur Hadj Hwf H8 Hh Hw Hok Hpad Hsome.
  destruct (binarizeUsingSauvola_samples (mkMat 0 0 []) img
              (IsolateBg.integralWindowSize cfg) (IsolateBg.kParam cfg)
              (IsolateBg.rScale cfg) Hwf H8 Hh Hw Hok Hpad) as [HA _].
  destruct (HA Hsome) as (tmp & Hbin & Hwft & Hrt & Hct & _).
  destruct (fastInpaint_returns_kept filter2D filter2D_C3 (Gray img)
              (refine_mask distanceTransform tmp
                 (IsolateBg.maskDenoiseDistance1 cfg)
                 (IsolateBg.maskDenoiseDistance2 cfg))
              (IsolateBg.inpaintInitMode cfg) (IsolateBg.inpaintIterations cfg)
              Hwf H8) as (ok & bg & Hin & Hr & Hc & Hkept).
  exists tmp, bg. split; [exact Hbin|].
  split.
  - unfold IsolateBg.main. rewrite Hgray. cbn [image_rows image_cols].
    rewrite Hbin. unfold refine_mask in Hin. cbv zeta in Hin. rewrite Hin.
    rewrite Hblur, Hmode, Hadj. reflexivity.
  - split_and!; [exact Hr|exact Hc|].
    intros y x Hy Hx Hz. apply Hkept; [exact Hy|exact Hx|].
    unfold masked. rewrite Hz. reflexivity.
Qed.

Lemma main_background_keeps_unmasked_witness :
  let cfg := isolate_config IsolateBg.OUT_BACKGROUND 2
               IsolateBg.ISOBG_INPAINT_INIT_NEIGHBOR_L1 1 in
  (IsolateBg.inputAsGrayscale cfg = false
   /\ IsolateBg.programMode cfg = IsolateBg.OUT_BACKGROUND
   /\ IsolateBg.backgroundBlur cfg = 1
   /\ IsolateBg.adjustBrightness cfg = false
   /\ mat_wf image_C1 /\ is_8bit image_C1
   /\ 1 <= rows image_C1 /\ 1 <= cols image_C1
   /\ window_size_ok (IsolateBg.integralWindowSize cfg) = true
   /\ pad_size_ok (cols image_C1) (rows image_C1) (IsolateBg.integralWindowSize cfg)
      = true
   /\ forall y x, y < rows image_C1 -> x < cols image_C1 ->
        is_Some (isolate_pixel_sample (IsolateBg.kParam cfg) (IsolateBg.rScale cfg)
                   image_C1 (IsolateBg.integralWindowSize cfg) y x))
  /\ exists tmp out,
       IsolateBg.binarizeUsingSauvola (mkMat 0 0 []) image_C1
         (IsolateBg.integralWindowSize cfg)
         (IsolateBg.kParam cfg) (IsolateBg.rScale cfg) = Some (true, tmp)
       /\ IsolateBg.main ref_filter2D ref_filter2D_C3 ref_distanceTransform
            (fun bg _ => bg) ref_cvtColor cfg (Gray image_C1) = Some (0%Z, out)
       /\ image_rows out = rows image_C1 /\ image_cols out = cols image_C1
       /\ forall y x, y < rows image_C1 -> x < cols image_C1 ->
            mat_at (refine_mask ref_distanceTransform tmp
                      (IsolateBg.maskDenoiseDistance1 cfg)
                      (IsolateBg.maskDenoiseDistance2 cfg)) y x = 0%Z ->
            same_pixel (Gray image_C1) out y x.
Proof.
  intros cfg.
  assert (Hok : window_size_ok (IsolateBg.integralWindowSize cfg) = true)
    by (vm_compute; reflexivity).
  assert (Hp : pad_size_ok (cols image_C1) (rows image_C1)
                 (IsolateBg.integralWindowSize cfg) = true)
    by (vm_compute; reflexivity).
  assert (Hs : forall y x, y < rows image_C1 -> x < cols image_C1 ->
            is_Some (isolate_pixel_sample (IsolateBg.kParam cfg) (IsolateBg.rScale cfg)
                       image_C1 (IsolateBg.integralWindowSize cfg) y x)).
  { intros y x Hy Hx. simpl in Hy, Hx.
    destruct y as [|[|y]]; [| |lia]; (destruct x as [|[|x]]; [| |lia]);
      vm_compute; eauto. }
  split.
  - split_and!; try reflexivity; try assumption; try exact image_C1_8bit; simpl; lia.
  - apply (main_background_keeps_unmasked ref_filter2D ref_filter2D_C3
             ref_distanceTransform (fun bg _ => bg) ref_cvtColor cfg image_C1);
      try reflexivity; try assumption; try exact image_C1_8bit; simpl; lia.
Defined.
